(** * polysat: viable domains and the linear solver

    A shallow embedding of [src/math/polysat/viable.cpp] (the [NEW_VIABLE]
    interval domains) and of [src/math/polysat/linear_solver.cpp], with the
    properties of the trail, of narrowing and of the per-width dispatch.

    Conventions.  [rational] values are integers here and are modelled by
    [Z]; [unsigned] bit widths, problem variables and budgets by [nat];
    [unsigned] counters and internal variables by [Z] with the 32-bit
    wrap-around written out. *)

From stdpp Require Import base numbers option list gmap relations.
From Stdlib Require Import ZArith Lia Sorted.

Local Open Scope Z_scope.

(** ** Interval domains: [viable_set] *)

Module ViableSet.

(** [viable_set] extends [mod_interval<rational>] with [m_num_bits]. *)
Record viable_set : Type := mk_viable_set {
  m_num_bits : nat;
  lo : Z;
  hi : Z;
  emp : bool
}.

Definition with_bounds (s : viable_set) (l h : Z) : viable_set :=
  mk_viable_set (m_num_bits s) l h (emp s).
Definition with_lo (s : viable_set) (l : Z) : viable_set := with_bounds s l (hi s).
Definition with_hi (s : viable_set) (h : Z) : viable_set := with_bounds s (lo s) h.

(** [p2()] is [rational::power_of_two(m_num_bits)]. *)
Definition p2 (s : viable_set) : Z := 2 ^ Z.of_nat (m_num_bits s).

(** Modelled from the spec: the members of [mod_interval] that viable.cpp
    calls and that live in math/interval/mod_interval.h. The domain is "an
    interval over [0, 2^width) with optional wraparound (free = no exclusion,
    or lo..hi with hi==0 meaning wraps to the top of range)", with a separate
    emptiness flag. *)
Definition is_empty (s : viable_set) : bool := emp s.
Definition is_free (s : viable_set) : bool := negb (emp s) && (lo s =? hi s).
Definition set_empty (s : viable_set) : viable_set :=
  mk_viable_set (m_num_bits s) (lo s) (hi s) true.
Definition contains (s : viable_set) (n : Z) : bool :=
  if is_empty s then false
  else if is_free s then true
  else if lo s <? hi s then (lo s <=? n) && (n <? hi s)
  else (lo s <=? n) || (n <? hi s).

(** The domain a variable starts with: free. *)
Definition free (w : nat) : viable_set := mk_viable_set w 0 0 false.

(** [viable_set::is_max] *)
Definition is_max (s : viable_set) (a : Z) : bool := a + 1 =? p2 s.

(** [viable_set::is_singleton] *)
Definition is_singleton (s : viable_set) : bool :=
  negb (is_empty s) && ((lo s + 1 =? hi s) || ((hi s =? 0) && is_max s (lo s))).

(** [viable_set::intersect_eq(rational const& a, bool is_positive)]: the
    point [a] is kept alone, or removed. The last branch of the source only
    prints "unhandled diseq". *)
Definition intersect_eq_point (s : viable_set) (a : Z) (is_positive : bool) : viable_set :=
  if is_empty s then s
  else if is_positive then
    if negb (contains s a) then set_empty s
    else if is_max s a then with_bounds s a 0
    else with_bounds s a (a + 1)
  else
    if negb (contains s a) then s
    else if (a =? lo s) && (a + 1 =? hi s) then set_empty s
    else if (a =? lo s) && (hi s =? 0) && is_max s a then set_empty s
    else if (a =? lo s) && negb (is_max s a) then with_lo s (a + 1)
    else if a + 1 =? hi s then with_hi s a
    else if (hi s =? 0) && is_max s a then with_hi s a
    else s.

(** Modelled from the spec: [rational::mult_inverse(num_bits, result)] is in
    util/rational.h; for odd [a] it yields "a^-1 mod 2^width". Computed here
    by Hensel lifting: each round doubles the number of correct low bits. *)
Fixpoint hensel (rounds : nat) (a m x : Z) : Z :=
  match rounds with
  | O => x
  | S r => hensel r a m ((x * (2 - a * x)) mod m)
  end.
Definition mult_inverse (num_bits : nat) (a : Z) : option Z :=
  if Z.odd a then Some (hensel num_bits a (2 ^ Z.of_nat num_bits) 1 mod 2 ^ Z.of_nat num_bits)
  else None.

(** [viable_set::intersect_eq(a, b, is_positive)]: the closed form for an
    odd coefficient. [VERIFY] of a failed inverse cannot fire for odd [a]; the
    model keeps the set unchanged there. *)
Definition intersect_eq (s : viable_set) (a b : Z) (is_positive : bool) : bool * viable_set :=
  if Z.odd a then
    if b =? 0 then (true, intersect_eq_point s b is_positive)
    else
      match mult_inverse (m_num_bits s) a with
      | Some a_inv => (true, intersect_eq_point s ((a_inv * - b) mod p2 s) is_positive)
      | None => (true, s)
      end
  else (false, s).

(** [viable_set::set_hi]. The argument is passed by reference and [narrow]
    passes the member [hi] itself; every branch reads [d] before it writes
    [hi], so passing the value is the same. The last branch only prints. *)
Definition set_hi (s : viable_set) (d : Z) : viable_set :=
  if is_max s d then s
  else if is_free s then with_bounds s 0 (d + 1)
  else if lo s >? d then set_empty s
  else if negb (hi s =? 0) || (d + 1 <? hi s) then with_hi s (d + 1)
  else if d + 1 =? hi s then s
  else s.

(** [viable_set::set_lo], same remark on the reference argument. *)
Definition set_lo (s : viable_set) (b : Z) : viable_set :=
  if negb (hi s =? 0) && (hi s <=? b) then set_empty s
  else if is_free s then with_bounds s b 0
  else if lo s <? b then with_lo s b
  else if lo s =? b then s
  else s.

(** [viable_set::intersect_ule(a, b, c, d, is_positive)]: the three closed
    forms. *)
Definition intersect_ule (s : viable_set) (a b c d : Z) (is_positive : bool) : bool * viable_set :=
  if Z.odd a && (b =? 0) && (c =? 0) && (d =? 0) then
    (true, intersect_eq_point s b is_positive)
  else if (a =? 1) && (b =? 0) && (c =? 0) then
    if is_positive then (true, set_hi s d)
    else if is_max s d then (true, set_empty s)
    else (true, set_lo s (d + 1))
  else if (a =? 0) && (c =? 1) && (d =? 0) then
    if is_positive then (true, set_lo s b)
    else if b =? 0 then (true, set_empty s)
    else (true, set_hi s (b - 1))
  else (false, s).

(** [viable_set::narrow]: the two loops. Every iteration takes one unit of
    the budget, so both recurse on it. *)
Fixpoint narrow_lo (eval : Z -> bool) (budget : nat) (s : viable_set) : nat * viable_set :=
  match budget with
  | O => (O, s)
  | S budget' =>
      if negb (eval (lo s)) && negb (is_max s (lo s)) && negb (is_empty s) then
        let s1 := with_lo s (lo s + 1) in
        narrow_lo eval budget' (set_lo s1 (lo s1))
      else (budget, s)
  end.

Fixpoint narrow_hi (eval : Z -> bool) (budget : nat) (s : viable_set) : nat * viable_set :=
  match budget with
  | O => (O, s)
  | S budget' =>
      if (hi s >? 0) && negb (eval (hi s - 1)) && negb (is_empty s) then
        let s1 := with_hi s (hi s - 1) in
        narrow_hi eval budget' (set_hi s1 (hi s1))
      else (budget, s)
  end.

Definition narrow (eval : Z -> bool) (budget : nat) (s : viable_set) : nat * viable_set :=
  let '(budget1, s1) := narrow_lo eval budget s in
  narrow_hi eval budget1 s1.

(** The predicates of the two bounded searches. *)
Definition eval_eq (s : viable_set) (a b : Z) (is_positive : bool) (x : Z) : bool :=
  eqb is_positive ((a * x + b) mod p2 s =? 0).
Definition eval_ule (s : viable_set) (a b c d : Z) (is_positive : bool) (x : Z) : bool :=
  eqb is_positive ((a * x + b) mod p2 s <=? (c * x + d) mod p2 s).

(** [viable_set::intersect_eq(a, b, is_positive, budget)] *)
Definition intersect_eq_budget (s : viable_set) (a b : Z) (is_positive : bool) (budget : nat)
  : nat * viable_set :=
  narrow (eval_eq s a b is_positive) budget s.

(** [viable_set::intersect_ule(a, b, c, d, is_positive, budget)] *)
Definition intersect_ule_budget (s : viable_set) (a b c d : Z) (is_positive : bool) (budget : nat)
  : nat * viable_set :=
  narrow (eval_ule s a b c d is_positive) budget s.

(** [viable_set::find_hint] *)
Inductive find_t := find_empty | find_singleton | find_multiple.
Definition find_hint (s : viable_set) (d : Z) (val : Z) : find_t * Z :=
  if is_empty s then (find_empty, val)
  else
    let val' := if contains s d then d else lo s in
    if (lo s + 1 =? hi s) || ((hi s =? 0) && is_max s (lo s)) then (find_singleton, val')
    else (find_multiple, val').

End ViableSet.

(** ** Errors and the result type shared by both components *)

(** How a call can end without returning: [NOT_IMPLEMENTED_YET()] aborts
    the process, [throw default_exception("conflict not implemented")]
    unwinds, [SASSERT]/[UNREACHABLE] are assertion violations, and indexing a
    vector outside its size or taking [back()] of an empty one is undefined. *)
Inductive error : Type :=
  | not_implemented_yet
  | conflict_not_implemented
  | assertion_violation
  | out_of_range.

Inductive result (A : Type) : Type :=
  | Ok (a : A)
  | Err (e : error).
Arguments Ok {A} a.
Arguments Err {A} e.

Definition rbind {A B : Type} (r : result A) (k : A -> result B) : result B :=
  match r with
  | Ok a => k a
  | Err e => Err e
  end.

(** A call that threads a state and may fail. *)
Definition call (S A : Type) : Type := S -> result (A * S).
Definition ret {S A : Type} (a : A) : call S A := fun s => Ok (a, s).
Definition bind {S A B : Type} (c : call S A) (k : A -> call S B) : call S B :=
  fun s => match c s with
           | Ok (a, s') => k a s'
           | Err e => Err e
           end.
Definition fail {S A : Type} (e : error) : call S A := fun _ => Err e.
Definition modify {S : Type} (f : S -> S) : call S unit := fun s => Ok (tt, f s).

Declare Scope call_scope.
Delimit Scope call_scope with call.
Notation "x <- c ;; k" := (bind c (fun x => k))
  (at level 100, c at next level, right associativity) : call_scope.
Notation "c ;;; k" := (bind c (fun _ => k))
  (at level 100, right associativity) : call_scope.
Open Scope call_scope.

Inductive lbool : Type := l_false | l_undef | l_true.

Definition pvar := nat.
Definition var_t := Z.

(** [unsigned] arithmetic on counters. *)
Definition UINT_MOD : Z := 2 ^ 32.
Definition uint_incr (x : Z) : Z := (x + 1) mod UINT_MOD.
Definition uint_decr (x : Z) : Z := (x - 1) mod UINT_MOD.

(** ** The per-width feasibility engine, as an interface *)

(** The three instantiations [sz2fixplex] allocates. *)
Inductive fixplex_ext : Type :=
  | generic_uint_ext_unsigned
  | uint64_ext
  | generic_uint_ext_u256.

(** Modelled from the spec: [fixplex_base] and [fixplex<Ext>] are declared in
    math/polysat/fixplex.h. The linear solver consumes "add/delete row, set
    bounds, add inequality edge, restore-on-undo, and a feasibility check".
    [fp_store] is what the engine holds of bounds, rows and inequalities;
    [fp_make_feasible] may change the engine (the tableau), so it returns the
    engine too. *)
Class fixplex_base (F St : Type) : Type := {
  fp_alloc : fixplex_ext -> F;
  fp_add_row : var_t -> list var_t -> list Z -> F -> F;
  fp_del_row : var_t -> F -> F;
  fp_set_bounds : var_t -> Z -> Z -> F -> F;
  fp_set_value : var_t -> Z -> F -> F;
  fp_restore_bound : F -> F;
  fp_add_le : var_t -> var_t -> F -> F;
  fp_add_lt : var_t -> var_t -> F -> F;
  fp_restore_ineq : F -> F;
  fp_make_feasible : F -> lbool * F;
  fp_store : F -> St
}.

(** Modelled from the spec: the undo contract, "restore_bound/restore_ineq
    (undo counterparts, called in exact LIFO order matching the trail)" where
    "each subsystem's restore operation assumes its own immediately-preceding
    mutation is being undone". Every operation acts on the store, an undo
    right after its mutation gives the store back, and a feasibility check
    leaves the store alone. [set_value] is logged by the solver as
    [set_bound_i], so it is [restore_bound] that answers it. *)
Class fixplex_lifo {F St : Type} (E : fixplex_base F St) : Prop := {
  add_row_store : forall v vs cs e e',
    fp_store e = fp_store e' -> fp_store (fp_add_row v vs cs e) = fp_store (fp_add_row v vs cs e');
  del_row_store : forall v e e',
    fp_store e = fp_store e' -> fp_store (fp_del_row v e) = fp_store (fp_del_row v e');
  set_bounds_store : forall v l h e e',
    fp_store e = fp_store e' -> fp_store (fp_set_bounds v l h e) = fp_store (fp_set_bounds v l h e');
  set_value_store : forall v x e e',
    fp_store e = fp_store e' -> fp_store (fp_set_value v x e) = fp_store (fp_set_value v x e');
  restore_bound_store : forall e e',
    fp_store e = fp_store e' -> fp_store (fp_restore_bound e) = fp_store (fp_restore_bound e');
  add_le_store : forall v w e e',
    fp_store e = fp_store e' -> fp_store (fp_add_le v w e) = fp_store (fp_add_le v w e');
  add_lt_store : forall v w e e',
    fp_store e = fp_store e' -> fp_store (fp_add_lt v w e) = fp_store (fp_add_lt v w e');
  restore_ineq_store : forall e e',
    fp_store e = fp_store e' -> fp_store (fp_restore_ineq e) = fp_store (fp_restore_ineq e');
  del_row_add_row : forall v vs cs e,
    fp_store (fp_del_row v (fp_add_row v vs cs e)) = fp_store e;
  restore_bound_set_bounds : forall v l h e,
    fp_store (fp_restore_bound (fp_set_bounds v l h e)) = fp_store e;
  restore_bound_set_value : forall v x e,
    fp_store (fp_restore_bound (fp_set_value v x e)) = fp_store e;
  restore_ineq_add_le : forall v w e,
    fp_store (fp_restore_ineq (fp_add_le v w e)) = fp_store e;
  restore_ineq_add_lt : forall v w e,
    fp_store (fp_restore_ineq (fp_add_lt v w e)) = fp_store e;
  make_feasible_store : forall e,
    fp_store (snd (fp_make_feasible e)) = fp_store e
}.

(** ** Constraints and polynomials, as the linear solver reads them *)

(** Modelled from the spec: a [pdd] is consumed as "an opaque ordered
    sequence of (coefficient, monomial-of-problem-variables) pairs" with a
    fixed bit width; a value is the polynomial with no variable. *)
Record pdd : Type := mk_pdd {
  power_of_2 : nat;
  monomials_of : list (Z * list pvar)
}.
Definition is_val (p : pdd) : bool :=
  match monomials_of p with
  | [] => true
  | [(_, [])] => true
  | _ => false
  end.
Definition val (p : pdd) : Z :=
  match monomials_of p with
  | [(c, [])] => c
  | _ => 0
  end.

Record eq_constraint : Type := mk_eq {
  eq_bvar : nat;
  eq_p : pdd;
  eq_sign : lbool
}.
Record ule_constraint : Type := mk_ule {
  ule_bvar : nat;
  ule_lhs : pdd;
  ule_rhs : pdd;
  ule_sign : lbool
}.
Inductive constraint : Type :=
  | eq_t (c : eq_constraint)
  | ule_t (c : ule_constraint).

Definition sign_positive (s : lbool) : bool :=
  match s with l_true => true | _ => false end.
Definition sign_undef (s : lbool) : bool :=
  match s with l_undef => true | _ => false end.

(** ** The linear solver *)

Module LinearSolver.

Inductive trail_i : Type :=
  | inc_level_i
  | add_var_i
  | add_mono_i
  | set_bound_i
  | add_row_i
  | add_ineq_i.

(** A monomial key: bit width and the sequence of problem variables. *)
Definition mono_key : Type := nat * list pvar.

(** The members of [linear_solver]. Vectors used as stacks ([m_trail],
    [m_rows], [m_monomials]) are lists whose head is [back()]; vectors
    indexed by a width or a boolean variable ([m_sz2num_vars], [m_fix],
    [m_bool_var2row]) are lists in index order. The allocator [m_alloc] only
    owns the copied key sequences, which the keys here hold by value. *)
Record linear_solver (F : Type) : Type := mk_linear_solver {
  m_trail : list trail_i;
  m_rows : list (var_t * nat);
  m_sz2num_vars : list Z;
  m_mono2var : gmap mono_key var_t;
  m_monomials : list (mono_key * var_t);
  m_fix : list (option F);
  m_bool_var2row : list (var_t * var_t);
  m_vars : list var_t;
  m_coeffs : list Z
}.
Arguments mk_linear_solver {F}.
Arguments m_trail {F}.
Arguments m_rows {F}.
Arguments m_sz2num_vars {F}.
Arguments m_mono2var {F}.
Arguments m_monomials {F}.
Arguments m_fix {F}.
Arguments m_bool_var2row {F}.
Arguments m_vars {F}.
Arguments m_coeffs {F}.

Section Solver.
Context {F St : Type} {E : fixplex_base F St}.

(** [s.size(v)], the bit width the surrounding solver gives a variable. *)
Variable size : pvar -> nat.

Abbreviation state := (linear_solver F).

Definition set_trail (t : list trail_i) (s : state) : state :=
  mk_linear_solver t (m_rows s) (m_sz2num_vars s) (m_mono2var s) (m_monomials s)
    (m_fix s) (m_bool_var2row s) (m_vars s) (m_coeffs s).
Definition set_rows (r : list (var_t * nat)) (s : state) : state :=
  mk_linear_solver (m_trail s) r (m_sz2num_vars s) (m_mono2var s) (m_monomials s)
    (m_fix s) (m_bool_var2row s) (m_vars s) (m_coeffs s).
Definition set_sz2num_vars (c : list Z) (s : state) : state :=
  mk_linear_solver (m_trail s) (m_rows s) c (m_mono2var s) (m_monomials s)
    (m_fix s) (m_bool_var2row s) (m_vars s) (m_coeffs s).
Definition set_mono (t : gmap mono_key var_t) (l : list (mono_key * var_t)) (s : state) : state :=
  mk_linear_solver (m_trail s) (m_rows s) (m_sz2num_vars s) t l
    (m_fix s) (m_bool_var2row s) (m_vars s) (m_coeffs s).
Definition set_fix (f : list (option F)) (s : state) : state :=
  mk_linear_solver (m_trail s) (m_rows s) (m_sz2num_vars s) (m_mono2var s) (m_monomials s)
    f (m_bool_var2row s) (m_vars s) (m_coeffs s).
Definition set_bool_var2row (b : list (var_t * var_t)) (s : state) : state :=
  mk_linear_solver (m_trail s) (m_rows s) (m_sz2num_vars s) (m_mono2var s) (m_monomials s)
    (m_fix s) b (m_vars s) (m_coeffs s).
Definition set_scratch (vs : list var_t) (cs : list Z) (s : state) : state :=
  mk_linear_solver (m_trail s) (m_rows s) (m_sz2num_vars s) (m_mono2var s) (m_monomials s)
    (m_fix s) (m_bool_var2row s) vs cs.

(** The solver as it is constructed. *)
Definition init : state :=
  mk_linear_solver [] [] [] ∅ [] [] [] [] [].

(** Calls thread the solver and may fail. *)
Abbreviation M := (call state).

(** Vector helpers: [reserve] (grow with a default) and [get] with a
    default, as util/vector.h has them. *)
Definition reserve {A : Type} (n : nat) (d : A) (l : list A) : list A :=
  l ++ replicate (n - length l) d.
Definition fix_get (s : state) (sz : nat) : option F := mjoin (m_fix s !! sz).
Definition fix_set (sz : nat) (b : F) (s : state) : state :=
  set_fix (<[sz := Some b]> (reserve (S sz) None (m_fix s))) s.

Definition push_trail (e : trail_i) : M unit :=
  modify (fun s => set_trail (e :: m_trail s) s).
Definition push_row (v : var_t) (sz : nat) : M unit :=
  modify (fun s => set_rows ((v, sz) :: m_rows s) s).

(** [linear_solver::push] *)
Definition push (s : state) : state := set_trail (inc_level_i :: m_trail s) s.

(** The width of an instantiation, as the [switch] of [sz2fixplex]. *)
Definition ext_of (sz : nat) : option fixplex_ext :=
  if decide (sz = 32%nat) then Some generic_uint_ext_unsigned
  else if decide (sz = 64%nat) then Some uint64_ext
  else if decide (sz = 128%nat) then None
  else if decide (sz = 256%nat) then Some generic_uint_ext_u256
  else None.

(** [linear_solver::sz2fixplex]: the engine of a width, constructed on
    first use. [NOT_IMPLEMENTED_YET()] does not return. *)
Definition sz2fixplex (sz : nat) : M F := fun s =>
  match fix_get s sz with
  | Some b => Ok (b, s)
  | None =>
      match ext_of sz with
      | Some k => let b := fp_alloc k in Ok (b, fix_set sz b s)
      | None => Err not_implemented_yet
      end
  end.

(** A call [fp.op(...)] through the reference [sz2fixplex] returned. *)
Definition fp_call (sz : nat) (f : F -> F) : M unit := fun s =>
  match fix_get s sz with
  | Some b => Ok (tt, set_fix (<[sz := Some (f b)]> (m_fix s)) s)
  | None => Err out_of_range
  end.

(** One round of the loop of [linear_solver::pop], without the final
    [m_trail.pop_back()]. *)
Definition back_row : M (var_t * nat) := fun s =>
  match m_rows s with
  | r :: _ => Ok (r, s)
  | [] => Err out_of_range
  end.
Definition pop_row : M unit := modify (fun s => set_rows (tail (m_rows s)) s).

Definition undo (e : trail_i) : M unit :=
  match e with
  | inc_level_i => ret tt
  | add_var_i =>
      r <- back_row ;;
      (fun s => match m_sz2num_vars s !! snd r with
                | Some c => Ok (tt, set_sz2num_vars (<[snd r := uint_decr c]> (m_sz2num_vars s)) s)
                | None => Err out_of_range
                end) ;;;
      pop_row
  | add_mono_i =>
      fun s => match m_monomials s with
               | m :: ms => Ok (tt, set_mono (delete (fst m) (m_mono2var s)) ms s)
               | [] => Err out_of_range
               end
  | set_bound_i =>
      r <- back_row ;;
      sz2fixplex (snd r) ;;;
      fp_call (snd r) fp_restore_bound ;;;
      pop_row
  | add_row_i =>
      r <- back_row ;;
      sz2fixplex (snd r) ;;;
      fp_call (snd r) (fp_del_row (fst r)) ;;;
      pop_row
  | add_ineq_i =>
      r <- back_row ;;
      sz2fixplex (snd r) ;;;
      fp_call (snd r) fp_restore_ineq ;;;
      pop_row
  end.

(** [linear_solver::pop]: the loop runs down the trail, which is passed
    apart and written back when [n] reaches zero. *)
Fixpoint pop_loop (trail : list trail_i) (n : nat) (s : state) : result state :=
  match n with
  | O => Ok (set_trail trail s)
  | S n' =>
      match trail with
      | [] => Err out_of_range
      | e :: trail' =>
          match undo e s with
          | Ok (_, s') =>
              pop_loop trail' (match e with inc_level_i => n' | _ => n end) s'
          | Err err => Err err
          end
      end
  end.
Definition pop (n : nat) (s : state) : result state := pop_loop (m_trail s) n s.

(** [linear_solver::fresh_var] *)
Definition fresh_var (sz : nat) : M var_t :=
  modify (fun s => set_sz2num_vars (reserve (S sz) 0 (m_sz2num_vars s)) s) ;;;
  push_trail add_var_i ;;;
  push_row 0 sz ;;;
  fun s => match m_sz2num_vars s !! sz with
           | Some c => Ok (c, set_sz2num_vars (<[sz := uint_incr c]> (m_sz2num_vars s)) s)
           | None => Err out_of_range
           end.

(** [linear_solver::mono2var] *)
Definition mono2var (sz : nat) (var : list pvar) : M var_t := fun s =>
  match m_mono2var s !! (sz, var) with
  | Some v => Ok (v, s)
  | None =>
      (v <- fresh_var sz ;;
       modify (fun s => set_mono (<[(sz, var) := v]> (m_mono2var s))
                                 (((sz, var), v) :: m_monomials s) s) ;;;
       push_trail add_mono_i ;;;
       ret v) s
  end.

(** [linear_solver::pvar2var] *)
Definition pvar2var (sz : nat) (v : pvar) : M var_t := mono2var sz [v].

(** [linear_solver::linearize]; [m_vars] and [m_coeffs] grow at the back. *)
Fixpoint linearize_loop (sz : nat) (ms : list (Z * list pvar)) : M unit :=
  match ms with
  | [] => ret tt
  | m :: ms' =>
      v <- mono2var sz (snd m) ;;
      modify (fun s => set_scratch (m_vars s ++ [v]) (m_coeffs s ++ [fst m]) s) ;;;
      linearize_loop sz ms'
  end.
Definition linearize (p : pdd) : M unit :=
  modify (set_scratch [] []) ;;;
  linearize_loop (power_of_2 p) (monomials_of p).

(** [linear_solver::internalize_pdd] *)
Definition internalize_pdd (p : pdd) : M var_t :=
  let sz := power_of_2 p in
  linearize p ;;;
  fun s =>
    match m_vars s, last (m_coeffs s), last (m_vars s) with
    | [_], Some 1, Some v => Ok (v, s)
    | _, _, _ =>
        (v <- fresh_var sz ;;
         modify (fun s => set_scratch (m_vars s ++ [v]) (m_coeffs s ++ [2 ^ Z.of_nat sz - 1]) s) ;;;
         sz2fixplex sz ;;;
         (fun s => fp_call sz (fp_add_row v (m_vars s) (m_coeffs s)) s) ;;;
         push_row v sz ;;;
         push_trail add_row_i ;;;
         ret v) s
    end.

(** [setx] of util/vector.h: grow with the default, then store. *)
Definition setx {A : Type} (i : nat) (x d : A) (l : list A) : list A :=
  <[i := x]> (reserve (S i) d l).

(** [linear_solver::new_eq] *)
Definition new_eq (c : eq_constraint) : M unit :=
  v <- internalize_pdd (eq_p c) ;;
  modify (fun s => set_bool_var2row (setx (eq_bvar c) (v, v) (v, v) (m_bool_var2row s)) s).

Definition bool_var2row (b : nat) : M (var_t * var_t) := fun s =>
  match m_bool_var2row s !! b with
  | Some pr => Ok (pr, s)
  | None => Err out_of_range
  end.

(** [linear_solver::assert_eq] *)
Definition assert_eq (c : eq_constraint) : M unit :=
  pr <- bool_var2row (eq_bvar c) ;;
  let v := fst pr in
  let sz := power_of_2 (eq_p c) in
  sz2fixplex sz ;;;
  push_trail set_bound_i ;;;
  push_row v sz ;;;
  (if sign_undef (eq_sign c) then fail assertion_violation else ret tt) ;;;
  if sign_positive (eq_sign c) then fp_call sz (fp_set_bounds v 0 0)
  else fp_call sz (fp_set_bounds v 1 0).

(** [linear_solver::new_le] *)
Definition new_le (c : ule_constraint) : M unit :=
  v <- internalize_pdd (ule_lhs c) ;;
  w <- internalize_pdd (ule_rhs c) ;;
  modify (fun s => set_bool_var2row (setx (ule_bvar c) (v, w) (v, w) (m_bool_var2row s)) s).

(** [linear_solver::assert_le]; [is_max_value] is the local the source
    initialises to [false] and never assigns. *)
Definition assert_le (c : ule_constraint) : M unit :=
  pr <- bool_var2row (ule_bvar c) ;;
  let v := fst pr in
  let w := snd pr in
  let sz := power_of_2 (ule_lhs c) in
  sz2fixplex sz ;;;
  if is_val (ule_rhs c) then
    let is_max_value := false in
    (if sign_positive (ule_sign c) then fp_call sz (fp_set_bounds v 0 (val (ule_rhs c)))
     else if is_max_value then fail conflict_not_implemented
     else fp_call sz (fp_set_bounds v (val (ule_rhs c) + 1) 0)) ;;;
    push_trail set_bound_i ;;;
    push_row v sz
  else if is_val (ule_lhs c) then
    (if sign_positive (ule_sign c) then fp_call sz (fp_set_bounds w (val (ule_lhs c)) 0)
     else if val (ule_lhs c) =? 0 then fail conflict_not_implemented
     else fp_call sz (fp_set_bounds w 0 (val (ule_lhs c) - 1))) ;;;
    push_trail set_bound_i ;;;
    push_row w sz
  else
    (if sign_positive (ule_sign c) then fp_call sz (fp_add_le v w)
     else fp_call sz (fp_add_lt w v)) ;;;
    push_trail add_ineq_i ;;;
    push_row v sz.

Definition constraint_sign (c : constraint) : lbool :=
  match c with
  | eq_t c => eq_sign c
  | ule_t c => ule_sign c
  end.

(** [linear_solver::new_constraint] *)
Definition new_constraint (c : constraint) : M unit :=
  match c with
  | eq_t c => new_eq c
  | ule_t c => new_le c
  end.

(** [linear_solver::activate_constraint] *)
Definition activate_constraint (c : constraint) : M unit :=
  (if sign_undef (constraint_sign c) then fail assertion_violation else ret tt) ;;;
  match c with
  | eq_t c => assert_eq c
  | ule_t c => assert_le c
  end.

(** [linear_solver::set_value] *)
Definition set_value (v : pvar) (value : Z) : M unit :=
  let sz := size v in
  sz2fixplex sz ;;;
  w <- pvar2var sz v ;;
  push_trail set_bound_i ;;;
  push_row w sz ;;;
  fp_call sz (fp_set_value w value).

(** [linear_solver::set_bound] *)
Definition set_bound (v : pvar) (lo hi : Z) : M unit :=
  let sz := size v in
  sz2fixplex sz ;;;
  w <- pvar2var sz v ;;
  push_trail set_bound_i ;;;
  push_row w sz ;;;
  fp_call sz (fp_set_bounds w lo hi).

(** [linear_solver::check]: the loop over [m_fix], in index order; an
    engine that was asked is stored back as [make_feasible] left it. [seen]
    holds the entries already passed. *)
Fixpoint check_loop (seen todo : list (option F)) (res : lbool) : lbool * list (option F) :=
  match todo with
  | [] => (res, seen)
  | None :: todo' => check_loop (seen ++ [None]) todo' res
  | Some f :: todo' =>
      let '(r, f') := fp_make_feasible f in
      match r with
      | l_false => (l_false, seen ++ Some f' :: todo')
      | l_undef => check_loop (seen ++ [Some f']) todo' l_undef
      | l_true => check_loop (seen ++ [Some f']) todo' res
      end
  end.
Definition check : M lbool := fun s =>
  let '(r, fx) := check_loop [] (m_fix s) l_true in
  Ok (r, set_fix fx s).

(** [linear_solver::value] *)
Definition value (v : pvar) : Z := 0.

(** [linear_solver::unsat_core] *)
Definition unsat_core : M unit := fail not_implemented_yet.

End Solver.
End LinearSolver.

(** ** The viable-domain tracker *)

Module Viable.
Import ViableSet.

(** Modelled from the spec: the solver's trail (solver.h, trail.h) holds
    "level-marker" entries and, for each domain mutation, a [viable_i] entry;
    entries of the other subsystems do not reach this file. *)
Inductive trail_instr_t : Type :=
  | inc_level_i
  | viable_i.

(** A decision diagram over the bits of one variable is consumed as the
    set of values it accepts. *)
Definition bdd : Type := Z -> bool.

(** The key of an [ineq_entry]: width and the four coefficients. *)
Definition ineq_key : Type := nat * Z * Z * Z * Z.

(** The members of [viable] the NEW_VIABLE code touches, with the two
    members of the solver it writes: the trail and the conflict
    ([s.set_conflict(v)], newest first). A cache entry holds [repr] and
    [m_activity]. *)
Record viable : Type := mk_viable {
  m_viable : list viable_set;
  m_viable_trail : list (pvar * viable_set);
  s_trail : list trail_instr_t;
  m_ineq_cache : gmap ineq_key (bdd * nat);
  s_conflict : list pvar
}.

Section Tracker.

(** [s.size(v)] *)
Variable size : pvar -> nat.

(** [dd::fdd::sup] of math/dd/dd_fdd.h, an external capability:
    [fdd_sup sz b lo] is [Some bound] when the call returns true and leaves
    [bound] in its argument. The call of [inf] that follows in the source
    only prints. *)
Variable fdd_sup : nat -> bdd -> Z -> option Z.

(** [viable_set::set_ne] is declared in viable.h and its body is not in
    viable.cpp: the tracker takes it as it takes [sup], and the statements
    that depend on what it does assume [Domain.ne_sound]. *)
Variable set_ne : viable_set -> Z -> viable_set.

Definition set_viable (v : pvar) (d : viable_set) (s : viable) : viable :=
  mk_viable (<[v := d]> (m_viable s)) (m_viable_trail s) (s_trail s)
    (m_ineq_cache s) (s_conflict s).
Definition set_conflict (v : pvar) (s : viable) : viable :=
  mk_viable (m_viable s) (m_viable_trail s) (s_trail s)
    (m_ineq_cache s) (v :: s_conflict s).
Definition set_cache (c : gmap ineq_key (bdd * nat)) (s : viable) : viable :=
  mk_viable (m_viable s) (m_viable_trail s) (s_trail s) c (s_conflict s).

(** [viable::push_viable] *)
Definition push_viable (v : pvar) (s : viable) : result viable :=
  match m_viable s !! v with
  | Some d =>
      Ok (mk_viable (m_viable s) ((v, d) :: m_viable_trail s) (viable_i :: s_trail s)
            (m_ineq_cache s) (s_conflict s))
  | None => Err out_of_range
  end.

(** [viable::pop_viable] *)
Definition pop_viable (s : viable) : result viable :=
  match m_viable_trail s with
  | p :: rest =>
      if decide (fst p < length (m_viable s))%nat then
        Ok (mk_viable (<[fst p := snd p]> (m_viable s)) rest (s_trail s)
              (m_ineq_cache s) (s_conflict s))
      else Err out_of_range
  | [] => Err out_of_range
  end.

(** The test that ends every mutator:
    [if (m_viable[v].is_empty()) s.set_conflict(v)]. *)
Definition conflict_if_empty (v : pvar) (s : viable) : result viable :=
  match m_viable s !! v with
  | Some d => Ok (if is_empty d then set_conflict v s else s)
  | None => Err out_of_range
  end.

(** [viable::intersect_eq], NEW_VIABLE branch. When the budget reaches
    zero the source prints "budget used" and goes on. *)
Definition intersect_eq (a : Z) (v : pvar) (b : Z) (is_positive : bool) (s : viable)
  : result viable :=
  rbind (push_viable v s) (fun s =>
  match m_viable s !! v with
  | None => Err out_of_range
  | Some d =>
      let '(ok, d1) := ViableSet.intersect_eq d a b is_positive in
      let s1 := set_viable v d1 s in
      let s2 :=
        if ok then s1
        else
          let '(budget, d2) := intersect_eq_budget d1 a b is_positive 10 in
          set_viable v d2 s1 in
      conflict_if_empty v s2
  end).

(** The diagram of [a*x + b <= c*x + d] at width [sz]. *)
Definition ule_bdd (sz : nat) (a b c d : Z) : bdd :=
  fun x => (a * x + b) mod 2 ^ Z.of_nat sz <=? (c * x + d) mod 2 ^ Z.of_nat sz.

(** The cache lookup of [viable::intersect_ule]: find or insert, then
    [m_activity++]; gives the [repr] of the entry. *)
Definition cache_lookup (k : ineq_key) (le : bdd) (s : viable) : bdd * viable :=
  let '(repr, act) := default (le, O) (m_ineq_cache s !! k) in
  (repr, set_cache (<[k := (repr, S act)]> (m_ineq_cache s)) s).

(** [viable::intersect_ule], NEW_VIABLE branch. *)
Definition intersect_ule (v : pvar) (a b c d : Z) (is_positive : bool) (s : viable)
  : result viable :=
  rbind (push_viable v s) (fun s =>
  match m_viable s !! v with
  | None => Err out_of_range
  | Some d0 =>
      let '(ok, d1) := ViableSet.intersect_ule d0 a b c d is_positive in
      let s1 := set_viable v d1 s in
      let s2 :=
        if ok then s1
        else
          let '(budget, d2) := intersect_ule_budget d1 a b c d is_positive 10 in
          let s2 := set_viable v d2 s1 in
          match budget with
          | O =>
              let sz := size v in
              let '(repr, s3) := cache_lookup (sz, a, b, c, d) (ule_bdd sz a b c d) s2 in
              let gt : bdd := if is_positive then (fun x => negb (repr x)) else repr in
              match fdd_sup sz gt (lo d2) with
              | Some bound => set_viable v (set_ne (set_lo d2 bound) bound) s3
              | None => s3
              end
          | S _ => s2
          end in
      conflict_if_empty v s2
  end).

(** [viable::add_non_viable], NEW_VIABLE branch. *)
Definition add_non_viable (v : pvar) (val : Z) (s : viable) : result viable :=
  rbind (push_viable v s) (fun s =>
  match m_viable s !! v with
  | None => Err out_of_range
  | Some d => conflict_if_empty v (set_viable v (set_ne d val) s)
  end).

(** [viable::has_viable], [viable::is_viable] *)
Definition has_viable (v : pvar) (s : viable) : result bool :=
  match m_viable s !! v with
  | Some d => Ok (negb (is_empty d))
  | None => Err out_of_range
  end.
Definition is_viable (v : pvar) (val : Z) (s : viable) : result bool :=
  match m_viable s !! v with
  | Some d => Ok (contains d val)
  | None => Err out_of_range
  end.

(** Modelled from the spec: the solver's [push()] and [pop(n)] are in
    solver.cpp. "mark() appends a level marker; undo(n) pops entries until n
    markers have been consumed, dispatching each non-marker entry to its
    owning subsystem's specific undo action", which for a [viable_i] entry is
    [pop_viable]. *)
Definition push (s : viable) : viable :=
  mk_viable (m_viable s) (m_viable_trail s) (inc_level_i :: s_trail s)
    (m_ineq_cache s) (s_conflict s).

Definition with_s_trail (t : list trail_instr_t) (s : viable) : viable :=
  mk_viable (m_viable s) (m_viable_trail s) t (m_ineq_cache s) (s_conflict s).

Fixpoint pop_loop (trail : list trail_instr_t) (n : nat) (s : viable) : result viable :=
  match n with
  | O => Ok (with_s_trail trail s)
  | S n' =>
      match trail with
      | [] => Err out_of_range
      | inc_level_i :: trail' => pop_loop trail' n' s
      | viable_i :: trail' => rbind (pop_viable s) (pop_loop trail' n)
      end
  end.
Definition pop (n : nat) (s : viable) : result viable := pop_loop (s_trail s) n s.

End Tracker.
End Viable.

(** ** The two components under one trail bracket *)

Module System.
Import LinearSolver.

(** The calls a client makes between [push()] and [pop(n)]. *)
Inductive op : Type :=
  | do_fresh_var (sz : nat)
  | do_mono2var (sz : nat) (var : list pvar)
  | do_pvar2var (sz : nat) (v : pvar)
  | do_new_constraint (c : constraint)
  | do_activate_constraint (c : constraint)
  | do_set_value (v : pvar) (value : Z)
  | do_set_bound (v : pvar) (lo hi : Z)
  | do_check
  | do_intersect_eq (a : Z) (v : pvar) (b : Z) (is_positive : bool)
  | do_intersect_ule (v : pvar) (a b c d : Z) (is_positive : bool)
  | do_add_non_viable (v : pvar) (val : Z).

Inductive cmd : Type :=
  | c_push
  | c_pop (n : nat)
  | c_op (o : op).

Section Sys.
Context {F St : Type} {E : fixplex_base F St}.
Variable size : pvar -> nat.
Variable fdd_sup : nat -> Viable.bdd -> Z -> option Z.
Variable set_ne : ViableSet.viable_set -> Z -> ViableSet.viable_set.

Definition system : Type := linear_solver F * Viable.viable.

Definition lift_ls {A : Type} (c : call (linear_solver F) A) (s : system) : result system :=
  match c (fst s) with
  | Ok (_, l) => Ok (l, snd s)
  | Err e => Err e
  end.
Definition lift_vi (c : Viable.viable -> result Viable.viable) (s : system) : result system :=
  match c (snd s) with
  | Ok v => Ok (fst s, v)
  | Err e => Err e
  end.

Definition run_op (o : op) : system -> result system :=
  match o with
  | do_fresh_var sz => lift_ls (fresh_var sz)
  | do_mono2var sz var => lift_ls (mono2var sz var)
  | do_pvar2var sz v => lift_ls (pvar2var sz v)
  | do_new_constraint c => lift_ls (new_constraint c)
  | do_activate_constraint c => lift_ls (activate_constraint c)
  | do_set_value v x => lift_ls (set_value size v x)
  | do_set_bound v l h => lift_ls (set_bound size v l h)
  | do_check => lift_ls check
  | do_intersect_eq a v b pol => lift_vi (Viable.intersect_eq a v b pol)
  | do_intersect_ule v a b c d pol =>
      lift_vi (Viable.intersect_ule size fdd_sup set_ne v a b c d pol)
  | do_add_non_viable v x => lift_vi (Viable.add_non_viable set_ne v x)
  end.

(** Modelled from the spec: [push()] / [pop(n)] of the surrounding solver,
    the "trail bracket control", mark and undo both trails. *)
Definition push (s : system) : system := (LinearSolver.push (fst s), Viable.push (snd s)).
Definition pop (n : nat) (s : system) : result system :=
  rbind (LinearSolver.pop n (fst s)) (fun l =>
  rbind (Viable.pop n (snd s)) (fun v => Ok (l, v))).

Definition run_cmd (c : cmd) (s : system) : result system :=
  match c with
  | c_push => Ok (push s)
  | c_pop n => pop n s
  | c_op o => run_op o s
  end.

Fixpoint run (cs : list cmd) (s : system) : result system :=
  match cs with
  | [] => Ok s
  | c :: cs' => rbind (run_cmd c s) (run cs')
  end.

(** The number of levels open after [cs], started with [d] open levels;
    [None] when a [pop] takes more levels than are open. *)
Fixpoint depth (cs : list cmd) (d : nat) : option nat :=
  match cs with
  | [] => Some d
  | c_push :: cs' => depth cs' (S d)
  | c_pop n :: cs' => if decide (n <= d)%nat then depth cs' (d - n)%nat else None
  | c_op _ :: cs' => depth cs' d
  end.

(** What can be asked of the linear solver: the counter of a width (none
    allocated reads as zero) and what the engine of a width holds (an engine
    not yet constructed holds what a new one does). *)
Definition num_vars (s : linear_solver F) (sz : nat) : Z :=
  default 0 (m_sz2num_vars s !! sz).
Definition engine_store (s : linear_solver F) (sz : nat) : option St :=
  match fix_get s sz with
  | Some e => Some (fp_store e)
  | None => (fun k => fp_store (fp_alloc k)) <$> ext_of sz
  end.

(** Counters are [unsigned]. *)
Definition counters_in_range (s : linear_solver F) : Prop :=
  Forall (fun c => 0 <= c < UINT_MOD) (m_sz2num_vars s).

(** [agrees s t]: [t] is [s] up to what no undo gives back, namely zero
    counters of widths [s] has no slot for, engines constructed and still
    new, the table of boolean variables and the scratch vectors. The trail
    is compared apart. *)
Definition counter_covers (a b : option Z) : Prop :=
  a = b \/ (a = None /\ b = Some 0).
Definition engine_covers (sz : nat) (a b : option F) : Prop :=
  match a, b with
  | Some e, Some e' => fp_store e = fp_store e'
  | None, None => True
  | None, Some e' => exists k, ext_of sz = Some k /\ fp_store e' = fp_store (fp_alloc k)
  | Some _, None => False
  end.
Record agrees (s t : linear_solver F) : Prop := mk_agrees {
  agrees_rows : m_rows s = m_rows t;
  agrees_mono2var : m_mono2var s = m_mono2var t;
  agrees_monomials : m_monomials s = m_monomials t;
  agrees_counters : forall sz, counter_covers (m_sz2num_vars s !! sz) (m_sz2num_vars t !! sz);
  agrees_engines : forall sz, engine_covers sz (fix_get s sz) (fix_get t sz)
}.
Definition covers (s t : linear_solver F) : Prop :=
  m_trail s = m_trail t /\ agrees s t.

(** [pops_like s t]: whatever popping at least one level gives from [s], it
    gives from [t]. *)
Definition pops_like (s t : linear_solver F) : Prop :=
  forall n r, LinearSolver.pop (S n) s = Ok r ->
    exists r', LinearSolver.pop (S n) t = Ok r' /\ covers r r'.

(** The same for the tracker: the inequality cache and the conflict are
    not under the trail. *)
Definition vi_agrees (s t : Viable.viable) : Prop :=
  Viable.m_viable s = Viable.m_viable t /\
  Viable.m_viable_trail s = Viable.m_viable_trail t.
Definition vi_covers (s t : Viable.viable) : Prop :=
  Viable.s_trail s = Viable.s_trail t /\ vi_agrees s t.
Definition vi_pops_like (s t : Viable.viable) : Prop :=
  forall n r, Viable.pop (S n) s = Ok r ->
    exists r', Viable.pop (S n) t = Ok r' /\ vi_covers r r'.

(** A mutator of the tracker is [push_viable v] followed by writes to the
    domain of [v], to the cache and to the conflict. *)
Definition writes_after_push (v : pvar) (s s' : Viable.viable) : Prop :=
  exists d l,
    Viable.m_viable s !! v = Some d /\
    Viable.m_viable s' = <[v := l]> (Viable.m_viable s) /\
    Viable.m_viable_trail s' = (v, d) :: Viable.m_viable_trail s /\
    Viable.s_trail s' = Viable.viable_i :: Viable.s_trail s.

(** The bracket invariant: [d + 1] levels down from [s] lies [s0], up to
    [covers]. *)
Definition sys_covers (s t : system) : Prop :=
  covers (fst s) (fst t) /\ vi_covers (snd s) (snd t).
Definition bracket (s0 : system) (d : nat) (s : system) : Prop :=
  counters_in_range (fst s) /\
  exists t, pop (S d) s = Ok t /\ sys_covers s0 t.

End Sys.
End System.

(** ** A recording engine *)

(** An engine that satisfies [fixplex_lifo]: it records what it is told,
    on stacks, and answers [make_feasible] from a fixed verdict function. It
    gives the parametric statements an instance to run on. *)
Module RecordingEngine.

Inductive bound_entry : Type :=
  | bounds_set (v : var_t) (lo hi : Z)
  | value_set (v : var_t) (x : Z).
Inductive ineq_entry : Type :=
  | le_edge (v w : var_t)
  | lt_edge (v w : var_t).

Definition store : Type :=
  fixplex_ext * list (var_t * list var_t * list Z) * list bound_entry * list ineq_entry.

Record engine : Type := mk_engine {
  held : store;
  checks : nat
}.

Definition on_store (f : store -> store) (e : engine) : engine :=
  mk_engine (f (held e)) (checks e).

Fixpoint remove_row (v : var_t) (rows : list (var_t * list var_t * list Z))
  : list (var_t * list var_t * list Z) :=
  match rows with
  | [] => []
  | r :: rows' => if fst (fst r) =? v then rows' else r :: remove_row v rows'
  end.

#[export] Instance recording (verdict : store -> lbool) : fixplex_base engine store := {|
  fp_alloc k := mk_engine (k, [], [], []) O;
  fp_add_row v vs cs := on_store (fun '(k, rows, bs, es) => (k, (v, vs, cs) :: rows, bs, es));
  fp_del_row v := on_store (fun '(k, rows, bs, es) => (k, remove_row v rows, bs, es));
  fp_set_bounds v l h := on_store (fun '(k, rows, bs, es) => (k, rows, bounds_set v l h :: bs, es));
  fp_set_value v x := on_store (fun '(k, rows, bs, es) => (k, rows, value_set v x :: bs, es));
  fp_restore_bound := on_store (fun '(k, rows, bs, es) => (k, rows, tail bs, es));
  fp_add_le v w := on_store (fun '(k, rows, bs, es) => (k, rows, bs, le_edge v w :: es));
  fp_add_lt v w := on_store (fun '(k, rows, bs, es) => (k, rows, bs, lt_edge v w :: es));
  fp_restore_ineq := on_store (fun '(k, rows, bs, es) => (k, rows, bs, tail es));
  fp_make_feasible e := (verdict (held e), mk_engine (held e) (S (checks e)));
  fp_store := held
|}.

End RecordingEngine.

(** ** Vocabulary of the statements *)

(** *** Domains *)

Module Domain.
Import ViableSet.

(** A domain as the operations leave it: either emptied, or with both
    bounds among the values of the width and not wrapping below [hi]. *)
Definition wf (s : viable_set) : Prop :=
  emp s = true \/
  (0 <= lo s < p2 s /\ 0 <= hi s < p2 s /\ (hi s = 0 \/ lo s < hi s)).

(** The values of the width of a domain. *)
Definition value_of (s : viable_set) (x : Z) : Prop := 0 <= x < p2 s.

(** Every value left in [t] satisfies [sat]. *)
Definition remaining_satisfy (t : viable_set) (sat : Z -> bool) : Prop :=
  forall x, value_of t x -> contains t x = true -> sat x = true.

(** No value of [s] that satisfies [sat] is missing from [t]. *)
Definition none_excluded (s t : viable_set) (sat : Z -> bool) : Prop :=
  forall x, value_of s x -> contains s x = true -> sat x = true -> contains t x = true.

(** [t] admits no value that [s] did not admit. *)
Definition shrinks (s t : viable_set) : Prop :=
  forall x, value_of s x -> contains t x = true -> contains s x = true.

(** [t] is [s] intersected with the point [p], or with its complement. *)
Definition meets_point (s t : viable_set) (p : Z) (is_positive : bool) : Prop :=
  forall x, value_of s x ->
    contains t x = contains s x && (if is_positive then x =? p else negb (x =? p)).

(** [p] is in [s] and is neither its lowest nor its highest value. *)
Definition interior (s : viable_set) (p : Z) : bool :=
  contains s p && negb (p =? lo s) && negb (p + 1 =? hi s)
  && negb ((hi s =? 0) && is_max s p).

(** Where the search of [narrow] stops with budget left: the set is empty,
    or its lowest value satisfies [sat] or is the largest value of the
    width. *)
Definition lowest_settled (t : viable_set) (sat : Z -> bool) : Prop :=
  is_empty t = true \/ sat (lo t) = true \/ is_max t (lo t) = true.

(** The coefficients of the three closed forms of [intersect_ule]. *)
Definition ule_shape (a b c d : Z) : bool :=
  (Z.odd a && (b =? 0) && (c =? 0) && (d =? 0))
  || ((a =? 1) && (b =? 0) && (c =? 0))
  || ((a =? 0) && (c =? 1) && (d =? 0)).

(** The closed form of [viable_set::intersect_eq] as the specification
    words it: "compute the unique solution v = a^-1 * (-b) mod 2^width and
    intersect the interval with {that point} (equality) or its complement
    (disequality)". *)
Definition exact_point_intersection (s : viable_set) (a b : Z) (is_positive : bool) : Prop :=
  exists a_inv,
    mult_inverse (m_num_bits s) a = Some a_inv /\
    fst (intersect_eq s a b is_positive) = true /\
    meets_point s (snd (intersect_eq s a b is_positive)) ((a_inv * - b) mod p2 s) is_positive.

(** What [dd::fdd::sup] promises: a bound among the values of the width,
    at or above [lo], with the diagram true from [lo] up to it. *)
Definition sup_sound (fdd_sup : nat -> Viable.bdd -> Z -> option Z) : Prop :=
  forall sz b l bound, fdd_sup sz b l = Some bound ->
    l <= bound < 2 ^ Z.of_nat sz /\ forall x, l <= x <= bound -> b x = true.

(** A [sup] by scanning upwards, for running the tracker. *)
Fixpoint scan_up (b : Viable.bdd) (fuel : nat) (x : Z) : Z :=
  match fuel with
  | O => x
  | S fuel' => if b (x + 1) then scan_up b fuel' (x + 1) else x
  end.
Definition scan_sup (sz : nat) (b : Viable.bdd) (l : Z) : option Z :=
  if (0 <=? l) && (l <? 2 ^ Z.of_nat sz) && b l
  then Some (scan_up (fun x => (x <? 2 ^ Z.of_nat sz) && b x) (Z.to_nat (2 ^ Z.of_nat sz)) l)
  else None.

(** Modelled from the spec: what [viable_set::set_ne] of viable.h promises.
    "set_disequal(v, val): excludes exactly one point; must be a no-op if the
    domain already excludes it". The statements that reach [set_ne] ask this
    much of it: a domain that excludes the point comes back as it is, and on
    a well-formed domain no other point is excluded or added and the result
    is well formed. That the point itself is gone is not asked, since an
    interval cannot give up a point in its interior. *)
Definition ne_sound (set_ne : viable_set -> Z -> viable_set) : Prop :=
  forall s a,
    (contains s a = false -> set_ne s a = s) /\
    (wf s -> value_of s a ->
       wf (set_ne s a) /\
       forall x, value_of s x -> x <> a -> contains (set_ne s a) x = contains s x).

(** A [set_ne] for running the tracker: the point disequality
    [intersect_eq(a, false)] of viable.cpp. *)
Definition point_ne (s : viable_set) (a : Z) : viable_set := intersect_eq_point s a false.

(** The calls of [set_hi] on a set that is not empty which end in the last
    branch, the one that only prints "set hi": [d] is not the largest value,
    and the set is not free and runs to the top of the range ([hi == 0]) from
    a lower bound at or below [d]. *)
Definition set_hi_prints (s : viable_set) (d : Z) : bool :=
  negb (is_empty s) && negb (is_max s d) && negb (is_free s) && (lo s <=? d) && (hi s =? 0).

(** The calls of [viable_set::intersect_eq(a, b, is_positive)] that the
    closed form settles without the branch that only prints "unhandled
    diseq": [a] is odd and, for a disequality, the solution is not an interior
    value of the set. *)
Definition eq_settled (s : viable_set) (a b : Z) (is_positive : bool) : bool :=
  match mult_inverse (m_num_bits s) a with
  | Some a_inv => is_positive || negb (interior s ((a_inv * - b) mod p2 s))
  | None => false
  end.

(** The calls of [viable_set::intersect_ule] that a closed form settles
    without the branch of [set_hi] that only prints: the coefficients have one
    of the three shapes, and [x <= d] or [x < b] does not meet a set on which
    [set_hi] prints. *)
Definition ule_settled (s : viable_set) (a b c d : Z) (is_positive : bool) : bool :=
  if Z.odd a && (b =? 0) && (c =? 0) && (d =? 0) then true
  else if (a =? 1) && (b =? 0) && (c =? 0) then
    negb (is_positive && set_hi_prints s d)
  else if (a =? 0) && (c =? 1) && (d =? 0) then
    negb (negb is_positive && negb (b =? 0) && set_hi_prints s (b - 1))
  else false.

(** Every cached diagram is the one of its key. *)
Definition cache_ok (s : Viable.viable) : Prop :=
  forall sz a b c d repr act,
    Viable.m_ineq_cache s !! (sz, a, b, c, d) = Some (repr, act) ->
    forall x, repr x = Viable.ule_bdd sz a b c d x.

(** "Soundness of narrowing" for the two mutators of the tracker, as the
    specification states it: when the call leaves the domain non-empty, what
    remains satisfies the constraint and nothing that satisfies it was
    excluded. *)
Definition sound_intersect_eq (s : Viable.viable) (a : Z) (v : pvar) (b : Z) (is_positive : bool)
  : Prop :=
  forall s' d d',
    Viable.intersect_eq a v b is_positive s = Ok s' ->
    Viable.m_viable s !! v = Some d ->
    Viable.m_viable s' !! v = Some d' ->
    is_empty d' = false ->
    remaining_satisfy d' (eval_eq d a b is_positive) /\
    none_excluded d d' (eval_eq d a b is_positive).

(** The same for [viable::intersect_ule]. *)
Definition sound_intersect_ule (size : pvar -> nat)
    (fdd_sup : nat -> Viable.bdd -> Z -> option Z) (set_ne : viable_set -> Z -> viable_set)
    (s : Viable.viable) (v : pvar) (a b c e : Z) (is_positive : bool) : Prop :=
  forall s' d d',
    Viable.intersect_ule size fdd_sup set_ne v a b c e is_positive s = Ok s' ->
    Viable.m_viable s !! v = Some d ->
    Viable.m_viable s' !! v = Some d' ->
    is_empty d' = false ->
    remaining_satisfy d' (eval_ule d a b c e is_positive) /\
    none_excluded d d' (eval_ule d a b c e is_positive).

(** A tracker with one variable of width [w], free. *)
Definition one_free (w : nat) : Viable.viable :=
  Viable.mk_viable [free w] [] [] ∅ [].

(** A tracker with one variable, of domain [d]. *)
Definition one_domain (d : viable_set) : Viable.viable :=
  Viable.mk_viable [d] [] [] ∅ [].

End Domain.

(** *** The linear solver *)

Module Trail.
Import LinearSolver.

Section Steps.
Context {F St : Type} {E : fixplex_base F St}.

Abbreviation state := (linear_solver F).

(** The engine calls that [set_bound_i] and [add_ineq_i] stand for. *)
Inductive bound_call : (F -> F) -> Prop :=
  | call_set_bounds v l h : bound_call (fp_set_bounds v l h)
  | call_set_value v x : bound_call (fp_set_value v x).
Inductive ineq_call : (F -> F) -> Prop :=
  | call_add_le v w : ineq_call (fp_add_le v w)
  | call_add_lt v w : ineq_call (fp_add_lt v w).

Definition fix_put (sz : nat) (b : F) (s : state) : state :=
  set_fix (<[sz := Some b]> (m_fix s)) s.
Definition logged (e : trail_i) (v : var_t) (sz : nat) (s : state) : state :=
  set_rows ((v, sz) :: m_rows s) (set_trail (e :: m_trail s) s).

(** The mutations every call of the solver is made of. The first three
    leave the trail alone. *)
Inductive step : state -> state -> Prop :=
  | step_untracked s bv vs cs :
      step s (set_scratch vs cs (set_bool_var2row bv s))
  | step_alloc s sz k :
      fix_get s sz = None -> ext_of sz = Some k ->
      step s (fix_set sz (fp_alloc k) s)
  | step_feasible s sz f :
      fix_get s sz = Some f ->
      step s (fix_put sz (snd (fp_make_feasible f)) s)
  | step_fresh_var s sz c :
      reserve (S sz) 0 (m_sz2num_vars s) !! sz = Some c ->
      step s (set_sz2num_vars (<[sz := uint_incr c]> (reserve (S sz) 0 (m_sz2num_vars s)))
                (logged add_var_i 0 sz s))
  | step_add_mono s k v :
      m_mono2var s !! k = None ->
      step s (set_trail (add_mono_i :: m_trail s)
                (set_mono (<[k := v]> (m_mono2var s)) ((k, v) :: m_monomials s) s))
  | step_bound s sz v b f :
      fix_get s sz = Some b -> bound_call f ->
      step s (logged set_bound_i v sz (fix_put sz (f b) s))
  | step_add_row s sz v b vs cs :
      fix_get s sz = Some b ->
      step s (logged add_row_i v sz (fix_put sz (fp_add_row v vs cs b) s))
  | step_ineq s sz v b f :
      fix_get s sz = Some b -> ineq_call f ->
      step s (logged add_ineq_i v sz (fix_put sz (f b) s)).

(** The trail entries that stand for an engine call, with the call that
    [pop] answers them with; the row on top of [m_rows] gives the variable. *)
Inductive engine_entry : trail_i -> (var_t -> F -> F) -> Prop :=
  | entry_set_bound : engine_entry set_bound_i (fun _ => fp_restore_bound)
  | entry_add_row : engine_entry add_row_i fp_del_row
  | entry_add_ineq : engine_entry add_ineq_i (fun _ => fp_restore_ineq).

(** What [pop] does to the interning table, told from the trail alone. *)
Fixpoint pop_table (trail : list trail_i) (n : nat)
    (ms : list (mono_key * var_t)) (tbl : gmap mono_key var_t)
  : option (list trail_i * list (mono_key * var_t) * gmap mono_key var_t) :=
  match n with
  | O => Some (trail, ms, tbl)
  | S n' =>
      match trail with
      | [] => None
      | inc_level_i :: trail' => pop_table trail' n' ms tbl
      | add_mono_i :: trail' =>
          match ms with
          | m :: ms' => pop_table trail' n ms' (delete (fst m) tbl)
          | [] => None
          end
      | _ :: trail' => pop_table trail' n ms tbl
      end
  end.

(** [keeps s t]: [t] has the monomials of [s], and popping at least one
    level leaves the table as it would from [s]. *)
Definition keeps (s t : state) : Prop :=
  (forall k x, m_mono2var s !! k = Some x -> m_mono2var t !! k = Some x) /\
  forall n, pop_table (m_trail t) (S n) (m_monomials t) (m_mono2var t)
          = pop_table (m_trail s) (S n) (m_monomials s) (m_mono2var s).

(** The monomial [k] stays interned as [x] while no pop takes more than
    [d] levels. *)
Definition interned (k : mono_key) (x : var_t) (d : nat) (l : state) : Prop :=
  forall n r, (n <= d)%nat ->
    pop_table (m_trail l) n (m_monomials l) (m_mono2var l) = Some r ->
    snd r !! k = Some x.

(** Only widths with an instantiation have an engine. *)
Definition supported_only (s : state) : Prop :=
  forall sz e, fix_get s sz = Some e -> is_Some (ext_of sz).

(** The widths that have an engine, in the order of the table, which is
    indexed by width; [widths_from i l] numbers the entries of [l] from [i]. *)
Fixpoint widths_from (i : nat) (l : list (option F)) : list nat :=
  match l with
  | [] => []
  | Some _ :: l' => i :: widths_from (S i) l'
  | None :: l' => widths_from (S i) l'
  end.
Definition allocated_widths (s : state) : list nat := widths_from 0 (m_fix s).

(** The verdicts the engines give, in the order of the table, and their
    aggregate: infeasible if any is, else unknown if any is, else feasible. *)
Definition verdicts (s : state) : list lbool :=
  omap (fun o : option F => (fun f => fst (fp_make_feasible f)) <$> o) (m_fix s).
Definition is_l_false (r : lbool) : bool := match r with l_false => true | _ => false end.
Definition is_l_undef (r : lbool) : bool := match r with l_undef => true | _ => false end.
Definition aggregate (res : lbool) (rs : list lbool) : lbool :=
  if existsb is_l_false rs then l_false
  else if existsb is_l_undef rs then l_undef
  else res.

(** [check()] as the specification words it, over the engines of the
    widths in [order]: the first engine that reports infeasible ends the
    iteration, an unknown is remembered, and otherwise the verdict is
    feasible. *)
Fixpoint check_in_order (order : list nat) (res : lbool) (s : state) : lbool * state :=
  match order with
  | [] => (res, s)
  | sz :: order' =>
      match fix_get s sz with
      | None => check_in_order order' res s
      | Some f =>
          let s' := fix_put sz (snd (fp_make_feasible f)) s in
          match fst (fp_make_feasible f) with
          | l_false => (l_false, s')
          | l_undef => check_in_order order' l_undef s'
          | l_true => check_in_order order' res s'
          end
      end
  end.

(** The engines constructed one after the other for the widths of
    [order], from a new solver. *)
Fixpoint construct (order : list nat) (s : state) : result state :=
  match order with
  | [] => Ok s
  | sz :: order' =>
      match sz2fixplex sz s with
      | Ok (_, s') => construct order' s'
      | Err e => Err e
      end
  end.

(** The order of [check()] as the specification states it: "order is by
    bit-width partition creation order". *)
Definition checks_in_creation_order (order : list nat) : Prop :=
  forall s, construct order init = Ok s ->
    check s = Ok (check_in_order order l_true s).

End Steps.

(** The constraint [x0 <= 2^32 - 1] at width 32, with a sign. *)
Definition x0_le_max (sign : lbool) : constraint :=
  ule_t (mk_ule 0 (mk_pdd 32 [(1, [0%nat])]) (mk_pdd 32 [(2 ^ 32 - 1, [])]) sign).

End Trail.

(** ** Inputs to run the statements on *)

Module Examples.
Import LinearSolver Trail System.

(** Engines that report feasible, or infeasible, whatever they hold. *)
Definition demo_engine : fixplex_base RecordingEngine.engine RecordingEngine.store :=
  RecordingEngine.recording (fun _ => l_true).
Definition false_engine : fixplex_base RecordingEngine.engine RecordingEngine.store :=
  RecordingEngine.recording (fun _ => l_false).

(** One variable of width 32, a bracket opened after three calls and two
    levels to pop at the end. *)
Definition demo_size (v : pvar) : nat := 32%nat.
Definition demo_start : system (F := RecordingEngine.engine) :=
  (init, Domain.one_free 32).
Definition demo_cmds : list cmd :=
  [ c_op (do_new_constraint (x0_le_max l_undef));
    c_op (do_activate_constraint (x0_le_max l_true));
    c_op (do_intersect_ule 0%nat 1 0 0 9 true);
    c_push;
    c_op (do_set_bound 0%nat 1 5);
    c_op (do_intersect_eq 3 0%nat 1 true);
    c_op do_check ].
Definition demo_end : system (F := RecordingEngine.engine) :=
  match run (E := demo_engine) demo_size Domain.scan_sup Domain.point_ne
          demo_cmds (System.push demo_start) with
  | Ok s => s
  | Err _ => demo_start
  end.

(** The monomial [x0] interned, then calls with a bracket that is opened
    and closed. *)
Definition intern_cmds : list cmd :=
  [ c_op (do_pvar2var 32 1%nat);
    c_push;
    c_op (do_mono2var 32 [0%nat; 1%nat]);
    c_op (do_set_bound 0%nat 1 5);
    c_pop 1;
    c_op (do_new_constraint (x0_le_max l_undef)) ].
Definition intern_start : linear_solver RecordingEngine.engine :=
  match mono2var 32 [0%nat] init with
  | Ok (_, l) => l
  | Err _ => init
  end.
Definition intern_end : system (F := RecordingEngine.engine) :=
  match run (E := demo_engine) demo_size Domain.scan_sup Domain.point_ne intern_cmds
          (intern_start, Domain.one_free 32) with
  | Ok s => s
  | Err _ => demo_start
  end.

End Examples.

(** ** Queries on the tracker, and its diagram domains *)

Module ViableQueries.
Import ViableSet.

(** [viable::find_viable], NEW_VIABLE branch; [m_value] is [s.m_value], the
    assignment of the surrounding solver. *)
Definition find_viable (m_value : list Z) (v : pvar) (val : Z) (s : Viable.viable)
  : result (find_t * Z) :=
  match Viable.m_viable s !! v, m_value !! v with
  | Some d, Some x => Ok (find_hint d x val)
  | _, _ => Err out_of_range
  end.

Section Bits.
(** The diagram manager [m_bdd] and the domains [dd::fdd] built in it are
    external (math/dd); [fdd_new] is the constructor [dd::fdd(m_bdd, sz)],
    which may change the manager. *)
Context {Mgr Fdd : Type}.
Variable fdd_new : Mgr -> nat -> Fdd * Mgr.
Variable size : pvar -> nat.

(** The two members [sz2bits] touches. *)
Record bits_state : Type := mk_bits_state {
  m_bdd : Mgr;
  m_bits : list (option Fdd)
}.

(** [viable::sz2bits]: [m_bits.reserve(sz + 1)], then the entry of [sz] is
    built when it is null. *)
Definition sz2bits (sz : nat) (s : bits_state) : Fdd * bits_state :=
  let bits := LinearSolver.reserve (S sz) None (m_bits s) in
  match mjoin (bits !! sz) with
  | Some b => (b, mk_bits_state (m_bdd s) bits)
  | None =>
      let '(b, m) := fdd_new (m_bdd s) sz in
      (b, mk_bits_state m (<[sz := Some b]> bits))
  end.

(** [viable::var2bits] *)
Definition var2bits (v : pvar) (s : bits_state) : Fdd * bits_state :=
  sz2bits (size v) s.

End Bits.
End ViableQueries.

(** *** What a mutator of the tracker leaves behind *)

Module Tracking.
Import ViableSet.

(** [s'] is [s] after one mutation of [v]: one more trail entry, holding
    the previous domain; the domains of the other variables as they were; a
    conflict on [v] exactly when its domain ends empty. *)
Definition mutated (v : pvar) (s s' : Viable.viable) : Prop :=
  exists d d',
    Viable.m_viable s !! v = Some d /\
    Viable.m_viable s' !! v = Some d' /\
    (forall w, w <> v -> Viable.m_viable s' !! w = Viable.m_viable s !! w) /\
    length (Viable.m_viable s') = length (Viable.m_viable s) /\
    Viable.m_viable_trail s' = (v, d) :: Viable.m_viable_trail s /\
    Viable.s_trail s' = Viable.viable_i :: Viable.s_trail s /\
    Viable.s_conflict s' = (if is_empty d' then v :: Viable.s_conflict s else Viable.s_conflict s) /\
    Viable.has_viable v s' = Ok (negb (is_empty d')).

End Tracking.

(** *** What a call of the linear solver leaves behind *)

Module Effects.
Import LinearSolver.

Section Effects.
Context {F St : Type} {E : fixplex_base F St}.

(** The engine [sz2fixplex(sz)] gives in [s]: the one stored for the width,
    or a new one when none is stored and the width has an instantiation. *)
Definition available (s : linear_solver F) (sz : nat) (e : F) : Prop :=
  fix_get s sz = Some e \/
  (fix_get s sz = None /\ exists k, ext_of sz = Some k /\ e = fp_alloc k).

(** [s'] is [s] after one logged engine call: the engine of width [sz] is
    now [e'], the trail got the entry [t] and the rows [(x, sz)]; the other
    engines, the counters and the tables are as they were. *)
Definition engine_logged (t : trail_i) (x : var_t) (sz : nat) (e' : F)
    (s s' : linear_solver F) : Prop :=
  fix_get s' sz = Some e' /\
  (forall w, w <> sz -> fix_get s' w = fix_get s w) /\
  m_trail s' = t :: m_trail s /\
  m_rows s' = (x, sz) :: m_rows s /\
  m_sz2num_vars s' = m_sz2num_vars s /\
  m_mono2var s' = m_mono2var s /\
  m_monomials s' = m_monomials s /\
  m_bool_var2row s' = m_bool_var2row s.

(** The engine call [assert_le] makes for a constraint registered with the
    pair [(v, w)], with its trail entry and the variable of its row; [None]
    where the source throws "conflict not implemented". *)
Definition le_call (c : ule_constraint) (v w : var_t) : option (trail_i * var_t * (F -> F)) :=
  if is_val (ule_rhs c) then
    if sign_positive (ule_sign c)
    then Some (set_bound_i, v, fp_set_bounds v 0 (val (ule_rhs c)))
    else Some (set_bound_i, v, fp_set_bounds v (val (ule_rhs c) + 1) 0)
  else if is_val (ule_lhs c) then
    if sign_positive (ule_sign c)
    then Some (set_bound_i, w, fp_set_bounds w (val (ule_lhs c)) 0)
    else if val (ule_lhs c) =? 0 then None
    else Some (set_bound_i, w, fp_set_bounds w 0 (val (ule_lhs c) - 1))
  else
    if sign_positive (ule_sign c)
    then Some (add_ineq_i, v, fp_add_le v w)
    else Some (add_ineq_i, v, fp_add_lt w v).

End Effects.
End Effects.

(** *** The trail and its stacks *)

Module Logging.
Import LinearSolver.

(** The number of levels open on a trail. *)
Fixpoint levels (tr : list trail_i) : nat :=
  match tr with
  | [] => O
  | inc_level_i :: tr' => S (levels tr')
  | _ :: tr' => levels tr'
  end.

(** Every entry of the trail finds what its undo reads: a row on [m_rows]
    for the entries that log one, a monomial on [m_monomials] for
    [add_mono_i], a counter for the width of an [add_var_i] row and an engine
    for the width of the row of an engine call. [slots] is the size of
    [m_sz2num_vars], [has sz] tells that [sz2fixplex(sz)] returns, [monos] is
    the size of [m_monomials]. *)
Fixpoint undoable (slots : nat) (has : nat -> Prop)
    (tr : list trail_i) (rows : list (var_t * nat)) (monos : nat) : Prop :=
  match tr with
  | [] => True
  | inc_level_i :: tr' => undoable slots has tr' rows monos
  | add_mono_i :: tr' =>
      match monos with
      | S m => undoable slots has tr' rows m
      | O => False
      end
  | add_var_i :: tr' =>
      match rows with
      | r :: rows' => (r.2 < slots)%nat /\ undoable slots has tr' rows' monos
      | [] => False
      end
  | _ :: tr' =>
      match rows with
      | r :: rows' => has r.2 /\ undoable slots has tr' rows' monos
      | [] => False
      end
  end.

Section Logged.
Context {F St : Type} {E : fixplex_base F St}.

Definition has_engine (s : linear_solver F) (sz : nat) : Prop :=
  is_Some (fix_get s sz) \/ is_Some (ext_of sz).

Definition well_logged (s : linear_solver F) : Prop :=
  undoable (length (m_sz2num_vars s)) (has_engine s)
    (m_trail s) (m_rows s) (length (m_monomials s)).

End Logged.
End Logging.

(** *** The interning table and the counters *)

Module Interning.
Import LinearSolver System.

Section Interned.
Context {F St : Type} {E : fixplex_base F St}.

(** The table against the counters: a variable in the table is below the
    counter of its width, two monomials of one width do not share a variable,
    and no counter exceeds the length [n] of the trail. *)
Definition table_ok (tbl : gmap mono_key var_t) (cnt : nat -> Z) (n : nat) : Prop :=
  (forall k x, tbl !! k = Some x -> 0 <= x < cnt k.1) /\
  (forall k1 k2 x, tbl !! k1 = Some x -> tbl !! k2 = Some x -> k1.1 = k2.1 -> k1 = k2) /\
  (forall w, 0 <= cnt w <= Z.of_nat n).

(** [table_ok] now and after each entry of the trail is undone, as [pop]
    undoes it: [add_mono_i] erases the monomial on top of [m_monomials],
    [add_var_i] takes the counter of its row down by one. *)
Fixpoint interned_below (tr : list trail_i) (rows : list (var_t * nat))
    (monos : list (mono_key * var_t)) (tbl : gmap mono_key var_t) (cnt : nat -> Z) : Prop :=
  table_ok tbl cnt (length tr) /\
  match tr with
  | [] => True
  | inc_level_i :: tr' => interned_below tr' rows monos tbl cnt
  | add_mono_i :: tr' =>
      match monos with
      | m :: ms => interned_below tr' rows ms (delete m.1 tbl) cnt
      | [] => True
      end
  | add_var_i :: tr' =>
      match rows with
      | r :: rows' =>
          1 <= cnt r.2 < UINT_MOD /\
          interned_below tr' rows' monos tbl
            (fun w => if decide (w = r.2) then cnt w - 1 else cnt w)
      | [] => True
      end
  | _ :: tr' =>
      match rows with
      | r :: rows' => interned_below tr' rows' monos tbl cnt
      | [] => True
      end
  end.

Definition interning_ok (s : linear_solver F) : Prop :=
  interned_below (m_trail s) (m_rows s) (m_monomials s) (m_mono2var s) (num_vars s).

(** A change that leaves the table and the counters alone, and logs
    nothing or one engine call with its row. *)
Definition neutral (s s' : linear_solver F) : Prop :=
  m_mono2var s' = m_mono2var s /\
  m_monomials s' = m_monomials s /\
  m_sz2num_vars s' = m_sz2num_vars s /\
  ((m_trail s' = m_trail s /\ m_rows s' = m_rows s) \/
   exists t r, (t = set_bound_i \/ t = add_row_i \/ t = add_ineq_i) /\
     m_trail s' = t :: m_trail s /\ m_rows s' = r :: m_rows s).

(** What the calls of the solver are made of, seen from the table. *)
Inductive istep : linear_solver F -> linear_solver F -> Prop :=
  | istep_neutral s s' : neutral s s' -> istep s s'
  | istep_fresh s sz c s' : fresh_var sz s = Ok (c, s') -> istep s s'
  | istep_intern s sz var v s' : mono2var sz var s = Ok (v, s') -> istep s s'.

End Interned.
End Interning.

(** * Proofs *)

(** Splits a conjunction and evaluates the parts that are closed. *)
Ltac eval_conj :=
  repeat match goal with |- _ /\ _ => split end; try (vm_compute; reflexivity).

(** ** Domains and narrowing *)

Module DomainFacts.
Import ViableSet Domain.

Lemma p2_pos s : 0 < p2 s.
Proof. unfold p2. apply Z.pow_pos_nonneg; lia. Qed.

(** *** The inverse of an odd coefficient *)

Lemma pow2_divide (i j : Z) : 0 <= i <= j -> (2 ^ i | 2 ^ j).
Proof.
  intros H. exists (2 ^ (j - i)). rewrite <- Z.pow_add_r by lia. f_equal. lia.
Qed.

Lemma hensel_round (a x W j : Z) :
  0 <= W -> 1 <= j ->
  (2 ^ Z.min j W | a * x - 1) ->
  (2 ^ Z.min (j + 1) W | a * ((x * (2 - a * x)) mod 2 ^ W) - 1).
Proof.
  intros HW Hj [k Hk].
  assert (HP : 0 < 2 ^ W) by (apply Z.pow_pos_nonneg; lia).
  pose proof (Z.div_mod (x * (2 - a * x)) (2 ^ W) ltac:(lia)) as Hdm.
  set (q := x * (2 - a * x) / 2 ^ W) in *.
  set (r := (x * (2 - a * x)) mod 2 ^ W) in *.
  replace (a * r - 1) with (- (k * k) * (2 ^ Z.min j W * 2 ^ Z.min j W) + (- a * q) * 2 ^ W) by nia.
  apply Z.divide_add_r; apply Z.divide_mul_r.
  - rewrite <- Z.pow_add_r by lia. apply pow2_divide. lia.
  - apply pow2_divide. lia.
Qed.

Lemma hensel_correct (r : nat) (a x W j : Z) :
  0 <= W -> 1 <= j ->
  (2 ^ Z.min j W | a * x - 1) ->
  (2 ^ Z.min (j + Z.of_nat r) W | a * hensel r a (2 ^ W) x - 1).
Proof.
  revert x j. induction r as [|r IH]; intros x j HW Hj H; simpl hensel.
  - replace (j + Z.of_nat 0) with j by lia. exact H.
  - replace (j + Z.of_nat (S r)) with ((j + 1) + Z.of_nat r) by lia.
    apply IH; [lia | lia |]. by apply hensel_round.
Qed.

Lemma mult_inverse_odd (w : nat) (a : Z) :
  Z.odd a = true ->
  exists a_inv, mult_inverse w a = Some a_inv /\
    0 <= a_inv < 2 ^ Z.of_nat w /\ (2 ^ Z.of_nat w | a * a_inv - 1).
Proof.
  intros Hodd. unfold mult_inverse. rewrite Hodd. eexists. split; [reflexivity|].
  set (W := Z.of_nat w).
  assert (HP : 0 < 2 ^ W) by (apply Z.pow_pos_nonneg; lia).
  split; [apply Z.mod_pos_bound; lia|].
  assert (H1 : (2 ^ Z.min 1 W | a * 1 - 1)).
  { destruct (decide (W = 0)) as [->|HW].
    - simpl. apply Z.divide_1_l.
    - replace (Z.min 1 W) with 1 by lia.
      rewrite (Zodd_div2 a) by (by apply Zodd_bool_iff).
      exists (Z.div2 a). change (2 ^ 1) with 2. lia. }
  pose proof (hensel_correct w a 1 W 1 ltac:(lia) ltac:(lia) H1) as [k Hk].
  replace (Z.min (1 + Z.of_nat w) W) with W in Hk by lia.
  set (y := hensel w a (2 ^ W) 1) in *.
  pose proof (Z.div_mod y (2 ^ W) ltac:(lia)) as Hdm.
  exists (k - a * (y / 2 ^ W)). nia.
Qed.

(** The equation [a*x + b = 0] modulo [P] has one solution when [a] has
    an inverse. *)
Lemma unique_solution (P a a_inv b x : Z) :
  0 < P -> (P | a * a_inv - 1) -> 0 <= x < P ->
  (a * x + b) mod P = 0 <-> x = (a_inv * - b) mod P.
Proof.
  intros HP [k Hk] Hx.
  pose proof (Z.div_mod (a_inv * - b) P ltac:(lia)) as Hdm.
  pose proof (Z.mod_pos_bound (a_inv * - b) P HP) as Hr.
  set (q := a_inv * - b / P) in *. set (p := (a_inv * - b) mod P) in *.
  split.
  - intros H. apply Z.mod_divide in H; [|lia]. destruct H as [z Hz].
    assert (H1 : x + a_inv * b = a_inv * (z * P) - (k * P) * x)
      by (rewrite <- Hz, <- Hk; ring).
    assert (Hd : x - p = (a_inv * z - k * x + q) * P) by lia.
    assert (a_inv * z - k * x + q = 0) by nia. lia.
  - intros ->. apply Z.mod_divide; [lia|].
    exists (- k * b - a * q).
    replace p with (a_inv * - b - P * q) by lia.
    replace (a * (a_inv * - b - P * q) + b) with (- (a * a_inv - 1) * b - a * q * P) by ring.
    rewrite Hk. ring.
Qed.

(** *** Case analysis on the comparisons of a domain *)

Ltac bool_step :=
  match goal with
  | H : context [Z.eqb ?a ?b] |- _ => destruct (Z.eqb_spec a b)
  | H : context [Z.ltb ?a ?b] |- _ => destruct (Z.ltb_spec a b)
  | H : context [Z.leb ?a ?b] |- _ => destruct (Z.leb_spec a b)
  | H : context [Z.gtb ?a ?b] |- _ => rewrite (Z.gtb_ltb a b) in H
  | |- context [Z.eqb ?a ?b] => destruct (Z.eqb_spec a b)
  | |- context [Z.ltb ?a ?b] => destruct (Z.ltb_spec a b)
  | |- context [Z.leb ?a ?b] => destruct (Z.leb_spec a b)
  | |- context [Z.gtb ?a ?b] => rewrite (Z.gtb_ltb a b)
  end.
Ltac dom_simpl := cbn [andb orb negb m_num_bits lo hi emp fst snd] in *.
Ltac bool_cases :=
  dom_simpl; try congruence;
  repeat (bool_step; dom_simpl; try congruence; try lia).

Ltac dom_unfold :=
  unfold meets_point, shrinks, none_excluded, remaining_satisfy, value_of, interior, wf,
    intersect_eq_point, set_hi, set_lo, contains, is_free, is_empty, is_max,
    set_empty, with_lo, with_hi, with_bounds, p2 in *;
  cbn [andb orb negb m_num_bits lo hi emp fst snd] in *.

Ltac wf_close := first [by left | right; lia].

(** Opens a domain and names its modulus. *)
Tactic Notation "dom_open" constr(s) "as" ident(l) ident(h) ident(e) ident(P) :=
  let w := fresh "w" in
  destruct s as [w l h e]; dom_unfold;
  assert (0 < 2 ^ Z.of_nat w) by (apply Z.pow_pos_nonneg; lia);
  set (P := 2 ^ Z.of_nat w) in *.

Lemma point_positive s p :
  value_of s p -> meets_point s (intersect_eq_point s p true) p true.
Proof.
  dom_open s as l h e P. intros Hp x Hx. destruct e; simpl; [reflexivity|]. bool_cases.
Qed.

Lemma point_negative s p :
  wf s -> value_of s p ->
  if interior s p then intersect_eq_point s p false = s
  else meets_point s (intersect_eq_point s p false) p false.
Proof.
  dom_open s as l h e P. intros Hwf Hp. destruct e; simpl.
  - intros x Hx. reflexivity.
  - destruct Hwf as [?|Hwf]; [congruence|]. bool_cases; intros x Hx; bool_cases.
Qed.

Lemma point_wf s p pol : wf s -> value_of s p -> wf (intersect_eq_point s p pol).
Proof.
  dom_open s as l h e P. intros Hwf Hp. destruct e; simpl; [by left|].
  destruct Hwf as [?|Hwf]; [congruence|]. destruct pol; bool_cases; wf_close.
Qed.

Lemma point_ne_sound : ne_sound point_ne.
Proof.
  intros s a. unfold point_ne. split.
  - intros Hc. unfold intersect_eq_point. destruct (is_empty s); [done|]. by rewrite Hc.
  - intros Hwf Ha. split; [by apply point_wf|].
    intros x Hx Hne. pose proof (point_negative s a Hwf Ha) as H.
    destruct (interior s a); [by rewrite H|].
    rewrite (H x Hx). destruct (Z.eqb_spec x a); [done|]. simpl. apply andb_true_r.
Qed.

Lemma set_lo_keeps s b x :
  wf s -> 0 <= b -> value_of s x -> contains s x = true -> b <= x ->
  contains (set_lo s b) x = true.
Proof.
  dom_open s as l h e P. intros Hwf Hb Hx. destruct e; simpl; [bool_cases|].
  destruct Hwf as [?|Hwf]; [congruence|]. bool_cases.
Qed.

Lemma set_hi_keeps s d x :
  wf s -> value_of s x -> contains s x = true -> x <= d -> contains (set_hi s d) x = true.
Proof.
  dom_open s as l h e P. intros Hwf Hx. destruct e; simpl; [bool_cases|].
  destruct Hwf as [?|Hwf]; [congruence|]. bool_cases.
Qed.

Lemma set_lo_wf s b : wf s -> value_of s b -> wf (set_lo s b).
Proof.
  dom_open s as l h e P. intros Hwf Hb. destruct e; simpl; [bool_cases; wf_close|].
  destruct Hwf as [?|Hwf]; [congruence|]. bool_cases; wf_close.
Qed.

Lemma set_hi_wf s d : wf s -> value_of s d -> wf (set_hi s d).
Proof.
  dom_open s as l h e P. intros Hwf Hb. destruct e; simpl; [bool_cases; wf_close|].
  destruct Hwf as [?|Hwf]; [congruence|]. bool_cases; wf_close.
Qed.

Lemma contains_lo_le s x : wf s -> value_of s x -> contains s x = true -> lo s <= x.
Proof.
  dom_open s as l h e P. intros Hwf Hx. destruct e; simpl; [done|].
  destruct Hwf as [?|Hwf]; [congruence|]. bool_cases.
Qed.

Lemma contains_lo_nonneg s x : wf s -> contains s x = true -> 0 <= lo s.
Proof.
  dom_open s as l h e P. intros Hwf. destruct e; simpl; [done|].
  destruct Hwf as [?|Hwf]; [congruence|]. lia.
Qed.

(** *** The bounded search *)

Lemma narrow_lo_spec eval budget s :
  wf s ->
  let r := narrow_lo eval budget s in
  wf (snd r) /\ m_num_bits (snd r) = m_num_bits s /\
  none_excluded s (snd r) eval /\
  (fst r = O \/ emp (snd r) = true \/ eval (lo (snd r)) = true \/ is_max (snd r) (lo (snd r)) = true).
Proof.
  revert s. induction budget as [|n IH]; intros s Hwf; simpl.
  - repeat split; auto. intros x _ H _. exact H.
  - destruct (negb (eval (lo s)) && negb (is_max s (lo s)) && negb (is_empty s)) eqn:Hc.
    + apply andb_prop in Hc as [Hc He]. apply andb_prop in Hc as [Hev Hm].
      apply negb_true_iff in Hev, Hm, He.
      set (s1 := set_lo (with_lo s (lo s + 1)) (lo (with_lo s (lo s + 1)))).
      assert (H1 : wf s1 /\ m_num_bits s1 = m_num_bits s /\
                   forall x, value_of s x -> contains s x = true -> x <> lo s ->
                             contains s1 x = true).
      { subst s1. clear IH. dom_open s as l h e P. subst e. simpl in *.
        destruct Hwf as [?|Hwf]; [congruence|].
        bool_cases; (split; [wf_close|]); (split; [done|]); intros x Hx; bool_cases. }
      destruct H1 as (Hwf1 & Hb1 & Hk1).
      destruct (IH s1 Hwf1) as (Hwf2 & Hb2 & Hk2 & Hpost).
      repeat split; auto; [etrans; [exact Hb2 | exact Hb1]|].
      intros x Hx Hin Hsat. apply Hk2; auto.
      * unfold value_of, p2 in *. by rewrite Hb1.
      * apply Hk1; auto. intros ->. congruence.
    + simpl. repeat split; auto; [by intros x _ H _|].
      apply andb_false_iff in Hc as [Hc|Hc]; [apply andb_false_iff in Hc as [Hc|Hc]|];
        apply negb_false_iff in Hc; auto.
Qed.

Lemma narrow_hi_idle eval budget s :
  wf s ->
  emp s = true \/ eval (lo s) = true \/ is_max s (lo s) = true ->
  snd (narrow_hi eval budget s) = s.
Proof.
  intros Hwf Hpre. induction budget as [|n IH]; simpl; [done|].
  destruct ((hi s >? 0) && negb (eval (hi s - 1)) && negb (is_empty s)) eqn:Hc; [|done].
  apply andb_prop in Hc as [Hc He]. apply andb_prop in Hc as [Hh Hev].
  apply negb_true_iff in Hev, He.
  assert (Hs : set_hi (with_hi s (hi s - 1)) (hi s - 1) = s).
  { clear IH. destruct s as [w l h e]. dom_unfold.
    assert (0 < 2 ^ Z.of_nat w) by (apply Z.pow_pos_nonneg; lia).
    set (P := 2 ^ Z.of_nat w) in *. subst e.
    destruct Hwf as [?|Hwf]; [congruence|].
    destruct Hpre as [?|[Hl|Hm]]; [congruence| |].
    - assert (l <> h - 1) by (intros ->; congruence).
      bool_cases. f_equal. lia.
    - bool_cases. }
  rewrite Hs. exact IH.
Qed.

(** On a well-formed domain the search only ever moves the lower bound. *)
Lemma narrow_spec eval budget s :
  wf s ->
  snd (narrow eval budget s) = snd (narrow_lo eval budget s).
Proof.
  intros Hwf. unfold narrow.
  pose proof (narrow_lo_spec eval budget s Hwf) as H. simpl in H.
  destruct (narrow_lo eval budget s) as [b1 s1]. simpl in *.
  destruct H as (Hwf1 & _ & _ & [->|Hpost]); [done|].
  by apply narrow_hi_idle.
Qed.

Lemma intersect_eq_odd s a b pol :
  Z.odd a = true ->
  exists a_inv, mult_inverse (m_num_bits s) a = Some a_inv /\
    (p2 s | a * a_inv - 1) /\
    intersect_eq s a b pol = (true, intersect_eq_point s ((a_inv * - b) mod p2 s) pol).
Proof.
  intros Hodd. destruct (mult_inverse_odd (m_num_bits s) a Hodd) as (a_inv & Hinv & _ & Hdiv).
  exists a_inv. split; [done|]. split; [done|].
  unfold intersect_eq. rewrite Hodd, Hinv.
  destruct (Z.eqb_spec b 0) as [->|]; [|done].
  replace (a_inv * - 0) with 0 by lia. rewrite Z.mod_0_l; [done|].
  pose proof (p2_pos s). lia.
Qed.

Lemma sat_eq_point s a a_inv b (pol : bool) x :
  (p2 s | a * a_inv - 1) -> value_of s x ->
  eval_eq s a b pol x = (if pol then x =? (a_inv * - b) mod p2 s
                         else negb (x =? (a_inv * - b) mod p2 s)).
Proof.
  intros Hdiv Hx. unfold eval_eq.
  pose proof (unique_solution (p2 s) a a_inv b x (p2_pos s) Hdiv Hx) as Hu.
  destruct (Z.eqb_spec ((a * x + b) mod p2 s) 0), (Z.eqb_spec x ((a_inv * - b) mod p2 s));
    destruct pol; simpl; try done; tauto.
Qed.

Lemma point_keeps s p (pol : bool) x :
  wf s -> value_of s p -> value_of s x -> contains s x = true ->
  (if pol then x =? p else negb (x =? p)) = true ->
  contains (intersect_eq_point s p pol) x = true.
Proof.
  intros Hwf Hp Hx Hin Hsat. destruct pol.
  - rewrite (point_positive s p Hp x Hx), Hin, Hsat. done.
  - pose proof (point_negative s p Hwf Hp) as H.
    destruct (interior s p); [by rewrite H|].
    rewrite (H x Hx), Hin, Hsat. done.
Qed.

Lemma mod_value s x : value_of s x -> x mod p2 s = x.
Proof. intros H. apply Z.mod_small. exact H. Qed.

Lemma contains_set_empty s x : contains (set_empty s) x = false.
Proof. done. Qed.

(** The closed forms of [intersect_ule] exclude no solution. *)
Lemma intersect_ule_closed_keeps s a b c d pol :
  wf s -> value_of s a -> value_of s b -> value_of s c -> value_of s d ->
  fst (intersect_ule s a b c d pol) = true ->
  none_excluded s (snd (intersect_ule s a b c d pol)) (eval_ule s a b c d pol).
Proof.
  intros Hwf Ha Hb Hc Hd Hok x Hx Hin Hsat.
  pose proof (p2_pos s) as HP.
  unfold intersect_ule in *. unfold eval_ule in Hsat.
  destruct (Z.odd a && (b =? 0) && (c =? 0) && (d =? 0)) eqn:H1.
  { apply andb_prop in H1 as [H1 ?]. apply andb_prop in H1 as [H1 ?].
    apply andb_prop in H1 as [Hodd ?].
    assert (b = 0 /\ c = 0 /\ d = 0) as (-> & -> & ->) by lia.
    destruct (mult_inverse_odd (m_num_bits s) a Hodd) as (a_inv & _ & _ & Hdiv).
    simpl. apply point_keeps; auto.
    pose proof (sat_eq_point s a a_inv 0 pol x Hdiv Hx) as Hp.
    replace (a_inv * - 0) with 0 in Hp by lia. rewrite Z.mod_0_l in Hp by lia.
    rewrite <- Hp. unfold eval_eq.
    replace (0 * x + 0) with 0 in Hsat by lia. rewrite Z.mod_0_l in Hsat by lia.
    pose proof (Z.mod_pos_bound (a * x + 0) (p2 s) HP).
    destruct pol; simpl in *; bool_cases. }
  destruct ((a =? 1) && (b =? 0) && (c =? 0)) eqn:H2.
  { apply andb_prop in H2 as [H2 ?]. apply andb_prop in H2 as [? ?].
    assert (a = 1 /\ b = 0 /\ c = 0) as (-> & -> & ->) by lia.
    replace (1 * x + 0) with x in Hsat by lia. replace (0 * x + d) with d in Hsat by lia.
    rewrite !mod_value in Hsat by done.
    destruct pol; simpl in *.
    - apply set_hi_keeps; auto. bool_cases.
    - unfold is_max. destruct (Z.eqb_spec (d + 1) (p2 s)); simpl.
      + unfold value_of in *. bool_cases.
      + apply set_lo_keeps; auto; unfold value_of in *; bool_cases. }
  destruct ((a =? 0) && (c =? 1) && (d =? 0)) eqn:H3; [|done].
  apply andb_prop in H3 as [H3 ?]. apply andb_prop in H3 as [? ?].
  assert (a = 0 /\ c = 1 /\ d = 0) as (-> & -> & ->) by lia.
  replace (0 * x + b) with b in Hsat by lia. replace (1 * x + 0) with x in Hsat by lia.
  rewrite !mod_value in Hsat by done.
  destruct pol; simpl in *.
  - apply set_lo_keeps; auto; unfold value_of in *; bool_cases.
  - destruct (Z.eqb_spec b 0); simpl.
    + unfold value_of in *. bool_cases.
    + apply set_hi_keeps; auto. bool_cases.
Qed.

Lemma scan_up_sound b fuel x :
  x <= scan_up b fuel x /\
  forall y, x < y <= scan_up b fuel x -> b y = true.
Proof.
  revert x. induction fuel as [|n IH]; intros x; simpl.
  - split; [lia|]. intros y Hy. lia.
  - destruct (b (x + 1)) eqn:Hb.
    + destruct (IH (x + 1)) as [H1 H2]. split; [lia|].
      intros y Hy. destruct (decide (y = x + 1)) as [->|]; [done|]. apply H2. lia.
    + split; [lia|]. intros y Hy. lia.
Qed.

Lemma scan_up_bounded (b : Z -> bool) M fuel x :
  x < M -> (forall y, b y = true -> y < M) -> scan_up b fuel x < M.
Proof.
  revert x. induction fuel as [|n IH]; intros x Hx Hb; simpl; [done|].
  destruct (b (x + 1)) eqn:Hb1; [|done]. apply IH; auto.
Qed.

Lemma scan_sup_sound : sup_sound scan_sup.
Proof.
  intros sz b l bound. unfold scan_sup.
  destruct ((0 <=? l) && (l <? 2 ^ Z.of_nat sz) && b l) eqn:Hc; [|done].
  apply andb_prop in Hc as [Hc Hbl]. apply andb_prop in Hc as [H0 H1].
  intros [= <-].
  set (b' := fun x => (x <? 2 ^ Z.of_nat sz) && b x).
  destruct (scan_up_sound b' (Z.to_nat (2 ^ Z.of_nat sz)) l) as [Hle Hall].
  split.
  - split; [done|]. apply scan_up_bounded; [lia|].
    intros y Hy. unfold b' in Hy. apply andb_prop in Hy as [Hy _]. lia.
  - intros x Hx. destruct (decide (x = l)) as [->|]; [done|].
    assert (Hb' : b' x = true) by (apply Hall; lia).
    unfold b' in Hb'. by apply andb_prop in Hb' as [_ ?].
Qed.

(** *** The tracker: which domain a mutator leaves *)

Lemma lookup_set_viable v d d0 s :
  Viable.m_viable s !! v = Some d0 ->
  Viable.m_viable (Viable.set_viable v d s) !! v = Some d.
Proof.
  intros H. simpl. apply list_lookup_insert_eq. by eapply lookup_lt_Some.
Qed.

Lemma conflict_if_empty_viable v s s' :
  Viable.conflict_if_empty v s = Ok s' -> Viable.m_viable s' = Viable.m_viable s.
Proof.
  unfold Viable.conflict_if_empty. destruct (Viable.m_viable s !! v); [|done].
  intros [= <-]. by destruct (is_empty _).
Qed.

Lemma push_viable_inv v s s1 :
  Viable.push_viable v s = Ok s1 ->
  exists d, Viable.m_viable s !! v = Some d /\
    s1 = Viable.mk_viable (Viable.m_viable s) ((v, d) :: Viable.m_viable_trail s)
           (Viable.viable_i :: Viable.s_trail s) (Viable.m_ineq_cache s) (Viable.s_conflict s).
Proof.
  unfold Viable.push_viable. destruct (Viable.m_viable s !! v) as [d|]; [|done].
  intros [= <-]. by exists d.
Qed.

Lemma intersect_eq_domain a v b pol s s' d :
  Viable.intersect_eq a v b pol s = Ok s' ->
  Viable.m_viable s !! v = Some d ->
  Viable.m_viable s' !! v =
    Some (if fst (intersect_eq d a b pol) then snd (intersect_eq d a b pol)
          else snd (intersect_eq_budget (snd (intersect_eq d a b pol)) a b pol 10)).
Proof.
  unfold Viable.intersect_eq. intros H Hd.
  destruct (Viable.push_viable v s) as [s1|] eqn:Hp; [|done]. simpl in H.
  apply push_viable_inv in Hp as (d0 & Hd0 & ->). simpl in H.
  rewrite Hd in Hd0. injection Hd0 as <-. rewrite Hd in H.
  destruct (intersect_eq d a b pol) as [ok d1]. simpl.
  destruct ok.
  - apply conflict_if_empty_viable in H. rewrite H. by eapply lookup_set_viable.
  - destruct (intersect_eq_budget d1 a b pol 10) as [budget d2]. simpl.
    apply conflict_if_empty_viable in H. rewrite H.
    eapply lookup_set_viable. simpl. by eapply lookup_set_viable.
Qed.

Section Ule.
Variable size : pvar -> nat.
Variable fdd_sup : nat -> Viable.bdd -> Z -> option Z.
Variable set_ne : ViableSet.viable_set -> Z -> ViableSet.viable_set.

Lemma cache_lookup_repr k le s repr s1 :
  Viable.cache_lookup k le s = (repr, s1) ->
  Viable.m_viable s1 = Viable.m_viable s /\
  (repr = le \/ exists act, Viable.m_ineq_cache s !! k = Some (repr, act)).
Proof.
  unfold Viable.cache_lookup.
  destruct (Viable.m_ineq_cache s !! k) as [[r act]|] eqn:Hk; simpl; intros [= <- <-];
    (split; [done|]); eauto.
Qed.

Lemma intersect_ule_domain v a b c e pol s s' d :
  cache_ok s ->
  Viable.intersect_ule size fdd_sup set_ne v a b c e pol s = Ok s' ->
  Viable.m_viable s !! v = Some d ->
  exists d',
    Viable.m_viable s' !! v = Some d' /\
    let r := intersect_ule d a b c e pol in
    let r2 := intersect_ule_budget (snd r) a b c e pol 10 in
    (fst r = true /\ d' = snd r) \/
    (fst r = false /\ d' = snd r2) \/
    (fst r = false /\ fst r2 = O /\ exists gt bound,
        (forall x, gt x = negb (eval_ule (mk_viable_set (size v) 0 0 false) a b c e pol x)) /\
        fdd_sup (size v) gt (lo (snd r2)) = Some bound /\
        d' = set_ne (set_lo (snd r2) bound) bound).
Proof.
  unfold Viable.intersect_ule. intros Hcache H Hd.
  destruct (Viable.push_viable v s) as [s1|] eqn:Hp; [|done]. simpl in H.
  apply push_viable_inv in Hp as (d0 & Hd0 & ->). simpl in H.
  rewrite Hd in Hd0. injection Hd0 as <-. rewrite Hd in H.
  destruct (intersect_ule d a b c e pol) as [ok d1]. simpl.
  destruct ok.
  { apply conflict_if_empty_viable in H. eexists. split.
    - rewrite H. by eapply lookup_set_viable.
    - by left. }
  destruct (intersect_ule_budget d1 a b c e pol 10) as [budget d2]. simpl.
  destruct budget as [|budget'].
  2:{ apply conflict_if_empty_viable in H. eexists. split.
      - rewrite H. eapply lookup_set_viable. simpl. by eapply lookup_set_viable.
      - right. by left. }
  match type of H with context [Viable.cache_lookup ?k ?le ?s0] =>
    destruct (Viable.cache_lookup k le s0) as [repr s3] eqn:Hcl end.
  apply cache_lookup_repr in Hcl as [Hv Hrepr].
  assert (Hr : forall x, repr x = Viable.ule_bdd (size v) a b c e x).
  { destruct Hrepr as [->|[act Hact]]; [done|]. simpl in Hact. by eapply Hcache. }
  assert (Hl3 : Viable.m_viable s3 !! v = Some d2).
  { rewrite Hv. eapply lookup_set_viable. simpl. by eapply lookup_set_viable. }
  match type of H with context [fdd_sup ?sz ?gt ?l] =>
    destruct (fdd_sup sz gt l) as [bound|] eqn:Hsup end.
  - apply conflict_if_empty_viable in H. eexists. split.
    + rewrite H. by eapply lookup_set_viable.
    + right. right. split; [done|]. split; [done|].
      eexists _, bound. split; [|split; [exact Hsup|done]].
      intros x. unfold eval_ule, p2. simpl.
      destruct pol; simpl; rewrite Hr; unfold Viable.ule_bdd; by destruct (_ <=? _).
  - apply conflict_if_empty_viable in H. eexists. split.
    + rewrite H. exact Hl3.
    + right. by left.
Qed.

End Ule.

Lemma set_lo_bits s b : m_num_bits (set_lo s b) = m_num_bits s.
Proof. unfold set_lo. by repeat case_match. Qed.

Lemma point_bits s p pol : m_num_bits (intersect_eq_point s p pol) = m_num_bits s.
Proof. unfold intersect_eq_point. by repeat case_match. Qed.

Lemma intersect_eq_even s a b pol :
  Z.odd a = false -> intersect_eq s a b pol = (false, s).
Proof. intros H. unfold intersect_eq. by rewrite H. Qed.

Lemma intersect_ule_no_shape s a b c d pol :
  ule_shape a b c d = false -> intersect_ule s a b c d pol = (false, s).
Proof.
  unfold ule_shape, intersect_ule. intros H.
  apply orb_false_iff in H as [H H3]. apply orb_false_iff in H as [H1 H2].
  by rewrite H1, H2, H3.
Qed.

Lemma intersect_ule_failed s a b c d pol :
  fst (intersect_ule s a b c d pol) = false -> snd (intersect_ule s a b c d pol) = s.
Proof.
  unfold intersect_ule. repeat case_match; simpl; done.
Qed.

Lemma search_keeps eval budget s :
  wf s ->
  wf (snd (narrow eval budget s)) /\
  m_num_bits (snd (narrow eval budget s)) = m_num_bits s /\
  none_excluded s (snd (narrow eval budget s)) eval.
Proof.
  intros Hwf. rewrite narrow_spec by done.
  destruct (narrow_lo_spec eval budget s Hwf) as (H1 & H2 & H3 & _). auto.
Qed.

Lemma set_empty_wf s : wf (set_empty s).
Proof. by left. Qed.

Lemma free_wf w : wf (free w).
Proof. right. simpl. pose proof (p2_pos (free w)). lia. Qed.

Lemma intersect_ule_closed_wf s a b c d pol :
  wf s -> value_of s b -> value_of s d -> wf (snd (intersect_ule s a b c d pol)).
Proof.
  intros Hwf Hb Hd. unfold intersect_ule, value_of, is_max in *.
  repeat case_match; simpl; try done; try apply set_empty_wf;
    try (apply point_wf; done); try (apply set_hi_wf; [done|]);
    try (apply set_lo_wf; [done|]); unfold value_of; bool_cases.
Qed.

Lemma zero_not_interior s : wf s -> interior s 0 = false.
Proof.
  intros Hwf. destruct (interior s 0) eqn:Hi; [|done]. exfalso.
  unfold interior in Hi. apply andb_prop in Hi as [Hi _]. apply andb_prop in Hi as [Hi _].
  apply andb_prop in Hi as [Hc Hn]. apply negb_true_iff, Z.eqb_neq in Hn.
  pose proof (p2_pos s).
  assert (value_of s 0) by (unfold value_of; lia).
  pose proof (contains_lo_le s 0 Hwf ltac:(done) Hc).
  pose proof (contains_lo_nonneg s 0 Hwf Hc). lia.
Qed.

(** *** What remains after a closed form *)

Lemma set_hi_bits s d : m_num_bits (set_hi s d) = m_num_bits s.
Proof. unfold set_hi. by repeat case_match. Qed.

Lemma intersect_ule_bits s a b c d pol :
  m_num_bits (snd (intersect_ule s a b c d pol)) = m_num_bits s.
Proof.
  unfold intersect_ule.
  repeat case_match; simpl; rewrite ?point_bits, ?set_hi_bits, ?set_lo_bits; done.
Qed.

Lemma set_lo_remaining s b x :
  wf s -> value_of s b -> value_of s x -> contains (set_lo s b) x = true -> b <= x.
Proof.
  dom_open s as l h e P. intros Hwf Hb Hx. destruct e; simpl; [bool_cases|].
  destruct Hwf as [?|Hwf]; [congruence|]. bool_cases.
Qed.

Lemma set_hi_remaining s d x :
  wf s -> value_of s d -> value_of s x -> set_hi_prints s d = false ->
  contains (set_hi s d) x = true -> x <= d.
Proof.
  unfold set_hi_prints. dom_open s as l h e P. intros Hwf Hd Hx.
  destruct e; simpl; [bool_cases|].
  destruct Hwf as [?|Hwf]; [congruence|]. bool_cases.
Qed.

Lemma point_remaining s p (pol : bool) x :
  wf s -> value_of s p -> value_of s x ->
  pol || negb (interior s p) = true ->
  contains (intersect_eq_point s p pol) x = true ->
  (if pol then x =? p else negb (x =? p)) = true.
Proof.
  intros Hwf Hp Hx Hs Hin. destruct pol.
  - rewrite (point_positive s p Hp x Hx) in Hin. by apply andb_prop in Hin as [_ ?].
  - simpl in Hs. apply negb_true_iff in Hs.
    pose proof (point_negative s p Hwf Hp) as H. rewrite Hs in H.
    rewrite (H x Hx) in Hin. by apply andb_prop in Hin as [_ ?].
Qed.

Lemma eval_ule_zero s a (pol : bool) x :
  Z.odd a = true -> value_of s x ->
  eval_ule s a 0 0 0 pol x = (if pol then x =? 0 else negb (x =? 0)).
Proof.
  intros Hodd Hx. pose proof (p2_pos s) as HP.
  destruct (mult_inverse_odd (m_num_bits s) a Hodd) as (a_inv & _ & _ & Hinv).
  fold (p2 s) in Hinv.
  pose proof (unique_solution (p2 s) a a_inv 0 x HP Hinv Hx) as Hu.
  replace ((a_inv * - 0) mod p2 s) with 0 in Hu by (by rewrite Z.mul_0_r, Z.mod_0_l by lia).
  unfold eval_ule. rewrite Z.mul_0_l, Z.add_0_l, Z.mod_0_l by lia.
  pose proof (Z.mod_pos_bound (a * x + 0) (p2 s) HP).
  destruct (Z.eqb_spec x 0) as [->|Hne].
  - rewrite Z.mul_0_r, Z.add_0_l, Z.mod_0_l by lia. by destruct pol.
  - assert ((a * x + 0) mod p2 s <> 0) by (intros Hz; apply Hne; by apply Hu).
    destruct (Z.leb_spec ((a * x + 0) mod p2 s) 0); [lia|]. by destruct pol.
Qed.

(** A closed form of [intersect_ule] that does not end in the printing
    branch of [set_hi] leaves only values that satisfy the constraint. *)
Lemma intersect_ule_closed_satisfy s a b c d pol :
  wf s -> value_of s a -> value_of s b -> value_of s c -> value_of s d ->
  ule_settled s a b c d pol = true ->
  fst (intersect_ule s a b c d pol) = true /\
  remaining_satisfy (snd (intersect_ule s a b c d pol)) (eval_ule s a b c d pol).
Proof.
  intros Hwf Ha Hb Hc Hd Hset.
  assert (Hbits : forall x, value_of (snd (intersect_ule s a b c d pol)) x -> value_of s x).
  { intros x. unfold value_of, p2. by rewrite intersect_ule_bits. }
  pose proof (p2_pos s) as HP.
  unfold ule_settled in Hset. unfold intersect_ule in *.
  destruct (Z.odd a && (b =? 0) && (c =? 0) && (d =? 0)) eqn:H1.
  { split; [done|]. intros x Hx%Hbits Hin. simpl in Hin.
    apply andb_prop in H1 as [H1 ?]. apply andb_prop in H1 as [H1 ?].
    apply andb_prop in H1 as [Hodd ?].
    assert (b = 0 /\ c = 0 /\ d = 0) as (-> & -> & ->) by lia.
    rewrite eval_ule_zero by done.
    apply (point_remaining s 0 pol x); auto.
    rewrite zero_not_interior by done. by destruct pol. }
  destruct ((a =? 1) && (b =? 0) && (c =? 0)) eqn:H2.
  { apply andb_prop in H2 as [H2 ?]. apply andb_prop in H2 as [? ?].
    assert (a = 1 /\ b = 0 /\ c = 0) as (-> & -> & ->) by lia.
    assert (Hev : forall x, value_of s x ->
              eval_ule s 1 0 0 d pol x = eqb pol (x <=? d)).
    { intros x Hx. unfold eval_ule.
      replace (1 * x + 0) with x by lia. replace (0 * x + d) with d by lia.
      by rewrite !mod_value. }
    destruct pol; simpl in Hset; simpl.
    - split; [done|]. intros x Hx%Hbits Hin. rewrite Hev by done. simpl.
      apply negb_true_iff in Hset.
      pose proof (set_hi_remaining s d x Hwf Hd Hx Hset Hin). bool_cases.
    - unfold is_max in *. destruct (Z.eqb_spec (d + 1) (p2 s)); simpl.
      + split; [done|]. intros x _ Hin. by rewrite contains_set_empty in Hin.
      + split; [done|]. intros x Hx%Hbits Hin. rewrite Hev by done. simpl.
        assert (Hd1 : value_of s (d + 1)) by (unfold value_of in *; lia).
        pose proof (set_lo_remaining s (d + 1) x Hwf Hd1 Hx Hin). bool_cases. }
  destruct ((a =? 0) && (c =? 1) && (d =? 0)) eqn:H3; [|done].
  apply andb_prop in H3 as [H3 ?]. apply andb_prop in H3 as [? ?].
  assert (a = 0 /\ c = 1 /\ d = 0) as (-> & -> & ->) by lia.
  assert (Hev : forall x, value_of s x ->
            eval_ule s 0 b 1 0 pol x = eqb pol (b <=? x)).
  { intros x Hx. unfold eval_ule.
    replace (0 * x + b) with b by lia. replace (1 * x + 0) with x by lia.
    by rewrite !mod_value. }
  destruct pol; simpl in Hset; simpl.
  - split; [done|]. intros x Hx%Hbits Hin. rewrite Hev by done. simpl.
    pose proof (set_lo_remaining s b x Hwf Hb Hx Hin). bool_cases.
  - destruct (Z.eqb_spec b 0); simpl in Hset; simpl.
    + split; [done|]. intros x _ Hin. by rewrite contains_set_empty in Hin.
    + split; [done|]. intros x Hx%Hbits Hin. rewrite Hev by done. simpl.
      apply negb_true_iff in Hset.
      assert (Hb1 : value_of s (b - 1)) by (unfold value_of in *; lia).
      pose proof (set_hi_remaining s (b - 1) x Hwf Hb1 Hx Hset Hin). bool_cases.
Qed.

(** The closed form of [intersect_eq] with an odd coefficient, when it
    does not end in the branch that prints "unhandled diseq". *)
Lemma intersect_eq_closed_satisfy s a b pol :
  wf s -> eq_settled s a b pol = true ->
  fst (intersect_eq s a b pol) = true /\
  remaining_satisfy (snd (intersect_eq s a b pol)) (eval_eq s a b pol).
Proof.
  intros Hwf Hset. unfold eq_settled in Hset.
  destruct (Z.odd a) eqn:Hodd; [|unfold mult_inverse in Hset; by rewrite Hodd in Hset].
  destruct (intersect_eq_odd s a b pol Hodd) as (a_inv & Hinv & Hdiv & ->).
  rewrite Hinv in Hset. split; [done|]. simpl.
  assert (Hp : value_of s ((a_inv * - b) mod p2 s)) by (apply Z.mod_pos_bound, p2_pos).
  intros x Hx Hin.
  assert (Hx' : value_of s x).
  { unfold value_of, p2 in *. by rewrite point_bits in Hx. }
  rewrite (sat_eq_point s a a_inv b pol x Hdiv Hx').
  by apply (point_remaining s _ pol x).
Qed.

(** *** Where the bounded search stops *)

Lemma search_stops eval budget s :
  wf s -> fst (narrow eval budget s) <> O ->
  lowest_settled (snd (narrow eval budget s)) eval.
Proof.
  intros Hwf Hb. rewrite narrow_spec by done.
  destruct (narrow_lo_spec eval budget s Hwf) as (_ & _ & _ & [H0|H]); [|exact H].
  exfalso. apply Hb. unfold narrow.
  destruct (narrow_lo eval budget s) as [b1 s1]. simpl in H0. by subst b1.
Qed.

(** *** The two mutators return *)

Lemma conflict_if_empty_returns (v : pvar) s :
  (v < length (Viable.m_viable s))%nat -> exists s', Viable.conflict_if_empty v s = Ok s'.
Proof.
  intros H. unfold Viable.conflict_if_empty.
  destruct (Viable.m_viable s !! v) eqn:Hv; [by eexists|].
  apply lookup_ge_None in Hv. unfold pvar in *. lia.
Qed.

Lemma intersect_eq_returns a v b pol s d :
  Viable.m_viable s !! v = Some d -> exists s', Viable.intersect_eq a v b pol s = Ok s'.
Proof.
  intros Hd. apply lookup_lt_Some in Hd as Hlt.
  unfold Viable.intersect_eq, Viable.push_viable. rewrite Hd. simpl. rewrite Hd.
  destruct (intersect_eq d a b pol) as [ok d1]. destruct ok.
  - apply conflict_if_empty_returns. simpl. by rewrite length_insert.
  - destruct (intersect_eq_budget d1 a b pol 10) as [budget d2].
    apply conflict_if_empty_returns. simpl. by rewrite !length_insert.
Qed.

Lemma intersect_ule_returns size fdd_sup set_ne v a b c e pol s d :
  Viable.m_viable s !! v = Some d ->
  exists s', Viable.intersect_ule size fdd_sup set_ne v a b c e pol s = Ok s'.
Proof.
  intros Hd. apply lookup_lt_Some in Hd as Hlt.
  unfold Viable.intersect_ule, Viable.push_viable. rewrite Hd. simpl. rewrite Hd.
  destruct (intersect_ule d a b c e pol) as [ok d1]. destruct ok.
  { apply conflict_if_empty_returns. simpl. by rewrite length_insert. }
  destruct (intersect_ule_budget d1 a b c e pol 10) as [budget d2].
  destruct budget as [|budget'].
  2:{ apply conflict_if_empty_returns. simpl. by rewrite !length_insert. }
  unfold Viable.cache_lookup. destruct (default _ _) as [repr act].
  destruct (fdd_sup _ _ _) as [bound|];
    apply conflict_if_empty_returns; simpl; by rewrite !length_insert.
Qed.

(** *** The step that follows the diagram *)

(** [set_lo(bound); set_ne(bound)] after [sup] has found that every value
    from [lo] up to [bound] violates the constraint. *)
Lemma lower_bound_keeps (set_ne : viable_set -> Z -> viable_set)
    (s d2 : viable_set) (sat gt : Z -> bool) (bound : Z) :
  ne_sound set_ne -> wf d2 -> m_num_bits d2 = m_num_bits s ->
  none_excluded s d2 sat ->
  (forall x, gt x = negb (sat x)) ->
  lo d2 <= bound < p2 d2 ->
  (forall x, lo d2 <= x <= bound -> gt x = true) ->
  wf (set_ne (set_lo d2 bound) bound) /\
  none_excluded s (set_ne (set_lo d2 bound) bound) sat.
Proof.
  intros Hne Hwf2 Hbits Hkeep Hgt Hvb0 Htrue.
  assert (Hv2 : forall x, value_of s x -> value_of d2 x).
  { intros x. unfold value_of, p2. by rewrite Hbits. }
  assert (Hv3 : forall x, value_of d2 x -> value_of (set_lo d2 bound) x).
  { intros x. unfold value_of, p2. by rewrite set_lo_bits. }
  destruct (Hne (set_lo d2 bound) bound) as [Hnoop Hpoint].
  split.
  - destruct (decide (emp d2 = true)) as [Hemp|Hemp].
    + assert (He2 : emp (set_lo d2 bound) = true).
      { unfold set_lo. repeat case_match; simpl; done. }
      rewrite Hnoop; [by left|]. unfold contains, is_empty. by rewrite He2.
    + assert (Hvb : value_of d2 bound).
      { destruct Hwf2 as [?|?]; [done|]. unfold value_of. lia. }
      apply Hpoint; [by apply set_lo_wf | by apply Hv3].
  - intros x Hx Hin Hsat.
    assert (Hin2 : contains d2 x = true) by (by apply Hkeep).
    pose proof (contains_lo_le d2 x Hwf2 (Hv2 x Hx) Hin2) as Hlo.
    pose proof (contains_lo_nonneg d2 x Hwf2 Hin2) as Hlo0.
    assert (Hvb : value_of d2 bound) by (unfold value_of; lia).
    assert (bound < x).
    { destruct (decide (x <= bound)); [|lia].
      specialize (Htrue x ltac:(lia)). rewrite Hgt, Hsat in Htrue. done. }
    destruct Hpoint as [_ Hsame]; [by apply set_lo_wf | by apply Hv3 |].
    rewrite Hsame; [|by apply Hv3, Hv2 | lia].
    apply set_lo_keeps; auto; lia.
Qed.

(** C2 (amended): on a well-formed domain of [v], [viable::intersect_eq]
    and [viable::intersect_ule] (with coefficients among the values of the
    width) return, exclude no value that satisfies the asserted constraint
    under modular arithmetic for the polarity, and leave a well-formed
    domain. Every value that remains satisfies the constraint when a closed
    form settles the call without ending in a branch that only prints:
    [intersect_eq] with an odd [a], unless it is a disequality whose solution
    is an interior value of the domain; [intersect_ule] with one of the three
    shapes, unless it reaches [set_hi] on a domain that is not free and runs
    to the top of the range from a lower bound at or below the new one. When
    no closed form applies and the search ends with budget left, the domain
    is empty, or its lowest value satisfies the constraint or is the largest
    value of the width. [fdd_sup] and [set_ne] are any [sup] and [set_ne]
    that keep their promises, and the cache holds the diagrams of its keys. *)
Theorem narrowing_sound_where_settled
    (size : pvar -> nat) (fdd_sup : nat -> Viable.bdd -> Z -> option Z)
    (set_ne : viable_set -> Z -> viable_set)
    (s : Viable.viable) (v : pvar) (d : viable_set) :
  sup_sound fdd_sup -> ne_sound set_ne -> cache_ok s ->
  Viable.m_viable s !! v = Some d -> wf d -> size v = m_num_bits d ->
  (forall a b pol, exists s' d',
     Viable.intersect_eq a v b pol s = Ok s' /\
     Viable.m_viable s' !! v = Some d' /\
     wf d' /\
     none_excluded d d' (eval_eq d a b pol) /\
     (eq_settled d a b pol = true -> remaining_satisfy d' (eval_eq d a b pol)) /\
     (Z.odd a = false -> fst (intersect_eq_budget d a b pol 10) <> O ->
        lowest_settled d' (eval_eq d a b pol))) /\
  (forall a b c e pol,
     value_of d a -> value_of d b -> value_of d c -> value_of d e ->
     exists s' d',
       Viable.intersect_ule size fdd_sup set_ne v a b c e pol s = Ok s' /\
       Viable.m_viable s' !! v = Some d' /\
       wf d' /\
       none_excluded d d' (eval_ule d a b c e pol) /\
       (ule_settled d a b c e pol = true ->
          remaining_satisfy d' (eval_ule d a b c e pol)) /\
       (ule_shape a b c e = false -> fst (intersect_ule_budget d a b c e pol 10) <> O ->
          lowest_settled d' (eval_ule d a b c e pol))).
Proof.
  intros Hsup Hne Hcache Hd Hwf Hsize. split.
  - intros a b pol.
    destruct (intersect_eq_returns a v b pol s d Hd) as [s' Hrun].
    pose proof (intersect_eq_domain a v b pol s s' d Hrun Hd) as Hd'.
    eexists s', _. split; [exact Hrun|]. split; [exact Hd'|].
    destruct (Z.odd a) eqn:Hodd.
    + destruct (intersect_eq_odd d a b pol Hodd) as (a_inv & _ & Hdiv & Heq).
      assert (Hp : value_of d ((a_inv * - b) mod p2 d))
        by (apply Z.mod_pos_bound, p2_pos).
      split; [|split; [|split]].
      * rewrite Heq. cbn [fst snd]. by apply point_wf.
      * rewrite Heq. cbn [fst snd]. intros x Hx Hin Hsat. apply point_keeps; auto.
        by rewrite <- (sat_eq_point d a a_inv b pol x Hdiv Hx).
      * intros Hset.
        destruct (intersect_eq_closed_satisfy d a b pol Hwf Hset) as [-> Hrem]. exact Hrem.
      * done.
    + rewrite (intersect_eq_even d a b pol Hodd). cbn [fst snd].
      unfold intersect_eq_budget.
      destruct (search_keeps (eval_eq d a b pol) 10 d Hwf) as (H1 & _ & H3).
      split; [exact H1|]. split; [exact H3|]. split.
      * intros Hset. unfold eq_settled, mult_inverse in Hset. by rewrite Hodd in Hset.
      * intros _ Hb. by apply search_stops.
  - intros a b c e pol Ha Hb Hc He.
    destruct (intersect_ule_returns size fdd_sup set_ne v a b c e pol s d Hd) as [s' Hrun].
    destruct (intersect_ule_domain size fdd_sup set_ne v a b c e pol s s' d Hcache Hrun Hd)
      as (d' & Hd' & Hcases).
    exists s', d'. split; [exact Hrun|]. split; [exact Hd'|]. cbv zeta in Hcases.
    pose proof (intersect_ule_closed_satisfy d a b c e pol Hwf Ha Hb Hc He) as Hset.
    pose proof (intersect_ule_no_shape d a b c e pol) as Hshape.
    destruct Hcases as [[Hok ->]|[[Hok ->]|(Hok & Hbud & gt & bound & Hgt & Hb' & ->)]].
    + split; [by apply intersect_ule_closed_wf|].
      split; [by apply intersect_ule_closed_keeps|]. split.
      * intros H. by apply Hset.
      * intros H. rewrite Hshape in Hok by done. done.
    + rewrite (intersect_ule_failed _ _ _ _ _ _ Hok). unfold intersect_ule_budget.
      destruct (search_keeps (eval_ule d a b c e pol) 10 d Hwf) as (H1 & _ & H3).
      split; [exact H1|]. split; [exact H3|]. split.
      * intros H. destruct (Hset H) as [Hok' _]. congruence.
      * intros _ Hleft. by apply search_stops.
    + rewrite (intersect_ule_failed _ _ _ _ _ _ Hok) in *.
      unfold intersect_ule_budget in *.
      destruct (search_keeps (eval_ule d a b c e pol) 10 d Hwf) as (Hwf2 & Hbits & Hkeep).
      destruct (Hsup _ _ _ _ Hb') as [Hrange Htrue].
      assert (Hgt' : forall x, gt x = negb (eval_ule d a b c e pol x)).
      { intros x. rewrite Hgt. unfold eval_ule, p2. cbn [m_num_bits]. by rewrite Hsize. }
      destruct (lower_bound_keeps set_ne d (snd (narrow (eval_ule d a b c e pol) 10 d))
                  (eval_ule d a b c e pol) gt bound Hne Hwf2 Hbits Hkeep Hgt') as [Hwf3 Hkeep3].
      { unfold p2. rewrite Hbits, <- Hsize. exact Hrange. }
      { exact Htrue. }
      split; [exact Hwf3|]. split; [exact Hkeep3|]. split.
      * intros H. destruct (Hset H) as [Hok' _]. congruence.
      * intros _ Hleft. done.
Qed.

Lemma narrowing_sound_where_settled_witness :
  let d := mk_viable_set 4 5 12 false in
  (exists s' d',
     Viable.intersect_eq 3 0%nat 1 false (one_domain d) = Ok s' /\
     Viable.m_viable s' !! 0%nat = Some d' /\
     wf d' /\
     none_excluded d d' (eval_eq d 3 1 false) /\
     remaining_satisfy d' (eval_eq d 3 1 false)) /\
  (exists s' d',
     Viable.intersect_eq 2 0%nat 12 true (one_free 4) = Ok s' /\
     Viable.m_viable s' !! 0%nat = Some d' /\
     wf d' /\
     none_excluded (free 4) d' (eval_eq (free 4) 2 12 true) /\
     lowest_settled d' (eval_eq (free 4) 2 12 true)) /\
  (exists s' d',
     Viable.intersect_ule (fun _ => 4%nat) scan_sup point_ne 0%nat 1 0 0 9 true
       (one_domain d) = Ok s' /\
     Viable.m_viable s' !! 0%nat = Some d' /\
     wf d' /\
     none_excluded d d' (eval_ule d 1 0 0 9 true) /\
     remaining_satisfy d' (eval_ule d 1 0 0 9 true)) /\
  (exists s' d',
     Viable.intersect_ule (fun _ => 4%nat) scan_sup point_ne 0%nat 1 13 0 14 false
       (one_free 4) = Ok s' /\
     Viable.m_viable s' !! 0%nat = Some d' /\
     wf d' /\
     none_excluded (free 4) d' (eval_ule (free 4) 1 13 0 14 false) /\
     lowest_settled d' (eval_ule (free 4) 1 13 0 14 false)) /\
  (exists s' d',
     Viable.intersect_ule (fun _ => 4%nat) scan_sup point_ne 0%nat 1 3 0 14 false
       (one_free 4) = Ok s' /\
     Viable.m_viable s' !! 0%nat = Some d' /\
     wf d' /\
     none_excluded (free 4) d' (eval_ule (free 4) 1 3 0 14 false)).
Proof.
  intros d.
  assert (Hcache : forall d0, cache_ok (one_domain d0)).
  { intros d0 sz a b c e repr act H. simpl in H. by rewrite lookup_empty in H. }
  assert (Hwf : wf d).
  { right. vm_compute. repeat split; (congruence || (right; reflexivity)). }
  destruct (narrowing_sound_where_settled (fun _ => 4%nat) scan_sup point_ne
              (one_domain d) 0%nat d scan_sup_sound point_ne_sound (Hcache d)
              eq_refl Hwf eq_refl) as [Heq1 Hule1].
  destruct (narrowing_sound_where_settled (fun _ => 4%nat) scan_sup point_ne
              (one_free 4) 0%nat (free 4) scan_sup_sound point_ne_sound (Hcache (free 4))
              eq_refl (free_wf 4) eq_refl) as [Heq2 Hule2].
  split; [|split; [|split; [|split]]].
  - destruct (Heq1 3 1 false) as (s' & d' & H1 & H2 & H3 & H4 & H5 & _).
    exists s', d'. split; [exact H1|]. split; [exact H2|]. split; [exact H3|].
    split; [exact H4|]. apply H5. vm_compute. reflexivity.
  - destruct (Heq2 2 12 true) as (s' & d' & H1 & H2 & H3 & H4 & _ & H6).
    exists s', d'. split; [exact H1|]. split; [exact H2|]. split; [exact H3|].
    split; [exact H4|]. apply H6; [reflexivity|]. vm_compute. discriminate.
  - destruct (Hule1 1 0 0 9 true) as (s' & d' & H1 & H2 & H3 & H4 & H5 & _);
      [vm_compute; split; congruence ..|].
    exists s', d'. split; [exact H1|]. split; [exact H2|]. split; [exact H3|].
    split; [exact H4|]. apply H5. vm_compute. reflexivity.
  - destruct (Hule2 1 13 0 14 false) as (s' & d' & H1 & H2 & H3 & H4 & _ & H6);
      [vm_compute; split; congruence ..|].
    exists s', d'. split; [exact H1|]. split; [exact H2|]. split; [exact H3|].
    split; [exact H4|]. apply H6; [reflexivity|]. vm_compute. discriminate.
  - destruct (Hule2 1 3 0 14 false) as (s' & d' & H1 & H2 & H3 & H4 & _);
      [vm_compute; split; congruence ..|].
    exists s', d'. split; [exact H1|]. split; [exact H2|]. split; [exact H3|]. exact H4.
Defined.

Lemma narrowing_not_sound : ~ sound_intersect_eq (one_free 4) 2 0%nat 0 true.
Proof.
  intros H.
  destruct (H (Viable.mk_viable [free 4] [(0%nat, free 4)] [Viable.viable_i] ∅ [])
              (free 4) (free 4)) as [Hrem _]; try reflexivity.
  specialize (Hrem 1). unfold value_of in Hrem. vm_compute in Hrem.
  assert (false = true) by (apply Hrem; [split|]; congruence). done.
Qed.

(** The calls that the amended statement sets apart do leave values that
    violate the constraint: a disequality whose solution is an interior value
    (width 3, free domain, [x + 6 <> 0] keeps 2); [x <= 5] on the domain
    [2..255] of width 8, which [set_hi] leaves as it is; and a search that
    stops with budget left (width 4, free domain, [x + 13 > 14] leaves
    [2..15]). *)
Lemma narrowing_exceptions_violate (set_ne : viable_set -> Z -> viable_set) :
  ~ sound_intersect_eq (one_free 3) 1 0%nat 6 false /\
  ~ sound_intersect_ule (fun _ => 8%nat) scan_sup set_ne
      (one_domain (mk_viable_set 8 2 0 false)) 0%nat 1 0 0 5 true /\
  ~ sound_intersect_ule (fun _ => 4%nat) scan_sup set_ne (one_free 4) 0%nat 1 13 0 14 false.
Proof.
  split; [|split]; intros H.
  - edestruct H as [Hrem _];
      [vm_compute; reflexivity | reflexivity | vm_compute; reflexivity | reflexivity |].
    specialize (Hrem 2). unfold value_of in Hrem. vm_compute in Hrem.
    assert (false = true) by (apply Hrem; [split|]; congruence). done.
  - edestruct H as [Hrem _];
      [vm_compute; reflexivity | reflexivity | vm_compute; reflexivity | reflexivity |].
    specialize (Hrem 6). unfold value_of in Hrem. vm_compute in Hrem.
    assert (false = true) by (apply Hrem; [split|]; congruence). done.
  - edestruct H as [Hrem _];
      [vm_compute; reflexivity | reflexivity | vm_compute; reflexivity | reflexivity |].
    specialize (Hrem 3). unfold value_of in Hrem. vm_compute in Hrem.
    assert (false = true) by (apply Hrem; [split|]; congruence). done.
Qed.

(** C10: when the closed form does not apply, that is [intersect_eq] with
    an even [a], or [intersect_ule] with coefficients of none of the three
    shapes, the call returns [false] and the domain, bounds and emptiness, is
    the one before the call. *)
Theorem fast_path_failure_leaves_domain (s : viable_set) (a b c d : Z) (is_positive : bool) :
  (Z.odd a = false -> intersect_eq s a b is_positive = (false, s)) /\
  (ule_shape a b c d = false -> intersect_ule s a b c d is_positive = (false, s)).
Proof.
  split; [apply intersect_eq_even | apply intersect_ule_no_shape].
Qed.

Lemma fast_path_failure_leaves_domain_witness :
  intersect_eq (free 4) 2 1 true = (false, free 4) /\
  intersect_ule (free 4) 3 1 2 0 true = (false, free 4).
Proof.
  destruct (fast_path_failure_leaves_domain (free 4) 2 1 2 0 true) as [H1 H2].
  split; [apply H1 | apply (fast_path_failure_leaves_domain (free 4) 3 1 2 0 true)];
    reflexivity.
Defined.

(** C6 (amended): for an odd [a], [intersect_eq(a, b, is_positive)] on a
    well-formed set returns [true] with the set met with the point
    [p = a^-1 * (-b) mod 2^w] by [intersect_eq_point], no search involved;
    [p] is the one solution of [a*x + b = 0]. With positive polarity the
    result is the set intersected with exactly [{p}]. With negative polarity
    it is the set without [p] when [p] is outside the set or is its lowest or
    highest value, and the set unchanged when [p] is an interior value. *)
Theorem odd_coefficient_point (s : viable_set) (a b : Z) (is_positive : bool) :
  wf s -> Z.odd a = true ->
  exists a_inv,
    mult_inverse (m_num_bits s) a = Some a_inv /\
    (a * a_inv) mod p2 s = 1 mod p2 s /\
    let p := (a_inv * - b) mod p2 s in
    (forall x, value_of s x -> (a * x + b) mod p2 s = 0 <-> x = p) /\
    intersect_eq s a b is_positive = (true, intersect_eq_point s p is_positive) /\
    (is_positive = true -> meets_point s (intersect_eq_point s p true) p true) /\
    (is_positive = false ->
       if interior s p then intersect_eq_point s p false = s
       else meets_point s (intersect_eq_point s p false) p false).
Proof.
  intros Hwf Hodd.
  destruct (intersect_eq_odd s a b is_positive Hodd) as (a_inv & Hinv & Hdiv & Heq).
  pose proof (p2_pos s) as HP.
  assert (Hp : value_of s ((a_inv * - b) mod p2 s)) by (by apply Z.mod_pos_bound).
  exists a_inv. split; [done|]. split.
  { destruct Hdiv as [k Hk]. replace (a * a_inv) with (1 + k * p2 s) by lia.
    by rewrite Z.mod_add by lia. }
  simpl. split; [|split; [done|split]].
  - intros x Hx. by apply unique_solution.
  - intros _. by apply point_positive.
  - intros _. by apply point_negative.
Qed.

Lemma odd_coefficient_point_witness :
  exists a_inv,
    mult_inverse 4 3 = Some a_inv /\
    (3 * a_inv) mod 16 = 1 mod 16 /\
    let p := (a_inv * - 1) mod 16 in
    (forall x, value_of (free 4) x -> (3 * x + 1) mod 16 = 0 <-> x = p) /\
    intersect_eq (free 4) 3 1 false = (true, intersect_eq_point (free 4) p false) /\
    (false = true -> meets_point (free 4) (intersect_eq_point (free 4) p true) p true) /\
    (false = false ->
       if interior (free 4) p then intersect_eq_point (free 4) p false = free 4
       else meets_point (free 4) (intersect_eq_point (free 4) p false) p false).
Proof.
  apply (odd_coefficient_point (free 4) 3 1 false).
  - right. vm_compute. repeat split; (congruence || (left; reflexivity)).
  - reflexivity.
Defined.

Lemma disequality_not_exact : ~ exact_point_intersection (free 3) 1 6 false.
Proof.
  intros (a_inv & Hinv & _ & Hmeet).
  vm_compute in Hinv. injection Hinv as <-.
  specialize (Hmeet 2). vm_compute in Hmeet.
  assert (true = false) by (apply Hmeet; split; congruence). done.
Qed.

(** C3 (the code at the failing input): at width 8, after [v <= 5] has
    left the domain [0..5], asserting [v <= 9] through [intersect_ule] runs
    [set_hi 9] and leaves [0..9], which is not a subset of [0..5]. *)
Theorem set_hi_widens (set_ne : viable_set -> Z -> viable_set) :
  exists s1 s2 d1 d2,
    Viable.intersect_ule (fun _ => 8%nat) scan_sup set_ne 0%nat 1 0 0 5 true (one_free 8)
      = Ok s1 /\
    Viable.intersect_ule (fun _ => 8%nat) scan_sup set_ne 0%nat 1 0 0 9 true s1 = Ok s2 /\
    Viable.m_viable s1 !! 0%nat = Some d1 /\
    Viable.m_viable s2 !! 0%nat = Some d2 /\
    d1 = mk_viable_set 8 0 6 false /\
    d2 = mk_viable_set 8 0 10 false /\
    d2 = set_hi d1 9 /\
    wf d1 /\
    ~ shrinks d1 d2.
Proof.
  eexists _, _, _, _. eval_conj.
  - right. vm_compute. repeat split; (congruence || (right; reflexivity)).
  - intros H. specialize (H 7). vm_compute in H.
    assert (false = true) by (apply H; [split|]; congruence). done.
Qed.

(** C7 (the code at the failing input): at width 4, on a free domain,
    [viable::intersect_eq(2, v, 1, true)] has no closed form, spends the ten
    probes, and returns with the domain [10..15] although no value satisfies
    [2*x + 1 = 0]; no conflict is set and no diagram is computed. *)
Theorem budget_used_silently :
  exists s' d',
    Viable.intersect_eq 2 0%nat 1 true (one_free 4) = Ok s' /\
    fst (intersect_eq (free 4) 2 1 true) = false /\
    fst (intersect_eq_budget (free 4) 2 1 true 10) = O /\
    Viable.m_viable s' !! 0%nat = Some d' /\
    d' = mk_viable_set 4 10 0 false /\
    is_empty d' = false /\
    Viable.s_conflict s' = [] /\
    Viable.m_ineq_cache s' = ∅ /\
    contains d' 11 = true /\
    (forall x, value_of d' x -> eval_eq (free 4) 2 1 true x = false).
Proof.
  eexists _, _. eval_conj.
  intros x _. unfold eval_eq, p2.
  change (2 ^ Z.of_nat (m_num_bits (free 4))) with 16.
  destruct (Z.eqb_spec ((2 * x + 1) mod 16) 0) as [H|]; [|done].
  apply Z.mod_divide in H; [|done]. destruct H as [k Hk]. lia.
Qed.

End DomainFacts.

(** ** The trail, interning and the engines *)

Module TrailFacts.
Import LinearSolver Trail System Examples DomainFacts.

Section Basics.
Context {F St : Type} {E : fixplex_base F St}.
Implicit Types s t : linear_solver F.

Lemma lookup_reserve {A : Type} (n : nat) (d : A) (l : list A) (i : nat) :
  reserve n d l !! i =
    if decide (i < length l)%nat then l !! i
    else if decide (i < n)%nat then Some d else None.
Proof.
  unfold reserve. case_decide.
  - by rewrite lookup_app_l.
  - rewrite lookup_app_r by lia. case_decide.
    + apply lookup_replicate_2. lia.
    + apply lookup_replicate_None. lia.
Qed.

Lemma length_reserve {A : Type} (n : nat) (d : A) (l : list A) :
  (n <= length (reserve n d l))%nat.
Proof. unfold reserve. rewrite length_app, length_replicate. lia. Qed.

Lemma fix_get_lt s sz b : fix_get s sz = Some b -> (sz < length (m_fix s))%nat.
Proof.
  unfold fix_get. destruct (m_fix s !! sz) eqn:H; [|done].
  intros _. by eapply lookup_lt_Some.
Qed.

Lemma fix_get_fix_set sz b s sz' :
  fix_get (fix_set sz b s) sz' = if decide (sz = sz') then Some b else fix_get s sz'.
Proof.
  unfold fix_get, fix_set. simpl. rewrite list_lookup_insert.
  pose proof (length_reserve (S sz) None (m_fix s)).
  case_decide as Hd.
  - destruct Hd as [-> _]. by rewrite decide_True.
  - rewrite decide_False by (intros ->; apply Hd; split; [done|lia]).
    rewrite lookup_reserve. case_decide; [done|].
    rewrite (lookup_ge_None_2 (m_fix s) sz') by lia. by case_decide.
Qed.

Lemma fix_get_fix_put sz b b0 s sz' :
  fix_get s sz = Some b0 ->
  fix_get (fix_put sz b s) sz' = if decide (sz = sz') then Some b else fix_get s sz'.
Proof.
  intros H%fix_get_lt. unfold fix_get, fix_put. simpl. rewrite list_lookup_insert.
  case_decide as Hd.
  - destruct Hd as [-> _]. by rewrite decide_True.
  - rewrite decide_False; [done|]. intros ->. apply Hd. done.
Qed.

(** *** [agrees] is a preorder *)

Lemma counter_covers_refl a : counter_covers a a.
Proof. by left. Qed.
Lemma counter_covers_trans a b c :
  counter_covers a b -> counter_covers b c -> counter_covers a c.
Proof. intros [->|[-> ->]] [<-|[? ->]]; unfold counter_covers; auto; done. Qed.

Lemma engine_covers_refl sz a : engine_covers (E := E) sz a a.
Proof. by destruct a. Qed.
Lemma engine_covers_trans sz a b c :
  engine_covers (E := E) sz a b -> engine_covers sz b c -> engine_covers sz a c.
Proof.
  destruct a, b, c; simpl; try done; try congruence.
  intros (k & Hk & H1) H2. exists k. split; [done|]. congruence.
Qed.

Lemma agrees_refl s : agrees (E := E) s s.
Proof.
  split; auto using counter_covers_refl, engine_covers_refl.
Qed.
Lemma agrees_trans s t u : agrees (E := E) s t -> agrees t u -> agrees s u.
Proof.
  intros [] []. split; try congruence.
  - intros sz. eapply counter_covers_trans; eauto.
  - intros sz. eapply engine_covers_trans; eauto.
Qed.
Lemma covers_refl s : covers (E := E) s s.
Proof. split; [done | apply agrees_refl]. Qed.
Lemma covers_trans s t u : covers (E := E) s t -> covers t u -> covers s u.
Proof. intros [? ?] [? ?]. split; [congruence | by eapply agrees_trans]. Qed.

(** *** One engine call of the undo loop *)

Lemma engine_call_run sz (f : F -> F) s :
  (sz2fixplex sz ;;; fp_call sz f ;;; pop_row) s =
    match fix_get s sz with
    | Some b => Ok (tt, set_rows (tail (m_rows s)) (fix_put sz (f b) s))
    | None =>
        match ext_of sz with
        | Some k =>
            Ok (tt, set_rows (tail (m_rows s))
                      (fix_put sz (f (fp_alloc k)) (fix_set sz (fp_alloc k) s)))
        | None => Err not_implemented_yet
        end
    end.
Proof.
  unfold bind, sz2fixplex, fp_call, pop_row, modify.
  destruct (fix_get s sz) as [b|] eqn:Hg.
  - by rewrite Hg.
  - destruct (ext_of sz) as [k|]; [|done].
    by rewrite fix_get_fix_set, decide_True.
Qed.
End Basics.

Section UndoFacts.
Context {F St : Type} {E : fixplex_base F St} {L : fixplex_lifo E}.
Implicit Types s t : linear_solver F.

Lemma fix_get_set_rows r s sz : fix_get (set_rows r s) sz = fix_get s sz.
Proof. done. Qed.

Lemma bind_back_row {A : Type} (k : var_t * nat -> call (linear_solver F) A) s :
  (r <- back_row ;; k r) s =
    match m_rows s with
    | r :: _ => k r s
    | [] => Err out_of_range
    end.
Proof. unfold bind, back_row. by destruct (m_rows s). Qed.

Lemma engine_call_mono sz (f : F -> F) s t s1 :
  (forall e e', fp_store e = fp_store e' -> fp_store (f e) = fp_store (f e')) ->
  agrees s t ->
  (sz2fixplex sz ;;; fp_call sz f ;;; pop_row) s = Ok (tt, s1) ->
  exists t1, (sz2fixplex sz ;;; fp_call sz f ;;; pop_row) t = Ok (tt, t1) /\ agrees s1 t1.
Proof.
  intros Hf Hst. rewrite !engine_call_run.
  pose proof (agrees_engines _ _ Hst sz) as He.
  destruct Hst as [Hrows Htbl Hms Hcs Hes].
  assert (Hgen : forall (b b' : F) s' t',
    fp_store b = fp_store b' ->
    (forall sz', fix_get s' sz' = if decide (sz = sz') then Some (f b) else fix_get s sz') ->
    (forall sz', fix_get t' sz' = if decide (sz = sz') then Some (f b') else fix_get t sz') ->
    m_sz2num_vars s' = m_sz2num_vars s -> m_sz2num_vars t' = m_sz2num_vars t ->
    m_mono2var s' = m_mono2var s -> m_mono2var t' = m_mono2var t ->
    m_monomials s' = m_monomials s -> m_monomials t' = m_monomials t ->
    m_rows s' = tail (m_rows s) -> m_rows t' = tail (m_rows t) ->
    agrees s' t').
  { intros b b' s' t' Hb Hs' Ht' Hc1 Hc2 ? ? ? ? ? ?. split; try congruence.
    - intros sz'. rewrite Hc1, Hc2. apply Hcs.
    - intros sz'. rewrite Hs', Ht'. case_decide; [simpl; auto|apply Hes]. }
  destruct (fix_get s sz) as [b|] eqn:Hgs, (fix_get t sz) as [b'|] eqn:Hgt;
    simpl in He; try done.
  - intros [= <-]. eexists. split; [done|].
    apply (Hgen b b'); try done; intros sz'; rewrite fix_get_set_rows;
      by erewrite fix_get_fix_put.
  - destruct He as (k & Hk & Hb'). rewrite Hk. intros [= <-]. eexists. split; [done|].
    apply (Hgen (fp_alloc k) b'); try done; intros sz'.
    + rewrite fix_get_set_rows.
      erewrite fix_get_fix_put by (by rewrite fix_get_fix_set, decide_True).
      rewrite fix_get_fix_set. by case_decide.
    + rewrite fix_get_set_rows. by erewrite fix_get_fix_put.
  - destruct (ext_of sz) as [k|]; [|done]. intros [= <-]. eexists. split; [done|].
    apply (Hgen (fp_alloc k) (fp_alloc k)); try done; intros sz';
      rewrite fix_get_set_rows;
      (erewrite fix_get_fix_put by (by rewrite fix_get_fix_set, decide_True));
      rewrite fix_get_fix_set; by case_decide.
Qed.

Lemma undo_mono e s t u s1 :
  agrees s t -> undo e s = Ok (u, s1) ->
  exists t1, undo e t = Ok (u, t1) /\ agrees s1 t1.
Proof.
  intros Hst. destruct u.
  destruct e; unfold undo.
  - intros [= <-]. by exists t.
  - unfold bind, back_row, pop_row, modify.
    rewrite <- (agrees_rows _ _ Hst). destruct (m_rows s) as [|r rs] eqn:Hr; [done|].
    destruct (m_sz2num_vars s !! r.2) as [c|] eqn:Hc; [|done].
    destruct (agrees_counters _ _ Hst r.2) as [Hc'|[Hc' _]]; [|congruence].
    rewrite <- Hc', Hc. intros [= <-]. eexists. split; [done|].
    destruct Hst as [Hrows Htbl Hms Hcs Hes].
    split; simpl; try congruence; try exact Hes.
    intros sz. rewrite !list_lookup_insert.
    apply lookup_lt_Some in Hc as Hl1. rewrite Hc in Hc'. symmetry in Hc'.
    apply lookup_lt_Some in Hc' as Hl2.
    destruct (decide (r.2 = sz)) as [<-|].
    + rewrite !decide_True by done. by left.
    + rewrite !decide_False by (intros [? _]; done). apply Hcs.
  - rewrite <- (agrees_monomials _ _ Hst), <- (agrees_mono2var _ _ Hst).
    destruct (m_monomials s) as [|m ms] eqn:Hm; [done|].
    intros [= <-]. eexists. split; [done|].
    destruct Hst as [Hrows Htbl Hms Hcs Hes].
    split; simpl; try congruence; try exact Hes; exact Hcs.
  - rewrite !bind_back_row.
    rewrite <- (agrees_rows _ _ Hst). destruct (m_rows s) as [|r rs] eqn:Hr; [done|].
    apply engine_call_mono; [apply restore_bound_store | done].
  - rewrite !bind_back_row.
    rewrite <- (agrees_rows _ _ Hst). destruct (m_rows s) as [|r rs] eqn:Hr; [done|].
    apply engine_call_mono; [apply del_row_store | done].
  - rewrite !bind_back_row.
    rewrite <- (agrees_rows _ _ Hst). destruct (m_rows s) as [|r rs] eqn:Hr; [done|].
    apply engine_call_mono; [apply restore_ineq_store | done].
Qed.

Lemma agrees_set_trail tr s t : agrees s t -> agrees (set_trail tr s) (set_trail tr t).
Proof. intros []. by split. Qed.

Lemma pop_loop_mono tr n s t r :
  agrees s t -> pop_loop tr n s = Ok r ->
  exists r', pop_loop tr n t = Ok r' /\ covers r r'.
Proof.
  revert n s t. induction tr as [|e tr IH]; intros n s t Hst; destruct n as [|n]; simpl.
  - intros [= <-]. eexists. split; [done|]. split; [done|]. by apply agrees_set_trail.
  - done.
  - intros [= <-]. eexists. split; [done|]. split; [done|]. by apply agrees_set_trail.
  - destruct (undo e s) as [[[] s1]|] eqn:Hu; [|done].
    destruct (undo_mono e s t tt s1 Hst Hu) as (t1 & -> & Hst1).
    by apply IH.
Qed.

Lemma agrees_pops_like s t : m_trail s = m_trail t -> agrees s t -> pops_like s t.
Proof.
  intros Htr Hst n r. unfold LinearSolver.pop. rewrite <- Htr. by apply pop_loop_mono.
Qed.

Lemma pops_like_trans s t u : pops_like s t -> pops_like t u -> pops_like s u.
Proof.
  intros H1 H2 n r Hr. destruct (H1 n r Hr) as (r1 & Hr1 & Hc1).
  destruct (H2 n r1 Hr1) as (r2 & Hr2 & Hc2). exists r2. split; [done|].
  by eapply covers_trans.
Qed.

Lemma agrees_set_trail_r tr s : agrees s (set_trail tr s).
Proof.
  split; try done.
  - intros sz. apply counter_covers_refl.
  - intros sz. apply engine_covers_refl.
Qed.

(** Popping [a + b] levels is popping [a], then [b]. *)
Lemma pop_loop_split tr a b s r s' :
  pop_loop tr (a + b) s = Ok r -> pop_loop tr a s = Ok s' ->
  exists r', pop_loop (m_trail s') b s' = Ok r' /\ covers r r'.
Proof.
  revert a s. induction tr as [|e tr IH]; intros a s; destruct a as [|a].
  - change (0 + b)%nat with b. intros Hr [= <-].
    change (m_trail (set_trail [] s)) with (@nil trail_i).
    eapply pop_loop_mono; [apply agrees_set_trail_r | exact Hr].
  - done.
  - change (0 + b)%nat with b. intros Hr [= <-].
    change (m_trail (set_trail (e :: tr) s)) with (e :: tr).
    eapply pop_loop_mono; [apply agrees_set_trail_r | exact Hr].
  - simpl. destruct (undo e s) as [[[] s1]|] eqn:Hu; [|done].
    destruct e; [apply (IH a) | apply (IH (S a)) ..].
Qed.

(** *** Counters stay [unsigned] *)

Lemma uint_incr_range c : 0 <= uint_incr c < UINT_MOD.
Proof. apply Z.mod_pos_bound. done. Qed.
Lemma uint_decr_range c : 0 <= uint_decr c < UINT_MOD.
Proof. apply Z.mod_pos_bound. done. Qed.
Lemma uint_decr_incr c : 0 <= c < UINT_MOD -> uint_decr (uint_incr c) = c.
Proof.
  intros H. unfold uint_decr, uint_incr, UINT_MOD in *.
  destruct (decide (c + 1 = 2 ^ 32)) as [Heq|Hne].
  - rewrite Heq, Z.mod_same by done. change ((0 - 1) mod 2 ^ 32) with (2 ^ 32 - 1). lia.
  - rewrite (Z.mod_small (c + 1)) by lia. rewrite Z.mod_small; lia.
Qed.

Lemma undo_range e s u s1 :
  counters_in_range s -> undo e s = Ok (u, s1) -> counters_in_range s1.
Proof.
  unfold counters_in_range. intros Hs. destruct u. destruct e; unfold undo.
  - by intros [= <-].
  - unfold bind, back_row, pop_row, modify.
    destruct (m_rows s) as [|r rs]; [done|].
    destruct (m_sz2num_vars s !! r.2); [|done]. intros [= <-]. simpl.
    apply Forall_insert; [done | apply uint_decr_range].
  - destruct (m_monomials s); [done|]. by intros [= <-].
  - rewrite bind_back_row. destruct (m_rows s) as [|r rs]; [done|].
    rewrite engine_call_run. repeat case_match; try done; by intros [= <-].
  - rewrite bind_back_row. destruct (m_rows s) as [|r rs]; [done|].
    rewrite engine_call_run. repeat case_match; try done; by intros [= <-].
  - rewrite bind_back_row. destruct (m_rows s) as [|r rs]; [done|].
    rewrite engine_call_run. repeat case_match; try done; by intros [= <-].
Qed.

Lemma pop_loop_range tr n s r :
  counters_in_range s -> pop_loop tr n s = Ok r -> counters_in_range r.
Proof.
  revert n s. induction tr as [|e tr IH]; intros n s Hs; destruct n as [|n]; simpl;
    try done; try (by intros [= <-]).
  destruct (undo e s) as [[u s1]|] eqn:Hu; [|done].
  apply IH. by eapply undo_range.
Qed.

End UndoFacts.

Section StepFacts.
Context {F St : Type} {E : fixplex_base F St} {L : fixplex_lifo E}.
Implicit Types s t : linear_solver F.

Lemma fix_get_logged e v sz s sz' : fix_get (logged e v sz s) sz' = fix_get s sz'.
Proof. done. Qed.

Lemma m_rows_logged e v sz s : m_rows (logged e v sz s) = (v, sz) :: m_rows s.
Proof. done. Qed.

(** An engine call that was logged is answered by its undo. *)
Lemma logged_call_pops_like e G v sz b (f : F -> F) s :
  engine_entry e G ->
  fix_get s sz = Some b ->
  fp_store (G v (f b)) = fp_store b ->
  pops_like s (logged e v sz (fix_put sz (f b) s)).
Proof.
  intros He Hb Hstore n r Hr. unfold LinearSolver.pop in *.
  set (s' := logged e v sz (fix_put sz (f b) s)).
  assert (Hu : undo e s' =
    Ok (tt, set_rows (m_rows s) (fix_put sz (G v (f b)) s'))).
  { unfold s'.
    destruct He; unfold undo; rewrite bind_back_row, m_rows_logged; cbn [fst snd];
      rewrite engine_call_run, fix_get_logged;
      (erewrite fix_get_fix_put by done); by rewrite decide_True. }
  change (m_trail s') with (e :: m_trail s).
  assert (Hn : pop_loop (e :: m_trail s) (S n) s' =
               pop_loop (m_trail s) (S n) (set_rows (m_rows s) (fix_put sz (G v (f b)) s'))).
  { simpl. rewrite Hu. by destruct He. }
  rewrite Hn. eapply pop_loop_mono; [|exact Hr].
  split; try done.
  - intros sz'. apply counter_covers_refl.
  - intros sz'. rewrite fix_get_set_rows.
    erewrite fix_get_fix_put
      by (unfold s'; rewrite fix_get_logged; erewrite fix_get_fix_put by done;
          by rewrite decide_True).
    unfold s'. rewrite fix_get_logged. erewrite fix_get_fix_put by done.
    case_decide as Hd; [|apply engine_covers_refl].
    subst sz'. rewrite Hb. simpl. done.
Qed.

Lemma step_range s s' : counters_in_range s -> step s s' -> counters_in_range s'.
Proof.
  unfold counters_in_range. intros Hs Hstep. destruct Hstep; simpl; try done.
  apply Forall_insert; [|apply uint_incr_range].
  unfold reserve. apply Forall_app. split; [done|]. by apply Forall_replicate.
Qed.

Lemma step_pops_like s s' : counters_in_range s -> step s s' -> pops_like s s'.
Proof.
  intros Hrange Hstep. destruct Hstep as
    [s bv vs cs | s sz k Hg Hk | s sz f Hg | s sz c Hc | s k v Hk
    | s sz v b f Hg Hf | s sz v b vs cs Hg | s sz v b f Hg Hf].
  - apply agrees_pops_like; [done|]. split; try done.
    + intros sz. apply counter_covers_refl.
    + intros sz. apply engine_covers_refl.
  - apply agrees_pops_like; [done|]. split; try done.
    + intros sz'. apply counter_covers_refl.
    + intros sz'. rewrite fix_get_fix_set. case_decide as Hd; [|apply engine_covers_refl].
      subst sz'. rewrite Hg. simpl. eauto.
  - apply agrees_pops_like; [done|]. split; try done.
    + intros sz'. apply counter_covers_refl.
    + intros sz'. erewrite fix_get_fix_put by done.
      case_decide as Hd; [|apply engine_covers_refl].
      subst sz'. rewrite Hg. simpl. symmetry. apply make_feasible_store.
  - intros n r Hr. unfold LinearSolver.pop in *. simpl m_trail.
    set (l := reserve (S sz) 0 (m_sz2num_vars s)) in *.
    assert (Hlen : (sz < length l)%nat) by (by eapply lookup_lt_Some).
    assert (Hcr : 0 <= c < UINT_MOD).
    { unfold l in Hc. rewrite lookup_reserve in Hc.
      unfold counters_in_range in Hrange. rewrite Forall_lookup in Hrange.
      repeat case_decide; try done.
      - by eapply Hrange.
      - injection Hc as <-. done. }
    simpl. unfold bind, back_row, pop_row, modify. simpl.
    rewrite list_lookup_insert_eq by done.
    rewrite list_insert_insert_eq, uint_decr_incr by done.
    rewrite list_insert_id by done.
    eapply pop_loop_mono; [|exact Hr].
    split; try done.
    + intros sz'. simpl. fold l. unfold l. rewrite lookup_reserve.
      repeat case_decide; try (by left).
      * right. split; [|done]. apply lookup_ge_None_2. lia.
      * left. apply lookup_ge_None_2. lia.
    + intros sz'. apply engine_covers_refl.
  - intros n r Hr. unfold LinearSolver.pop in *. simpl.
    rewrite delete_insert_id by done.
    eapply pop_loop_mono; [|exact Hr].
    split; try done.
    + intros sz'. apply counter_covers_refl.
    + intros sz'. apply engine_covers_refl.
  - apply (logged_call_pops_like set_bound_i (fun _ => fp_restore_bound));
      [constructor | done |].
    destruct Hf; [apply restore_bound_set_bounds | apply restore_bound_set_value].
  - apply (logged_call_pops_like add_row_i fp_del_row); [constructor | done |].
    apply del_row_add_row.
  - apply (logged_call_pops_like add_ineq_i (fun _ => fp_restore_ineq));
      [constructor | done |].
    destruct Hf; [apply restore_ineq_add_le | apply restore_ineq_add_lt].
Qed.

Lemma steps_pops_like s s' :
  counters_in_range s -> rtc step s s' -> counters_in_range s' /\ pops_like s s'.
Proof.
  intros Hrange Hsteps. induction Hsteps as [s|s s1 s2 H1 _ IH].
  - split; [done|]. intros n r Hr. exists r. split; [done | apply covers_refl].
  - destruct (IH (step_range _ _ Hrange H1)) as [Hr2 Hp2]. split; [done|].
    eapply pops_like_trans; [by apply step_pops_like | done].
Qed.

End StepFacts.

Section KeepsFacts.
Context {F St : Type} {E : fixplex_base F St}.
Implicit Types s t : linear_solver F.

Lemma keeps_refl s : keeps s s.
Proof. by split. Qed.
Lemma keeps_trans s t u : keeps s t -> keeps t u -> keeps s u.
Proof. intros [H1 H2] [H3 H4]. split; [auto|]. intros n. by rewrite H4, H2. Qed.

Lemma step_keeps s s' : step s s' -> keeps s s'.
Proof.
  intros Hstep. destruct Hstep; try (by split).
  split.
  - intros k' x Hk'. simpl. rewrite lookup_insert_ne; [done|]. congruence.
  - intros n. simpl. by rewrite delete_insert_id.
Qed.

Lemma steps_keeps s s' : rtc step s s' -> keeps s s'.
Proof.
  induction 1 as [s|s s1 s2 H1 _ IH]; [apply keeps_refl|].
  eapply keeps_trans; [by apply step_keeps | done].
Qed.

End KeepsFacts.

Lemma bind_Ok {S A B : Type} (c : call S A) (k : A -> call S B) s y s'' :
  bind c k s = Ok (y, s'') -> exists x s', c s = Ok (x, s') /\ k x s' = Ok (y, s'').
Proof.
  unfold bind. destruct (c s) as [[x s']|]; [|done]. intros H. by exists x, s'.
Qed.

Ltac inv_bind H :=
  let x := fresh "x" in let s := fresh "s" in let H1 := fresh "Hc" in
  apply bind_Ok in H as (x & s & H1 & H).

Section CallFacts.
Context {F St : Type} {E : fixplex_base F St}.
Implicit Types s t : linear_solver F.

Lemma step_eq s s1 s' : step s s1 -> s1 = s' -> step s s'.
Proof. by intros ? <-. Qed.

Lemma sz2fixplex_steps sz s b s' :
  sz2fixplex sz s = Ok (b, s') -> rtc step s s' /\ fix_get s' sz = Some b.
Proof.
  unfold sz2fixplex. destruct (fix_get s sz) as [b0|] eqn:Hg.
  - intros [= <- <-]. done.
  - destruct (ext_of sz) as [k|] eqn:Hk; [|done]. intros [= <- <-]. split.
    + apply rtc_once. by apply step_alloc.
    + by rewrite fix_get_fix_set, decide_True.
Qed.

Lemma fp_call_Ok sz (f : F -> F) s u s' :
  fp_call sz f s = Ok (u, s') -> exists b, fix_get s sz = Some b /\ s' = fix_put sz (f b) s.
Proof.
  unfold fp_call. destruct (fix_get s sz) as [b|]; [|done]. intros [= <-]. by exists b.
Qed.

Lemma fresh_var_step sz s c s' : fresh_var sz s = Ok (c, s') -> step s s'.
Proof.
  unfold fresh_var, bind, modify, push_trail, push_row. simpl.
  destruct (reserve (S sz) 0 (m_sz2num_vars s) !! sz) as [c0|] eqn:Hc; [|done].
  intros [= <- <-]. eapply step_eq; [by apply (step_fresh_var s sz c0)|done].
Qed.

Lemma mono2var_steps sz var s v s' : mono2var sz var s = Ok (v, s') -> rtc step s s'.
Proof.
  unfold mono2var. destruct (m_mono2var s !! (sz, var)) as [v0|] eqn:Hk.
  - by intros [= <- <-].
  - intros H. inv_bind H. pose proof Hc as Hf. apply fresh_var_step in Hf.
    assert (Hk' : m_mono2var s0 !! (sz, var) = None).
    { revert Hc. unfold fresh_var, bind, modify, push_trail, push_row. simpl.
      destruct (reserve _ _ _ !! sz); [|done]. by intros [= <- <-]. }
    unfold bind, modify, push_trail, ret in H. simpl in H. injection H as <- <-.
    eapply rtc_l; [exact Hf|]. apply rtc_once.
    eapply step_eq; [by apply (step_add_mono s0 (sz, var) x)|done].
Qed.

Lemma scratch_step vs cs s : step s (set_scratch vs cs s).
Proof. eapply step_eq; [apply (step_untracked s (m_bool_var2row s) vs cs)|done]. Qed.
Lemma bool_var2row_step bv s : step s (set_bool_var2row bv s).
Proof. eapply step_eq; [apply (step_untracked s bv (m_vars s) (m_coeffs s))|done]. Qed.

Lemma linearize_loop_steps sz ms s u s' :
  linearize_loop sz ms s = Ok (u, s') -> rtc step s s'.
Proof.
  destruct u. revert s. induction ms as [|m ms IH]; intros s; simpl.
  - by intros [= <-].
  - intros H. inv_bind H. apply mono2var_steps in Hc.
    inv_bind H. unfold modify in Hc0. injection Hc0 as <- <-.
    etrans; [exact Hc|]. eapply rtc_l; [apply scratch_step|]. by apply IH.
Qed.

Lemma linearize_steps p s u s' : linearize p s = Ok (u, s') -> rtc step s s'.
Proof.
  unfold linearize. intros H. inv_bind H. unfold modify in Hc. injection Hc as <- <-.
  eapply rtc_l; [apply scratch_step|]. by eapply linearize_loop_steps.
Qed.

Lemma internalize_pdd_steps p s v s' : internalize_pdd p s = Ok (v, s') -> rtc step s s'.
Proof.
  unfold internalize_pdd. intros H. inv_bind H. apply linearize_steps in Hc.
  etrans; [exact Hc|]. clear Hc.
  assert (Hrow : (v0 <- fresh_var (power_of_2 p) ;;
     modify (fun s => set_scratch (m_vars s ++ [v0])
                        (m_coeffs s ++ [2 ^ Z.of_nat (power_of_2 p) - 1]) s) ;;;
     sz2fixplex (power_of_2 p) ;;;
     (fun s => fp_call (power_of_2 p) (fp_add_row v0 (m_vars s) (m_coeffs s)) s) ;;;
     push_row v0 (power_of_2 p) ;;;
     push_trail add_row_i ;;;
     ret v0) s0 = Ok (v, s') -> rtc step s0 s').
  { clear H. intros H. inv_bind H. apply fresh_var_step in Hc.
    inv_bind H. unfold modify in Hc0. injection Hc0 as <- <-.
    inv_bind H. apply sz2fixplex_steps in Hc0 as [Hsteps Hg].
    inv_bind H. apply fp_call_Ok in Hc0 as (b & Hb & ->).
    unfold bind, push_row, push_trail, modify, ret in H. simpl in H. injection H as <- <-.
    eapply rtc_l; [exact Hc|]. eapply rtc_l; [apply scratch_step|].
    etrans; [exact Hsteps|]. apply rtc_once.
    eapply step_eq; [by eapply (step_add_row _ (power_of_2 p) x0 b)|done]. }
  destruct (m_vars s0) as [|v1 [|v2 vs]]; try (by apply Hrow).
  destruct (last (m_coeffs s0)) as [c|]; try (by apply Hrow).
  destruct (decide (c = 1)) as [->|Hne].
  - simpl in H. by injection H as <- <-.
  - destruct c as [|[]|]; by apply Hrow.
Qed.
End CallFacts.

Section Activation.
Context {F St : Type} {E : fixplex_base F St}.
Implicit Types s t : linear_solver F.

Lemma new_eq_steps c s u s' : new_eq c s = Ok (u, s') -> rtc step s s'.
Proof.
  unfold new_eq. intros H. inv_bind H. apply internalize_pdd_steps in Hc.
  unfold modify in H. injection H as <- <-.
  eapply rtc_r; [exact Hc | apply bool_var2row_step].
Qed.

Lemma new_le_steps c s u s' : new_le c s = Ok (u, s') -> rtc step s s'.
Proof.
  unfold new_le. intros H. inv_bind H. apply internalize_pdd_steps in Hc.
  inv_bind H. apply internalize_pdd_steps in Hc0.
  unfold modify in H. injection H as <- <-.
  etrans; [exact Hc|]. eapply rtc_r; [exact Hc0 | apply bool_var2row_step].
Qed.

Lemma bool_var2row_Ok b s pr s' : bool_var2row b s = Ok (pr, s') -> s' = s.
Proof. unfold bool_var2row. destruct (m_bool_var2row s !! b); [|done]. by intros [= <- <-]. Qed.

(** A bound call between an allocation and its two log entries, in either
    order of the source. *)
Lemma bound_then_log sz v (f : F -> F) s u s' :
  bound_call f ->
  (fp_call sz f ;;; push_trail set_bound_i ;;; push_row v sz) s = Ok (u, s') ->
  step s s'.
Proof.
  intros Hf H. inv_bind H. apply fp_call_Ok in Hc as (b & Hb & ->).
  unfold bind, push_trail, push_row, modify in H. simpl in H. injection H as <- <-.
  eapply step_eq; [by apply (step_bound s sz v b f)|done].
Qed.

Lemma log_then_bound sz v (f : F -> F) s u s' :
  bound_call f ->
  (push_trail set_bound_i ;;; push_row v sz ;;; fp_call sz f) s = Ok (u, s') ->
  step s s'.
Proof.
  intros Hf H. unfold bind, push_trail, push_row, modify in H. simpl in H.
  apply fp_call_Ok in H as (b & Hb & ->).
  eapply step_eq; [by apply (step_bound s sz v b f)|done].
Qed.

Lemma ineq_then_log sz v (f : F -> F) s u s' :
  ineq_call f ->
  (fp_call sz f ;;; push_trail add_ineq_i ;;; push_row v sz) s = Ok (u, s') ->
  step s s'.
Proof.
  intros Hf H. inv_bind H. apply fp_call_Ok in Hc as (b & Hb & ->).
  unfold bind, push_trail, push_row, modify in H. simpl in H. injection H as <- <-.
  eapply step_eq; [by apply (step_ineq s sz v b f)|done].
Qed.

Lemma assert_eq_steps c s u s' : assert_eq c s = Ok (u, s') -> rtc step s s'.
Proof.
  unfold assert_eq. intros H. inv_bind H. apply bool_var2row_Ok in Hc as ->.
  inv_bind H. apply sz2fixplex_steps in Hc as [Hsteps _].
  etrans; [exact Hsteps|]. apply rtc_once.
  destruct (sign_undef (eq_sign c)).
  { unfold bind, push_trail, push_row, modify, fail in H. done. }
  destruct (sign_positive (eq_sign c)).
  - apply (log_then_bound (power_of_2 (eq_p c)) x.1 (fp_set_bounds x.1 0 0) _ u);
      [constructor|].
    revert H. unfold bind, push_trail, push_row, modify, ret. simpl. done.
  - apply (log_then_bound (power_of_2 (eq_p c)) x.1 (fp_set_bounds x.1 1 0) _ u);
      [constructor|].
    revert H. unfold bind, push_trail, push_row, modify, ret. simpl. done.
Qed.

Lemma assert_le_steps c s u s' : assert_le c s = Ok (u, s') -> rtc step s s'.
Proof.
  unfold assert_le. intros H. inv_bind H. apply bool_var2row_Ok in Hc as ->.
  inv_bind H. apply sz2fixplex_steps in Hc as [Hsteps _].
  etrans; [exact Hsteps|]. apply rtc_once. clear Hsteps.
  destruct (is_val (ule_rhs c)); [|destruct (is_val (ule_lhs c))].
  - destruct (sign_positive (ule_sign c));
      (eapply bound_then_log; [|exact H]); constructor.
  - destruct (sign_positive (ule_sign c)).
    + eapply bound_then_log; [|exact H]. constructor.
    + destruct (val (ule_lhs c) =? 0).
      * revert H. unfold bind, fail. done.
      * eapply bound_then_log; [|exact H]. constructor.
  - destruct (sign_positive (ule_sign c));
      (eapply ineq_then_log; [|exact H]); constructor.
Qed.

Lemma new_constraint_steps c s u s' : new_constraint c s = Ok (u, s') -> rtc step s s'.
Proof. destruct c; [apply new_eq_steps | apply new_le_steps]. Qed.

Lemma activate_constraint_steps c s u s' :
  activate_constraint c s = Ok (u, s') -> rtc step s s'.
Proof.
  unfold activate_constraint. intros H. inv_bind H.
  assert (s0 = s) as ->.
  { destruct (sign_undef _); [done|]. unfold ret in Hc. by injection Hc as _ <-. }
  destruct c; [by eapply assert_eq_steps | by eapply assert_le_steps].
Qed.

Lemma set_bound_call_steps (size : pvar -> nat) v (f : var_t -> F -> F) s u s' :
  (forall w, bound_call (f w)) ->
  (sz2fixplex (size v) ;;;
   w <- pvar2var (size v) v ;;
   push_trail set_bound_i ;;;
   push_row w (size v) ;;;
   fp_call (size v) (f w)) s = Ok (u, s') ->
  rtc step s s'.
Proof.
  intros Hf H. inv_bind H. apply sz2fixplex_steps in Hc as [Hsteps _].
  inv_bind H. apply mono2var_steps in Hc.
  etrans; [exact Hsteps|]. etrans; [exact Hc|]. apply rtc_once.
  by eapply log_then_bound.
Qed.

Lemma set_value_steps size v x s u s' :
  set_value size v x s = Ok (u, s') -> rtc step s s'.
Proof.
  apply (set_bound_call_steps size v (fun w => fp_set_value w x)). constructor.
Qed.

Lemma set_bound_steps size v l h s u s' :
  set_bound size v l h s = Ok (u, s') -> rtc step s s'.
Proof.
  apply (set_bound_call_steps size v (fun w => fp_set_bounds w l h)). constructor.
Qed.

(** [check] asks engines one after the other. *)
Lemma check_loop_steps seen todo res r fx s :
  m_fix s = seen ++ todo ->
  check_loop seen todo res = (r, fx) ->
  rtc step s (set_fix fx s).
Proof.
  revert seen res s. induction todo as [|o todo IH]; intros seen res s Hs; simpl.
  - intros [= <- <-]. rewrite app_nil_r in Hs. rewrite <- Hs.
    by destruct s.
  - destruct o as [f|].
    + destruct (fp_make_feasible f) as [r1 f'] eqn:Hf.
      assert (Hg : fix_get s (length seen) = Some f).
      { unfold fix_get. rewrite Hs, lookup_app_r by lia.
        by rewrite Nat.sub_diag. }
      assert (Hput : fix_put (length seen) (snd (fp_make_feasible f)) s =
                     set_fix (seen ++ Some f' :: todo) s).
      { unfold fix_put. rewrite Hs, Hf. simpl. f_equal.
        rewrite insert_app_r_alt by lia. by rewrite Nat.sub_diag. }
      pose proof (step_feasible s _ f Hg) as Hstep. rewrite Hput in Hstep.
      assert (Hnext : forall res', check_loop (seen ++ [Some f']) todo res' = (r, fx) ->
                rtc step s (set_fix fx s)).
      { intros res' H. eapply rtc_l; [exact Hstep|].
        replace (set_fix fx s) with (set_fix fx (set_fix (seen ++ Some f' :: todo) s))
          by (by destruct s).
        eapply IH; [|exact H]. simpl. by rewrite <- app_assoc. }
      destruct r1.
      * intros [= <- <-]. by apply rtc_once.
      * apply Hnext.
      * apply Hnext.
    + intros H. eapply IH; [|exact H]. by rewrite <- app_assoc.
Qed.

Lemma check_steps s r s' : check s = Ok (r, s') -> rtc step s s'.
Proof.
  unfold check. destruct (check_loop [] (m_fix s) l_true) as [r0 fx] eqn:Hl.
  intros [= <- <-]. by eapply (check_loop_steps []).
Qed.

End Activation.

(** *** The tracker under the trail *)

Section TrackerFacts.
Implicit Types s t : Viable.viable.

Lemma vi_pop_loop_mono tr n s t r :
  vi_agrees s t -> Viable.pop_loop tr n s = Ok r ->
  exists r', Viable.pop_loop tr n t = Ok r' /\ vi_covers r r'.
Proof.
  revert n s t. induction tr as [|e tr IH]; intros n s t [Hv Ht]; destruct n as [|n]; simpl;
    try done; try (intros [= <-]; eexists; by repeat split).
  destruct e; [by apply IH|].
  unfold Viable.pop_viable. rewrite <- Hv, <- Ht.
  destruct (Viable.m_viable_trail s) as [|p rest]; [done|].
  case_decide; [|done]. simpl. apply IH. by split.
Qed.

Lemma vi_covers_refl s : vi_covers s s.
Proof. by repeat split. Qed.
Lemma vi_covers_trans s t u : vi_covers s t -> vi_covers t u -> vi_covers s u.
Proof. intros (? & ? & ?) (? & ? & ?). repeat split; congruence. Qed.

Lemma vi_pop_loop_split tr a b s r s' :
  Viable.pop_loop tr (a + b) s = Ok r -> Viable.pop_loop tr a s = Ok s' ->
  exists r', Viable.pop_loop (Viable.s_trail s') b s' = Ok r' /\ vi_covers r r'.
Proof.
  revert a s. induction tr as [|e tr IH]; intros a s; destruct a as [|a].
  - change (0 + b)%nat with b. intros Hr [= <-].
    eapply vi_pop_loop_mono; [|exact Hr]. done.
  - done.
  - change (0 + b)%nat with b. intros Hr [= <-].
    eapply vi_pop_loop_mono; [|exact Hr]. done.
  - simpl. destruct e; [apply (IH a)|].
    destruct (Viable.pop_viable s) as [s1|]; [|done]. simpl. apply (IH (S a)).
Qed.

Lemma writes_pops_like v s s' : writes_after_push v s s' -> vi_pops_like s s'.
Proof.
  intros (d & l & Hd & Hv & Ht & Htr) n r Hr. unfold Viable.pop in *.
  rewrite Htr. simpl. unfold Viable.pop_viable. rewrite Ht, Hv. simpl.
  rewrite length_insert. apply lookup_lt_Some in Hd as Hlt.
  rewrite decide_True by done. simpl.
  eapply vi_pop_loop_mono; [|exact Hr].
  split; simpl; [|done].
  rewrite list_insert_insert_eq. by rewrite list_insert_id.
Qed.

Lemma conflict_if_empty_fields v s s' :
  Viable.conflict_if_empty v s = Ok s' ->
  Viable.m_viable s' = Viable.m_viable s /\
  Viable.m_viable_trail s' = Viable.m_viable_trail s /\
  Viable.s_trail s' = Viable.s_trail s.
Proof.
  unfold Viable.conflict_if_empty. destruct (Viable.m_viable s !! v); [|done].
  intros [= <-]. by destruct (ViableSet.is_empty _).
Qed.

Lemma intersect_eq_writes a v b pol s s' :
  Viable.intersect_eq a v b pol s = Ok s' -> writes_after_push v s s'.
Proof.
  unfold Viable.intersect_eq. intros H.
  destruct (Viable.push_viable v s) as [s1|] eqn:Hp; [|done]. simpl in H.
  apply push_viable_inv in Hp as (d & Hd & ->). simpl in H. rewrite Hd in H.
  destruct (ViableSet.intersect_eq d a b pol) as [ok d1].
  destruct ok.
  - apply conflict_if_empty_fields in H as (Hv & Ht & Htr).
    exists d, d1. by rewrite Hv, Ht, Htr.
  - destruct (ViableSet.intersect_eq_budget d1 a b pol 10) as [budget d2].
    apply conflict_if_empty_fields in H as (Hv & Ht & Htr).
    exists d, d2. rewrite Hv, Ht, Htr. simpl. by rewrite list_insert_insert_eq.
Qed.

Lemma add_non_viable_writes set_ne v val s s' :
  Viable.add_non_viable set_ne v val s = Ok s' -> writes_after_push v s s'.
Proof.
  unfold Viable.add_non_viable. intros H.
  destruct (Viable.push_viable v s) as [s1|] eqn:Hp; [|done]. simpl in H.
  apply push_viable_inv in Hp as (d & Hd & ->). simpl in H. rewrite Hd in H.
  apply conflict_if_empty_fields in H as (Hv & Ht & Htr).
  eexists d, _. by rewrite Hv, Ht, Htr.
Qed.

Lemma intersect_ule_writes size fdd_sup set_ne v a b c e pol s s' :
  Viable.intersect_ule size fdd_sup set_ne v a b c e pol s = Ok s' ->
  writes_after_push v s s'.
Proof.
  unfold Viable.intersect_ule. intros H.
  destruct (Viable.push_viable v s) as [s1|] eqn:Hp; [|done]. simpl in H.
  apply push_viable_inv in Hp as (d & Hd & ->). simpl in H. rewrite Hd in H.
  destruct (ViableSet.intersect_ule d a b c e pol) as [ok d1].
  destruct ok.
  { apply conflict_if_empty_fields in H as (Hv & Ht & Htr).
    exists d, d1. by rewrite Hv, Ht, Htr. }
  destruct (ViableSet.intersect_ule_budget d1 a b c e pol 10) as [budget d2].
  destruct budget as [|budget'].
  2:{ apply conflict_if_empty_fields in H as (Hv & Ht & Htr).
      exists d, d2. rewrite Hv, Ht, Htr. simpl. by rewrite list_insert_insert_eq. }
  match type of H with context [Viable.cache_lookup ?k ?le ?s0] =>
    destruct (Viable.cache_lookup k le s0) as [repr s3] eqn:Hcl end.
  assert (Hs3 : Viable.m_viable s3 = <[v := d2]> (Viable.m_viable s) /\
                Viable.m_viable_trail s3 = (v, d) :: Viable.m_viable_trail s /\
                Viable.s_trail s3 = Viable.viable_i :: Viable.s_trail s).
  { revert Hcl. unfold Viable.cache_lookup. destruct (default _ _) as [r0 act].
    intros [= _ <-]. simpl. by rewrite list_insert_insert_eq. }
  destruct Hs3 as (Hv3 & Ht3 & Htr3).
  match type of H with context [fdd_sup ?sz ?gt ?l] =>
    destruct (fdd_sup sz gt l) as [bound|] end;
    apply conflict_if_empty_fields in H as (Hv & Ht & Htr).
  - eexists d, _. rewrite Hv, Ht, Htr. simpl. rewrite Hv3, Ht3, Htr3.
    by rewrite list_insert_insert_eq.
  - exists d, d2. by rewrite Hv, Ht, Htr.
Qed.

End TrackerFacts.

Section BracketFacts.
Context {F St : Type} {E : fixplex_base F St}.
Variable size : pvar -> nat.
Variable fdd_sup : nat -> Viable.bdd -> Z -> option Z.
Variable set_ne : ViableSet.viable_set -> Z -> ViableSet.viable_set.
Implicit Types s t : system (F := F).

(** What a call changes: the linear solver, by steps, or one domain of
    the tracker. *)
Lemma run_op_effect o s s' :
  run_op size fdd_sup set_ne o s = Ok s' ->
  (rtc step (fst s) (fst s') /\ snd s' = snd s) \/
  (fst s' = fst s /\ exists v, writes_after_push v (snd s) (snd s')).
Proof.
  destruct o; simpl; unfold lift_ls, lift_vi; intros H.
  all: try (match type of H with context [match ?c with _ => _ end] =>
              destruct c as [[x l]|] eqn:Hc end; [|done]; injection H as <-; left; split; [|done]).
  all: try (match type of H with context [match ?c with _ => _ end] =>
              destruct c as [w|] eqn:Hc end; [|done]; injection H as <-; right; split; [done|]).
  - eapply rtc_once, fresh_var_step, Hc.
  - eapply mono2var_steps, Hc.
  - eapply mono2var_steps, Hc.
  - eapply new_constraint_steps, Hc.
  - eapply activate_constraint_steps, Hc.
  - eapply set_value_steps, Hc.
  - eapply set_bound_steps, Hc.
  - eapply check_steps, Hc.
  - eexists. eapply intersect_eq_writes, Hc.
  - eexists. eapply intersect_ule_writes, Hc.
  - eexists. eapply add_non_viable_writes, Hc.
Qed.

Lemma pop_Ok n s t :
  System.pop n s = Ok t <->
  LinearSolver.pop n (fst s) = Ok (fst t) /\ Viable.pop n (snd s) = Ok (snd t).
Proof.
  unfold System.pop, rbind. destruct t as [l v]. simpl.
  destruct (LinearSolver.pop n s.1) as [l'|]; [|split; [done | by intros [? _]]].
  destruct (Viable.pop n s.2) as [v'|]; [|split; [done | by intros [_ ?]]].
  split; [by intros [= <- <-] | by intros [[= <-] [= <-]]].
Qed.

Lemma sys_covers_trans s t u : sys_covers s t -> sys_covers t u -> sys_covers s u.
Proof.
  intros [? ?] [? ?]. split; [by eapply covers_trans | by eapply vi_covers_trans].
Qed.

Lemma pop_loop_0 tr (l : linear_solver F) : pop_loop tr 0 l = Ok (set_trail tr l).
Proof. by destruct tr. Qed.
Lemma vi_pop_loop_0 tr v : Viable.pop_loop tr 0 v = Ok (Viable.with_s_trail tr v).
Proof. by destruct tr. Qed.

Context {L : fixplex_lifo E}.

Lemma bracket_start s0 : counters_in_range (fst s0) -> bracket s0 0 (push s0).
Proof.
  intros Hr. split; [done|].
  exists (set_trail (m_trail (fst s0)) (LinearSolver.push (fst s0)),
          Viable.with_s_trail (Viable.s_trail (snd s0)) (Viable.push (snd s0))).
  split.
  { apply pop_Ok. split; simpl.
    - unfold LinearSolver.pop. simpl. apply pop_loop_0.
    - unfold Viable.pop. simpl. apply vi_pop_loop_0. }
  split; simpl.
  - split; [done|]. split; try done.
    + intros sz. apply counter_covers_refl.
    + intros sz. apply engine_covers_refl.
  - by repeat split.
Qed.

Lemma bracket_push s0 d s : bracket s0 d s -> bracket s0 (S d) (push s).
Proof.
  intros [Hr (t & Ht & Hcov)]. split; [done|].
  apply pop_Ok in Ht as [Hl Hv].
  unfold LinearSolver.pop in Hl. unfold Viable.pop in Hv.
  destruct (pop_loop_mono (m_trail (fst s)) (S d) (fst s) (LinearSolver.push (fst s))
              (fst t)) as (l' & Hl' & Hcl); [apply agrees_set_trail_r | done |].
  destruct (vi_pop_loop_mono (Viable.s_trail (snd s)) (S d) (snd s) (Viable.push (snd s))
              (snd t)) as (v' & Hv' & Hcv); [done | done |].
  exists (l', v'). split; [by apply pop_Ok|].
  eapply sys_covers_trans; [exact Hcov|]. by split.
Qed.

Lemma bracket_pop s0 d n s s' :
  (n <= d)%nat -> bracket s0 d s -> System.pop n s = Ok s' -> bracket s0 (d - n) s'.
Proof.
  intros Hn [Hr (t & Ht & Hcov)] Hp.
  apply pop_Ok in Ht as [Hl Hv]. apply pop_Ok in Hp as [Hl' Hv'].
  unfold LinearSolver.pop in *. unfold Viable.pop in *.
  replace (S d) with (n + S (d - n))%nat in Hl, Hv by lia.
  destruct (pop_loop_split _ _ _ _ _ _ Hl Hl') as (l2 & Hl2 & Hc2).
  destruct (vi_pop_loop_split _ _ _ _ _ _ Hv Hv') as (v2 & Hv2 & Hcv2).
  split; [by eapply pop_loop_range|].
  exists (l2, v2). split; [by apply pop_Ok|].
  eapply sys_covers_trans; [exact Hcov|]. by split.
Qed.

Lemma bracket_op s0 d o s s' :
  bracket s0 d s -> run_op size fdd_sup set_ne o s = Ok s' -> bracket s0 d s'.
Proof.
  intros [Hr (t & Ht & Hcov)] Hop.
  apply pop_Ok in Ht as [Hl Hv].
  destruct (run_op_effect o s s' Hop) as [[Hsteps Hsame]|[Hsame (v & Hw)]].
  - destruct (steps_pops_like _ _ Hr Hsteps) as [Hr' Hlike].
    split; [done|]. destruct (Hlike d _ Hl) as (l' & Hl' & Hcl).
    exists (l', snd t). split; [apply pop_Ok; by rewrite Hsame|].
    eapply sys_covers_trans; [exact Hcov|]. split; [done | apply vi_covers_refl].
  - split; [by rewrite Hsame|].
    destruct (writes_pops_like v _ _ Hw d _ Hv) as (v' & Hv' & Hcv).
    exists (fst t, v'). split; [apply pop_Ok; by rewrite Hsame|].
    eapply sys_covers_trans; [exact Hcov|]. split; [apply covers_refl | done].
Qed.

Lemma bracket_run s0 cs d d' s s' :
  bracket s0 d s -> run size fdd_sup set_ne cs s = Ok s' -> depth cs d = Some d' ->
  bracket s0 d' s'.
Proof.
  revert d s. induction cs as [|c cs IH]; intros d s Hb; simpl.
  - by intros [= <-] [= <-].
  - destruct (run_cmd size fdd_sup set_ne c s) as [s1|] eqn:Hc; [|done]. simpl.
    destruct c as [|n|o]; simpl in Hc.
    + injection Hc as <-. apply IH. by apply bracket_push.
    + case_decide; [|done]. apply IH. by eapply bracket_pop.
    + apply IH. by eapply bracket_op.
Qed.

End BracketFacts.

Section TableFacts.
Context {F St : Type} {E : fixplex_base F St}.
Variable size : pvar -> nat.
Variable fdd_sup : nat -> Viable.bdd -> Z -> option Z.
Variable set_ne : ViableSet.viable_set -> Z -> ViableSet.viable_set.
Implicit Types l : linear_solver F.

Lemma undo_table e l u l1 :
  undo e l = Ok (u, l1) ->
  match e with
  | add_mono_i =>
      exists m, m_monomials l = m :: m_monomials l1 /\
                m_mono2var l1 = delete (fst m) (m_mono2var l)
  | _ => m_monomials l1 = m_monomials l /\ m_mono2var l1 = m_mono2var l
  end.
Proof.
  destruct u. destruct e; unfold undo.
  - by intros [= <-].
  - unfold bind, back_row, pop_row, modify.
    destruct (m_rows l) as [|r rs]; [done|].
    destruct (m_sz2num_vars l !! r.2); [|done]. by intros [= <-].
  - destruct (m_monomials l) as [|m ms]; [done|]. intros [= <-]. by exists m.
  - rewrite bind_back_row. destruct (m_rows l) as [|r rs]; [done|].
    rewrite engine_call_run. repeat case_match; try done; by intros [= <-].
  - rewrite bind_back_row. destruct (m_rows l) as [|r rs]; [done|].
    rewrite engine_call_run. repeat case_match; try done; by intros [= <-].
  - rewrite bind_back_row. destruct (m_rows l) as [|r rs]; [done|].
    rewrite engine_call_run. repeat case_match; try done; by intros [= <-].
Qed.

(** [pop_table] tells what [pop] does to the table. *)
Lemma pop_loop_table tr n l r :
  pop_loop tr n l = Ok r ->
  pop_table tr n (m_monomials l) (m_mono2var l)
    = Some (m_trail r, m_monomials r, m_mono2var r).
Proof.
  revert n l. induction tr as [|e tr IH]; intros n l; destruct n as [|n]; simpl;
    try done; try (by intros [= <-]).
  destruct (undo e l) as [[u l1]|] eqn:Hu; [|done].
  apply undo_table in Hu. intros Hr.
  destruct e; try (destruct Hu as [<- <-]; by apply IH).
  destruct Hu as (m & -> & Ht). rewrite <- Ht. by apply IH.
Qed.

Lemma pop_table_add tr a b ms tbl :
  pop_table tr (a + b) ms tbl =
    match pop_table tr a ms tbl with
    | Some (tr', ms', tbl') => pop_table tr' b ms' tbl'
    | None => None
    end.
Proof.
  revert a ms tbl. induction tr as [|e tr IH]; intros a ms tbl; destruct a as [|a];
    try done.
  simpl. destruct e; try apply (IH (S a)); try apply (IH a).
  destruct ms as [|m ms]; [done|]. apply (IH (S a)).
Qed.

Lemma interned_keeps k x d l l' : keeps l l' -> interned k x d l -> interned k x d l'.
Proof.
  intros [Hsub Hpop] Hi n r Hn. destruct n as [|n].
  - destruct (m_trail l'); intros [= <-]; simpl; apply Hsub;
      apply (Hi 0%nat (m_trail l, m_monomials l, m_mono2var l)); try lia;
      by destruct (m_trail l).
  - rewrite Hpop. by apply Hi.
Qed.

Lemma interned_run k x cs d d' (s s' : system (F := F)) :
  interned k x d (fst s) -> run size fdd_sup set_ne cs s = Ok s' -> depth cs d = Some d' ->
  interned k x d' (fst s').
Proof.
  revert d s. induction cs as [|c cs IH]; intros d s Hi; simpl.
  - by intros [= <-] [= <-].
  - destruct (run_cmd size fdd_sup set_ne c s) as [s1|] eqn:Hc; [|done]. simpl.
    destruct c as [|n|o]; simpl in Hc.
    + injection Hc as <-. apply IH. intros n r Hn. simpl.
      destruct n as [|n]; [|apply Hi; lia].
      intros [= <-]. simpl.
      apply (Hi 0%nat (m_trail (fst s), m_monomials (fst s), m_mono2var (fst s))); try lia.
      by destruct (m_trail (fst s)).
    + case_decide; [|done]. apply IH.
      apply pop_Ok in Hc as [Hl _]. unfold LinearSolver.pop in Hl.
      apply pop_loop_table in Hl. intros m r Hm Hr.
      apply (Hi (n + m)%nat r); [lia|]. by rewrite pop_table_add, Hl.
    + apply IH.
      destruct (run_op_effect size fdd_sup set_ne o s s1 Hc) as [[Hsteps _]|[-> _]]; [|done].
      eapply interned_keeps; [|exact Hi]. by apply steps_keeps.
Qed.

Lemma mono2var_interns sz var l x l1 :
  mono2var sz var l = Ok (x, l1) -> m_mono2var l1 !! (sz, var) = Some x.
Proof.
  unfold mono2var. destruct (m_mono2var l !! (sz, var)) as [v0|] eqn:Hk.
  - by intros [= <- <-].
  - intros H. inv_bind H.
    unfold bind, modify, push_trail, ret in H. simpl in H. injection H as <- <-.
    simpl. apply lookup_insert_eq.
Qed.

End TableFacts.

Lemma on_store_held (f : RecordingEngine.store -> RecordingEngine.store) e e' :
  RecordingEngine.held e = RecordingEngine.held e' ->
  RecordingEngine.held (RecordingEngine.on_store f e)
  = RecordingEngine.held (RecordingEngine.on_store f e').
Proof. simpl. by intros ->. Qed.

#[export] Instance recording_lifo verdict : fixplex_lifo (RecordingEngine.recording verdict).
Proof.
  split; intros; try (by apply on_store_held);
    destruct e as [[[[k rows] bs] es] n]; simpl; by rewrite ?Z.eqb_refl.
Qed.

Section Exactness.
Context {F St : Type} {E : fixplex_base F St} {L : fixplex_lifo E}.
Variable size : pvar -> nat.
Variable fdd_sup : nat -> Viable.bdd -> Z -> option Z.
Variable set_ne : ViableSet.viable_set -> Z -> ViableSet.viable_set.

Lemma covers_restored (l t : linear_solver F) :
  covers l t ->
  (forall sz, num_vars t sz = num_vars l sz) /\
  m_mono2var t = m_mono2var l /\
  m_monomials t = m_monomials l /\
  (forall sz, engine_store t sz = engine_store l sz) /\
  m_trail t = m_trail l /\
  m_rows t = m_rows l.
Proof.
  intros [Htr [Hrows Htbl Hms Hcs Hes]]. repeat split; try done.
  - intros sz. unfold num_vars. destruct (Hcs sz) as [->|[-> ->]]; done.
  - intros sz. unfold engine_store. specialize (Hes sz).
    destruct (fix_get l sz), (fix_get t sz); simpl in Hes; try done.
    + by rewrite Hes.
    + destruct Hes as (k & -> & ->). done.
Qed.

(** C1: after [push()], any sequence of calls on the linear solver and on
    the tracker that runs to its end, with inner [push()] and [pop(n)] that
    take no more levels than are open, and then the [pop] of the [d + 1] open
    levels: the counter of every width, the interning table
    ([m_mono2var], [m_monomials]), every viable domain and what the engine of
    every width holds of bounds, rows and inequalities are what they were
    right after the [push()]; the trails are back to where they were before
    it. The engines are any that keep the undo contract. *)
Theorem trail_exactness (s0 : system) (cs : list cmd) (d : nat) (s1 : system) :
  counters_in_range (fst s0) ->
  run size fdd_sup set_ne cs (System.push s0) = Ok s1 ->
  depth cs 0 = Some d ->
  exists t,
    System.pop (S d) s1 = Ok t /\
    (forall sz, num_vars (fst t) sz = num_vars (fst (System.push s0)) sz) /\
    m_mono2var (fst t) = m_mono2var (fst (System.push s0)) /\
    m_monomials (fst t) = m_monomials (fst (System.push s0)) /\
    Viable.m_viable (snd t) = Viable.m_viable (snd (System.push s0)) /\
    (forall sz, engine_store (fst t) sz = engine_store (fst (System.push s0)) sz) /\
    m_trail (fst t) = m_trail (fst s0) /\
    m_rows (fst t) = m_rows (fst s0) /\
    Viable.s_trail (snd t) = Viable.s_trail (snd s0) /\
    Viable.m_viable_trail (snd t) = Viable.m_viable_trail (snd s0).
Proof.
  intros Hr Hrun Hd.
  destruct (bracket_run size fdd_sup set_ne s0 cs 0 d (System.push s0) s1
              (bracket_start s0 Hr) Hrun Hd) as [_ (t & Ht & [Hl (Htr & Hv & Hvt)])].
  exists t. split; [done|].
  destruct (covers_restored _ _ Hl) as (H1 & H2 & H3 & H4 & H5 & H6).
  repeat split; try done.
Qed.

End Exactness.

Lemma trail_exactness_witness :
  exists t,
    System.pop (E := demo_engine) 2 demo_end = Ok t /\
    (forall sz, num_vars (fst t) sz = num_vars (fst (System.push demo_start)) sz) /\
    m_mono2var (fst t) = m_mono2var (fst (System.push demo_start)) /\
    m_monomials (fst t) = m_monomials (fst (System.push demo_start)) /\
    Viable.m_viable (snd t) = Viable.m_viable (snd (System.push demo_start)) /\
    (forall sz, engine_store (E := demo_engine) (fst t) sz
                = engine_store (E := demo_engine) (fst (System.push demo_start)) sz) /\
    m_trail (fst t) = m_trail (fst demo_start) /\
    m_rows (fst t) = m_rows (fst demo_start) /\
    Viable.s_trail (snd t) = Viable.s_trail (snd demo_start) /\
    Viable.m_viable_trail (snd t) = Viable.m_viable_trail (snd demo_start).
Proof.
  apply (trail_exactness (E := demo_engine)
           demo_size Domain.scan_sup Domain.point_ne demo_start demo_cmds 1 demo_end).
  - apply Forall_nil. done.
  - vm_compute. reflexivity.
  - reflexivity.
Defined.

Section Interning.
Context {F St : Type} {E : fixplex_base F St}.
Variable size : pvar -> nat.
Variable fdd_sup : nat -> Viable.bdd -> Z -> option Z.
Variable set_ne : ViableSet.viable_set -> Z -> ViableSet.viable_set.

(** C9: a monomial that [mono2var] has answered with [x] is answered with
    [x] again, the solver unchanged, after any calls that run to their end
    with no [pop] going below the level of the first call; and [pvar2var] of
    a variable is [mono2var] of the one-element sequence. *)
Theorem mono2var_deterministic
    (s : system) (sz : nat) (var : list pvar) (x : var_t) (l1 : linear_solver F)
    (cs : list cmd) (d : nat) (s2 : system) :
  mono2var sz var (fst s) = Ok (x, l1) ->
  run size fdd_sup set_ne cs (l1, snd s) = Ok s2 ->
  depth cs 0 = Some d ->
  mono2var sz var (fst s2) = Ok (x, fst s2) /\
  (forall (l : linear_solver F) (w : nat) (v : pvar), pvar2var w v l = mono2var w [v] l).
Proof.
  intros Hm Hrun Hd. split; [|done].
  assert (Hi : interned (sz, var) x 0 l1).
  { intros n r Hn. replace n with 0%nat by lia.
    destruct (m_trail l1); intros [= <-]; simpl; by eapply mono2var_interns. }
  pose proof (interned_run size fdd_sup set_ne (sz, var) x cs 0 d (l1, snd s) s2 Hi Hrun Hd) as Hi2.
  assert (Hl : m_mono2var (fst s2) !! (sz, var) = Some x).
  { apply (Hi2 0%nat (m_trail (fst s2), m_monomials (fst s2), m_mono2var (fst s2)));
      [lia | by destruct (m_trail (fst s2))]. }
  unfold mono2var. by rewrite Hl.
Qed.

End Interning.

Lemma mono2var_deterministic_witness :
  mono2var 32 [0%nat] (fst intern_end) = Ok (0, fst intern_end) /\
  (forall (l : linear_solver RecordingEngine.engine) (w : nat) (v : pvar),
     pvar2var w v l = mono2var w [v] l).
Proof.
  apply (mono2var_deterministic (E := demo_engine) demo_size Domain.scan_sup Domain.point_ne
           demo_start 32 [0%nat] 0 intern_start intern_cmds 0 intern_end).
  - vm_compute. reflexivity.
  - vm_compute. reflexivity.
  - reflexivity.
Defined.

Section Dispatch.
Context {F St : Type} {E : fixplex_base F St}.
Variable size : pvar -> nat.
Variable fdd_sup : nat -> Viable.bdd -> Z -> option Z.
Variable set_ne : ViableSet.viable_set -> Z -> ViableSet.viable_set.
Implicit Types s : linear_solver F.

Lemma ext_of_supported sz :
  (sz = 32%nat /\ ext_of sz = Some generic_uint_ext_unsigned) \/
  (sz = 64%nat /\ ext_of sz = Some uint64_ext) \/
  (sz = 256%nat /\ ext_of sz = Some generic_uint_ext_u256) \/
  (sz <> 32%nat /\ sz <> 64%nat /\ sz <> 256%nat /\ ext_of sz = None).
Proof.
  unfold ext_of. repeat case_decide; subst; auto 10.
Qed.

Lemma step_supported s s' : supported_only s -> step s s' -> supported_only s'.
Proof.
  intros Hs Hstep. destruct Hstep; try exact Hs; intros sz' e'.
  - rewrite fix_get_fix_set. case_decide; [subst; eauto | apply Hs].
  - erewrite fix_get_fix_put by done. case_decide; [subst; eauto | apply Hs].
  - rewrite fix_get_logged. erewrite fix_get_fix_put by done.
    case_decide; [subst; eauto | apply Hs].
  - rewrite fix_get_logged. erewrite fix_get_fix_put by done.
    case_decide; [subst; eauto | apply Hs].
  - rewrite fix_get_logged. erewrite fix_get_fix_put by done.
    case_decide; [subst; eauto | apply Hs].
Qed.

Lemma init_supported : supported_only (init (F := F)).
Proof. intros sz e. unfold fix_get. simpl. by destruct sz. Qed.

(** An engine that is stored stays stored, whatever the solver is asked. *)
Lemma step_engine_kept s s' sz :
  step s s' -> is_Some (fix_get s sz) -> is_Some (fix_get s' sz).
Proof.
  intros Hstep Hs. destruct Hstep; try exact Hs.
  - rewrite fix_get_fix_set. case_decide; [eauto | done].
  - erewrite fix_get_fix_put by done. case_decide; [eauto | done].
  - rewrite fix_get_logged. erewrite fix_get_fix_put by done. case_decide; [eauto | done].
  - rewrite fix_get_logged. erewrite fix_get_fix_put by done. case_decide; [eauto | done].
  - rewrite fix_get_logged. erewrite fix_get_fix_put by done. case_decide; [eauto | done].
Qed.

Lemma steps_engine_kept s s' sz :
  rtc step s s' -> is_Some (fix_get s sz) -> is_Some (fix_get s' sz).
Proof. induction 1; eauto using step_engine_kept. Qed.

Lemma engine_call_kept w (f : F -> F) s u s' sz :
  (sz2fixplex w ;;; fp_call w f ;;; pop_row) s = Ok (u, s') ->
  is_Some (fix_get s sz) -> is_Some (fix_get s' sz).
Proof.
  rewrite engine_call_run. destruct (fix_get s w) as [b|] eqn:Hg.
  - intros [= <- <-] Hs. rewrite fix_get_set_rows.
    erewrite fix_get_fix_put by done. case_decide; [eauto | done].
  - destruct (ext_of w) as [k|]; [|done]. intros [= <- <-] Hs.
    rewrite fix_get_set_rows.
    erewrite fix_get_fix_put by (by rewrite fix_get_fix_set, decide_True).
    case_decide; [eauto|]. rewrite fix_get_fix_set. by case_decide.
Qed.

Lemma undo_engine_kept e s u s' sz :
  undo e s = Ok (u, s') -> is_Some (fix_get s sz) -> is_Some (fix_get s' sz).
Proof.
  destruct u. destruct e; unfold undo.
  - by intros [= <-].
  - unfold bind, back_row, pop_row, modify.
    destruct (m_rows s) as [|r rs]; [done|].
    destruct (m_sz2num_vars s !! r.2); [|done]. by intros [= <-].
  - destruct (m_monomials s) as [|m ms]; [done|]. by intros [= <-].
  - rewrite bind_back_row. destruct (m_rows s) as [|r rs]; [done|]. apply engine_call_kept.
  - rewrite bind_back_row. destruct (m_rows s) as [|r rs]; [done|]. apply engine_call_kept.
  - rewrite bind_back_row. destruct (m_rows s) as [|r rs]; [done|]. apply engine_call_kept.
Qed.

Lemma pop_loop_engine_kept tr n s r sz :
  pop_loop tr n s = Ok r -> is_Some (fix_get s sz) -> is_Some (fix_get r sz).
Proof.
  revert n s. induction tr as [|e tr IH]; intros n s; destruct n as [|n]; simpl;
    try done; try (by intros [= <-]).
  destruct (undo e s) as [[u s1]|] eqn:Hu; [|done].
  intros Hr Hs. eapply IH; [exact Hr|]. by eapply undo_engine_kept.
Qed.

Lemma run_cmd_engine_kept (c : cmd) (t t' : system (F := F)) sz :
  run_cmd size fdd_sup set_ne c t = Ok t' ->
  is_Some (fix_get (fst t) sz) -> is_Some (fix_get (fst t') sz).
Proof.
  destruct c as [|n|o]; simpl.
  - by intros [= <-].
  - intros H. apply pop_Ok in H as [H _]. by eapply pop_loop_engine_kept.
  - intros H. destruct (run_op_effect size fdd_sup set_ne o t t' H) as [[Hsteps _]|[-> _]];
      [|done]. by eapply steps_engine_kept.
Qed.

(** C8: while only widths with an instantiation have an engine, which
    [sz2fixplex] maintains, [sz2fixplex sz] for 32, 64 and 256 constructs the
    engine of that instantiation on the first call and stores it at [sz],
    leaving the engines of the other widths and the rest of the solver as
    they were; a call that finds an engine stored at [sz] gives that engine
    back and constructs nothing, and no command of the solver, [pop]
    included, takes a stored engine away: one engine is constructed for each
    width. For 128 and any other width the call fails with
    [not_implemented_yet]. *)
Theorem sz2fixplex_dispatch (s : linear_solver F) (sz : nat) :
  supported_only s ->
  match ext_of sz, fix_get s sz with
  | Some k, None =>
      let s' := fix_set sz (fp_alloc k) s in
      sz2fixplex sz s = Ok (fp_alloc k, s') /\
      fix_get s' sz = Some (fp_alloc k) /\
      sz2fixplex sz s' = Ok (fp_alloc k, s') /\
      (forall w, w <> sz -> fix_get s' w = fix_get s w) /\
      set_fix (m_fix s) s' = s /\
      supported_only s'
  | Some k, Some e => sz2fixplex sz s = Ok (e, s)
  | None, _ => sz2fixplex sz s = Err not_implemented_yet
  end /\
  (forall (c : cmd) (t t' : system (F := F)),
     run_cmd size fdd_sup set_ne c t = Ok t' ->
     is_Some (fix_get (fst t) sz) -> is_Some (fix_get (fst t') sz)) /\
  ext_of 32 = Some generic_uint_ext_unsigned /\
  ext_of 64 = Some uint64_ext /\
  ext_of 256 = Some generic_uint_ext_u256 /\
  ext_of 128 = None /\
  (sz <> 32%nat -> sz <> 64%nat -> sz <> 256%nat -> ext_of sz = None).
Proof.
  intros Hs. split; [|split; [|repeat split; try done]].
  - unfold sz2fixplex. destruct (ext_of sz) as [k|] eqn:Hk.
    + destruct (fix_get s sz) as [e|] eqn:Hg; [done|]. simpl.
      assert (Hnew : fix_get (fix_set sz (fp_alloc k) s) sz = Some (fp_alloc k))
        by (by rewrite fix_get_fix_set, decide_True).
      rewrite Hnew. repeat split; try done.
      * intros w Hw. by rewrite fix_get_fix_set, decide_False.
      * by destruct s.
      * intros w e. rewrite fix_get_fix_set. case_decide; [subst; eauto | apply Hs].
    + destruct (fix_get s sz) as [e|] eqn:Hg; [|done].
      destruct (Hs sz e Hg) as [k' Hk']. congruence.
  - intros c t t'. apply run_cmd_engine_kept.
  - intros. destruct (ext_of_supported sz) as [[? _]|[[? _]|[[? _]|(_ & _ & _ & ?)]]]; done.
Qed.

(** *** [check] *)

Lemma set_fix_set_fix fx fx' s : set_fix fx (set_fix fx' s) = set_fix fx s.
Proof. done. Qed.
Lemma set_fix_same s : set_fix (m_fix s) s = s.
Proof. by destruct s. Qed.

Lemma check_loop_in_order todo seen res s :
  m_fix s = seen ++ todo ->
  check_in_order (widths_from (length seen) todo) res s =
    (fst (check_loop seen todo res), set_fix (snd (check_loop seen todo res)) s).
Proof.
  revert seen res s. induction todo as [|o todo IH]; intros seen res s Hs; simpl.
  - rewrite app_nil_r in Hs. by rewrite <- Hs, set_fix_same.
  - destruct o as [f|].
    + assert (Hg : fix_get s (length seen) = Some f).
      { unfold fix_get. rewrite Hs, lookup_app_r by lia. by rewrite Nat.sub_diag. }
      assert (Hput : forall f', fix_put (length seen) f' s =
                                set_fix (seen ++ Some f' :: todo) s).
      { intros f'. unfold fix_put. rewrite Hs. f_equal.
        rewrite insert_app_r_alt by lia. by rewrite Nat.sub_diag. }
      simpl. rewrite Hg, Hput. destruct (fp_make_feasible f) as [r f']. simpl.
      assert (Hnext : forall res',
        check_in_order (widths_from (S (length seen)) todo) res'
          (set_fix (seen ++ Some f' :: todo) s) =
        (fst (check_loop (seen ++ [Some f']) todo res'),
         set_fix (snd (check_loop (seen ++ [Some f']) todo res')) s)).
      { intros res'.
        replace (S (length seen)) with (length (seen ++ [Some f']))
          by (rewrite length_app; simpl; lia).
        rewrite (IH (seen ++ [Some f']) res' (set_fix (seen ++ Some f' :: todo) s));
          [by rewrite set_fix_set_fix | simpl; by rewrite <- app_assoc]. }
      destruct r; [done | apply Hnext | apply Hnext].
    + replace (S (length seen)) with (length (seen ++ [@None F]))
        by (rewrite length_app; simpl; lia).
      apply IH. by rewrite <- app_assoc.
Qed.

Lemma aggregate_cons res r rs :
  aggregate res (r :: rs) =
    match r with
    | l_false => l_false
    | l_undef => aggregate l_undef rs
    | l_true => aggregate res rs
    end.
Proof.
  unfold aggregate. destruct r; simpl; try done.
  destruct (existsb is_l_false rs); [done|]. by destruct (existsb is_l_undef rs).
Qed.

Lemma check_loop_verdict todo seen res :
  fst (check_loop seen todo res) =
    aggregate res (omap (fun o : option F => (fun f => fst (fp_make_feasible f)) <$> o) todo).
Proof.
  revert seen res. induction todo as [|o todo IH]; intros seen res; [done|].
  destruct o as [f|]; [|apply IH].
  set (g := fun o : option F => (fun f => fst (fp_make_feasible f)) <$> o).
  change (omap g (Some f :: todo)) with (fst (fp_make_feasible f) :: omap g todo).
  rewrite aggregate_cons. simpl.
  destruct (fp_make_feasible f) as [r f']. simpl.
  destruct r; [done | apply IH | apply IH].
Qed.

Lemma widths_from_lookup (l : list (option F)) i sz :
  sz ∈ widths_from i l <-> (i <= sz)%nat /\ is_Some (mjoin (l !! (sz - i)%nat)).
Proof.
  revert i. induction l as [|o l IH]; intros i; simpl.
  - split; [by intros ?%elem_of_nil|]. intros [_ [x Hx]]. by destruct (sz - i)%nat.
  - assert (Hrest : sz ∈ widths_from (S i) l <->
              (i < sz)%nat /\ is_Some (mjoin ((o :: l) !! (sz - i)%nat))).
    { rewrite IH. split.
      - intros [Hle Hs]. split; [lia|].
        replace (sz - i)%nat with (S (sz - S i)) by lia. done.
      - intros [Hlt Hs]. split; [lia|].
        replace (sz - i)%nat with (S (sz - S i)) in Hs by lia. done. }
    destruct o as [f|].
    + rewrite elem_of_cons, Hrest. split.
      * intros [->|[Hlt Hs]]; [|split; [lia|done]].
        split; [lia|]. rewrite Nat.sub_diag. simpl. eauto.
      * intros [Hle Hs]. destruct (decide (sz = i)) as [->|]; [by left|].
        right. split; [lia|done].
    + rewrite Hrest. split.
      * intros [Hlt Hs]. split; [lia|done].
      * intros [Hle Hs]. destruct (decide (sz = i)) as [->|]; [|split; [lia|done]].
        rewrite Nat.sub_diag in Hs. simpl in Hs. by destruct Hs.
Qed.

Lemma widths_from_sorted (l : list (option F)) i :
  StronglySorted lt (widths_from i l) /\ Forall (fun sz => (i <= sz)%nat) (widths_from i l).
Proof.
  revert i. induction l as [|o l IH]; intros i; simpl.
  - split; constructor.
  - destruct (IH (S i)) as [Hs Hf]. destruct o as [f|].
    + split.
      * constructor; [done|]. eapply Forall_impl; [exact Hf|]. simpl. lia.
      * constructor; [lia|]. eapply Forall_impl; [exact Hf|]. simpl. lia.
    + split; [done|]. eapply Forall_impl; [exact Hf|]. simpl. lia.
Qed.

(** C5 (amended): [check()] asks the engines in the order of the table
    [m_fix], which is increasing bit width; the first engine in that order to
    report infeasible ends the call with infeasible and later engines are not
    asked; with no infeasible the verdict is unknown if an engine reports
    unknown and feasible otherwise. *)
Theorem check_in_table_order (s : linear_solver F) :
  check s = Ok (check_in_order (allocated_widths s) l_true s) /\
  StronglySorted lt (allocated_widths s) /\
  (forall sz, sz ∈ allocated_widths s <-> is_Some (fix_get s sz)) /\
  fst (check_in_order (allocated_widths s) l_true s) = aggregate l_true (verdicts s).
Proof.
  pose proof (check_loop_in_order (m_fix s) [] l_true s eq_refl) as Horder.
  simpl in Horder. fold (allocated_widths s) in Horder.
  repeat split.
  - unfold check. rewrite Horder. by destruct (check_loop [] (m_fix s) l_true).
  - apply widths_from_sorted.
  - unfold allocated_widths. rewrite widths_from_lookup.
    rewrite Nat.sub_0_r. unfold fix_get. intros [_ ?]. done.
  - unfold allocated_widths. rewrite widths_from_lookup.
    rewrite Nat.sub_0_r. unfold fix_get. intros ?. split; [lia|done].
  - rewrite Horder. simpl. apply check_loop_verdict.
Qed.

End Dispatch.

Lemma check_not_in_creation_order :
  ~ checks_in_creation_order (E := false_engine) [64%nat; 32%nat].
Proof.
  intros H.
  specialize (H (fix_set 32 (fp_alloc (fixplex_base := false_engine) generic_uint_ext_unsigned)
                   (fix_set 64 (fp_alloc (fixplex_base := false_engine) uint64_ext) init))
                eq_refl).
  vm_compute in H. discriminate H.
Qed.

Lemma sz2fixplex_dispatch_witness :
  let e32 := fp_alloc (fixplex_base := demo_engine) generic_uint_ext_unsigned in
  let s' := fix_set 32 e32 init in
  (sz2fixplex (E := demo_engine) 32 init = Ok (e32, s') /\
   fix_get s' 32 = Some e32 /\
   (forall w, w <> 32%nat -> fix_get s' w = fix_get init w) /\
   set_fix (m_fix init) s' = init) /\
  sz2fixplex (E := demo_engine) 32 s' = Ok (e32, s') /\
  (exists t',
     run_cmd (E := demo_engine) demo_size Domain.scan_sup Domain.point_ne (c_pop 1)
       (System.push (s', Domain.one_free 32)) = Ok t' /\
     is_Some (fix_get (fst t') 32)) /\
  sz2fixplex (E := demo_engine) 128 init = Err not_implemented_yet.
Proof.
  intros e32 s'.
  destruct (sz2fixplex_dispatch (E := demo_engine) demo_size Domain.scan_sup Domain.point_ne
              init 32 init_supported) as [H32 [Hkept _]].
  destruct H32 as (Hfirst & Hstored & _ & Hothers & Hrest & Hsup).
  split; [by repeat split|]. split; [|split].
  - exact (proj1 (sz2fixplex_dispatch (E := demo_engine) demo_size Domain.scan_sup
                    Domain.point_ne s' 32 Hsup)).
  - eexists. split; [vm_compute; reflexivity|].
    eapply (Hkept (c_pop 1) (System.push (s', Domain.one_free 32))).
    + vm_compute. reflexivity.
    + vm_compute. eexists. reflexivity.
  - exact (proj1 (sz2fixplex_dispatch (E := demo_engine) demo_size Domain.scan_sup
                    Domain.point_ne init 128 init_supported)).
Defined.

(** C4 (the code at the failing input): [assert_le] of [x0 <= 2^32 - 1] at
    width 32 with negative polarity returns normally, having called
    [set_bounds(v, 2^32, 0)] and logged [set_bound_i]. *)
Theorem assert_le_max_not_reported :
  exists s1 s2 e,
    new_constraint (E := demo_engine) (x0_le_max l_undef) init = Ok (tt, s1) /\
    activate_constraint (E := demo_engine) (x0_le_max l_false) s1 = Ok (tt, s2) /\
    fix_get s2 32 = Some e /\
    RecordingEngine.held e =
      (generic_uint_ext_unsigned,
       [(2, [1; 2], [2 ^ 32 - 1; 2 ^ 32 - 1])],
       [RecordingEngine.bounds_set 0 (2 ^ 32) 0], []) /\
    m_trail s2 = set_bound_i :: m_trail s1 /\
    m_rows s2 = (0, 32%nat) :: m_rows s1.
Proof.
  eexists _, _, _. eval_conj.
Qed.

End TrailFacts.

(** ** Bounds of a domain *)

Module DomainBounds.
Import ViableSet Domain DomainFacts.

(** X1: [set_lo(b)] keeps exactly the values of the set that are at least [b]. *)
Theorem set_lo_exact s b x :
  wf s -> value_of s b -> value_of s x ->
  contains (set_lo s b) x = contains s x && (b <=? x).
Proof.
  dom_open s as l h e P. intros Hwf Hb Hx. destruct e; simpl; [bool_cases|].
  destruct Hwf as [?|Hwf]; [congruence|]. bool_cases.
Qed.

Lemma set_lo_exact_witness :
  contains (set_lo (mk_viable_set 4 3 9 false) 5) 7
  = contains (mk_viable_set 4 3 9 false) 7 && (5 <=? 7).
Proof.
  apply (set_lo_exact (mk_viable_set 4 3 9 false) 5 7).
  - right. vm_compute. repeat split; try discriminate; auto.
  - vm_compute. split; [discriminate | reflexivity].
  - vm_compute. split; [discriminate | reflexivity].
Defined.

(** X2: [set_hi(d)] keeps exactly the values at most [d] when the set is free,
    or ends below the top and [d] lies below that end. *)
Theorem set_hi_exact s d x :
  wf s -> value_of s d -> value_of s x ->
  is_free s = true \/ (hi s <> 0 /\ d < hi s) ->
  contains (set_hi s d) x = contains s x && (x <=? d).
Proof.
  dom_open s as l h e P. intros Hwf Hd Hx Hc. destruct e; simpl.
  - destruct Hc as [Hc|Hc]; [simpl in Hc; congruence|]. bool_cases.
  - destruct Hwf as [?|Hwf]; [congruence|].
    destruct Hc as [Hc|Hc]; simpl in Hc; bool_cases.
Qed.

Lemma set_hi_exact_witness :
  contains (set_hi (mk_viable_set 4 3 9 false) 5) 7
  = contains (mk_viable_set 4 3 9 false) 7 && (7 <=? 5).
Proof.
  apply (set_hi_exact (mk_viable_set 4 3 9 false) 5 7).
  - right. vm_compute. repeat split; try discriminate; auto.
  - vm_compute. split; [discriminate | reflexivity].
  - vm_compute. split; [discriminate | reflexivity].
  - right. simpl. split; [discriminate | reflexivity].
Defined.

(** X3: A set that reaches the top of the range ([hi = 0], not free) is left as
    it is by [set_hi(d)] for every [d] from [lo] on: the upper bound is not
    lowered. *)
Theorem set_hi_top_unchanged s d :
  wf s -> emp s = false -> hi s = 0 -> 0 < lo s -> lo s <= d ->
  set_hi s d = s.
Proof.
  dom_open s as l h e P. intros Hwf He Hh Hl Hd. subst e h.
  destruct Hwf as [?|Hwf]; [congruence|]. bool_cases.
Qed.

Lemma set_hi_top_unchanged_witness :
  set_hi (mk_viable_set 4 3 0 false) 5 = mk_viable_set 4 3 0 false.
Proof.
  apply (set_hi_top_unchanged (mk_viable_set 4 3 0 false) 5).
  - right. vm_compute. repeat split; try discriminate; auto.
  - reflexivity.
  - reflexivity.
  - reflexivity.
  - simpl. discriminate.
Defined.

End DomainBounds.

(** ** The bounded search and the hint *)

Module DomainSearch.
Import ViableSet Domain DomainFacts.

Lemma narrow_lo_bounds eval budget s :
  wf s ->
  let r := narrow_lo eval budget s in
  (fst r <= budget)%nat /\
  hi (snd r) = hi s /\
  lo (snd r) = lo s + Z.of_nat (budget - fst r) /\
  (forall x, lo s <= x < lo (snd r) -> eval x = false).
Proof.
  revert s. induction budget as [|n IH]; intros s Hwf; simpl.
  - repeat split; auto; lia.
  - destruct (negb (eval (lo s)) && negb (is_max s (lo s)) && negb (is_empty s)) eqn:Hc.
    + apply andb_prop in Hc as [Hc He]. apply andb_prop in Hc as [Hev Hm].
      apply negb_true_iff in Hev, Hm, He.
      set (s1 := set_lo (with_lo s (lo s + 1)) (lo (with_lo s (lo s + 1)))).
      assert (H1 : wf s1 /\ hi s1 = hi s /\ lo s1 = lo s + 1).
      { subst s1. clear IH. dom_open s as l h e P. subst e. simpl in *.
        destruct Hwf as [?|Hwf]; [congruence|].
        bool_cases; (split; [wf_close|]); done. }
      destruct H1 as (Hwf1 & Hh1 & Hl1).
      destruct (IH s1 Hwf1) as (Hb & Hh & Hl & Hsk).
      change (set_lo (with_lo s (lo s + 1)) (lo s + 1)) with s1.
      destruct (narrow_lo eval n s1) as [b2 s2]. simpl in *.
      split; [lia|]. split; [congruence|]. split; [lia|].
      intros x Hx. destruct (decide (x = lo s)) as [->|Hne]; [done|].
      apply Hsk. lia.
    + simpl. repeat split; auto; lia.
Qed.

(** X4: the bounded search of [narrow] on a well-formed set: it uses at most
    the budget, raises the lower bound by at most the budget, past values that
    violate the predicate only, never moves the upper bound, and stops with
    budget left only on an empty set, at a lower bound that satisfies the
    predicate, or at the largest value. *)
Theorem narrow_raises_lo_only eval budget s :
  wf s ->
  let r := narrow eval budget s in
  (fst r <= budget)%nat /\
  hi (snd r) = hi s /\
  lo s <= lo (snd r) <= lo s + Z.of_nat budget /\
  (forall x, lo s <= x < lo (snd r) -> eval x = false) /\
  (fst r = O \/ emp (snd r) = true \/ eval (lo (snd r)) = true
   \/ is_max (snd r) (lo (snd r)) = true).
Proof.
  intros Hwf.
  pose proof (narrow_spec eval budget s Hwf) as Hs.
  pose proof (narrow_lo_spec eval budget s Hwf) as Hp.
  pose proof (narrow_lo_bounds eval budget s Hwf) as Hb.
  cbv zeta in *. rewrite Hs.
  destruct Hp as (Hwf1 & _ & _ & Hpost). destruct Hb as (Hle & Hh & Hl & Hsk).
  assert (Hf : (fst (narrow eval budget s) <= fst (narrow_lo eval budget s))%nat /\
               (fst (narrow_lo eval budget s) = O -> fst (narrow eval budget s) = O)).
  { unfold narrow. destruct (narrow_lo eval budget s) as [b1 s1]. simpl.
    clear. revert s1. induction b1 as [|n IH]; intros s1; simpl; [lia|].
    destruct ((hi s1 >? 0) && negb (eval (hi s1 - 1)) && negb (is_empty s1)); simpl.
    - destruct (IH (set_hi (with_hi s1 (hi s1 - 1)) (hi (with_hi s1 (hi s1 - 1))))) as [IH1 _].
      split; [|discriminate]. etrans; [exact IH1 | lia].
    - split; [lia | discriminate]. }
  destruct Hf as [Hf1 Hf0].
  split; [lia|]. split; [done|]. split; [lia|]. split; [done|].
  destruct Hpost as [H0|Hpost]; [left; auto | right; exact Hpost].
Qed.

Lemma narrow_raises_lo_only_witness :
  let s := mk_viable_set 4 3 9 false in
  let eval := fun x => 6 <=? x in
  let r := narrow eval 10 s in
  (fst r <= 10)%nat /\
  hi (snd r) = hi s /\
  lo s <= lo (snd r) <= lo s + Z.of_nat 10 /\
  (forall x, lo s <= x < lo (snd r) -> eval x = false) /\
  (fst r = O \/ emp (snd r) = true \/ eval (lo (snd r)) = true
   \/ is_max (snd r) (lo (snd r)) = true).
Proof.
  apply (narrow_raises_lo_only (fun x => 6 <=? x) 10 (mk_viable_set 4 3 9 false)).
  right. vm_compute. repeat split; try discriminate; auto.
Defined.

(** X5: [find_hint] on a well-formed set: it answers empty exactly on the empty
    set and leaves [val] alone; otherwise [val] is the hint when the set
    holds it and [lo] when not, a value of the set in both cases; it answers
    singleton exactly when [lo] is the only value of the set. *)
Theorem find_hint_exact s d val :
  wf s -> value_of s d ->
  match find_hint s d val with
  | (find_empty, x) => is_empty s = true /\ x = val
  | (find_singleton, x) =>
      x = lo s /\ (forall y, value_of s y -> (contains s y = true <-> y = lo s))
  | (find_multiple, x) =>
      x = (if contains s d then d else lo s) /\ value_of s x /\ contains s x = true /\
      exists y, value_of s y /\ y <> x /\ contains s y = true
  end.
Proof.
  dom_open s as l h e P. intros Hwf Hd. unfold find_hint. dom_unfold.
  destruct e; simpl; [done|].
  destruct Hwf as [?|Hwf]; [congruence|].
  change (2 ^ Z.of_nat w) with P.
  destruct ((l + 1 =? h) || (h =? 0) && (l + 1 =? P)) eqn:Hs.
  - split.
    + bool_cases.
    + intros y Hy. split; intros Hy'; bool_cases.
  - split; [done|].
    assert (Hx : exists x, x = (if if l =? h then true
                   else if l <? h then (l <=? d) && (d <? h) else (l <=? d) || (d <? h)
                 then d else l)) by eauto.
    destruct Hx as [x Hx]. rewrite <- Hx.
    assert (Hin : 0 <= x < P /\
                  (if l =? h then true
                   else if l <? h then (l <=? x) && (x <? h) else (l <=? x) || (x <? h)) = true).
    { subst x. bool_cases. }
    destruct Hin as [Hxv Hxin]. split; [done|]. split; [done|].
    destruct (decide (x = l)) as [->|Hne].
    + exists (l + 1). clear Hx. bool_cases.
    + exists l. clear Hx. bool_cases.
Qed.

Lemma find_hint_exact_witness :
  match find_hint (mk_viable_set 4 3 9 false) 11 0 with
  | (find_empty, x) => is_empty (mk_viable_set 4 3 9 false) = true /\ x = 0
  | (find_singleton, x) =>
      x = lo (mk_viable_set 4 3 9 false) /\
      (forall y, value_of (mk_viable_set 4 3 9 false) y ->
         (contains (mk_viable_set 4 3 9 false) y = true <-> y = lo (mk_viable_set 4 3 9 false)))
  | (find_multiple, x) =>
      x = (if contains (mk_viable_set 4 3 9 false) 11 then 11 else lo (mk_viable_set 4 3 9 false)) /\
      value_of (mk_viable_set 4 3 9 false) x /\ contains (mk_viable_set 4 3 9 false) x = true /\
      exists y, value_of (mk_viable_set 4 3 9 false) y /\ y <> x
                /\ contains (mk_viable_set 4 3 9 false) y = true
  end.
Proof.
  apply (find_hint_exact (mk_viable_set 4 3 9 false) 11 0).
  - right. vm_compute. repeat split; try discriminate; auto.
  - vm_compute. split; [discriminate | reflexivity].
Defined.

End DomainSearch.

(** ** Closed forms that are exact *)

Module DomainExact.
Import ViableSet Domain DomainFacts.

(** X6: [is_singleton] on a well-formed set: true exactly when the set is not
    empty and [lo] is its only value. *)
Theorem is_singleton_exact s :
  wf s ->
  is_singleton s = true <->
  is_empty s = false /\
  forall y, value_of s y -> (contains s y = true <-> y = lo s).
Proof.
  unfold is_singleton. dom_open s as l h e P. intros Hwf.
  destruct e; simpl; [split; [done | by intros [? _]]|].
  destruct Hwf as [?|Hwf]; [congruence|]. split.
  - intros Hs. split; [done|]. intros y Hy. split; intros Hy'; bool_cases.
  - intros [_ Hall]. destruct (decide (l + 1 < P)) as [Hlt|Hge].
    + specialize (Hall (l + 1)). destruct Hall as [Hall _]; [lia|].
      destruct (decide (l + 1 = h)) as [Heq|Hne]; [bool_cases|].
      exfalso. assert (l + 1 = l) as Habs; [|lia]. apply Hall. bool_cases.
    + bool_cases.
Qed.

Lemma is_singleton_exact_witness :
  is_singleton (mk_viable_set 4 15 0 false) = true <->
  is_empty (mk_viable_set 4 15 0 false) = false /\
  forall y, value_of (mk_viable_set 4 15 0 false) y ->
    (contains (mk_viable_set 4 15 0 false) y = true <-> y = lo (mk_viable_set 4 15 0 false)).
Proof.
  apply (is_singleton_exact (mk_viable_set 4 15 0 false)).
  right. vm_compute. repeat split; try discriminate; auto.
Defined.

Lemma set_lo_meets s b x :
  wf s -> value_of s b -> value_of s x ->
  contains (set_lo s b) x = contains s x && (b <=? x).
Proof.
  dom_open s as l h e P. intros Hwf Hb Hx. destruct e; simpl; [bool_cases|].
  destruct Hwf as [?|Hwf]; [congruence|]. bool_cases.
Qed.

(** X7: the closed forms of [intersect_ule] that are exact on a well-formed
    set: [a*x <= 0] with an odd [a], under either polarity; [x > d]; and
    [x >= b]. What remains is the previous set intersected with the values
    that satisfy the constraint. *)
Theorem intersect_ule_exact s a b c d (pol : bool) x :
  wf s -> value_of s a -> value_of s b -> value_of s c -> value_of s d -> value_of s x ->
  (Z.odd a = true /\ b = 0 /\ c = 0 /\ d = 0) \/
  (a = 1 /\ b = 0 /\ c = 0 /\ pol = false) \/
  (a = 0 /\ c = 1 /\ d = 0 /\ pol = true) ->
  fst (intersect_ule s a b c d pol) = true /\
  contains (snd (intersect_ule s a b c d pol)) x = contains s x && eval_ule s a b c d pol x.
Proof.
  intros Hwf Ha Hb Hc Hd Hx Hshape.
  pose proof (p2_pos s) as HP.
  destruct (Z.odd a && (b =? 0) && (c =? 0) && (d =? 0)) eqn:H1.
  - (* a*x <= 0 *)
    apply andb_prop in H1 as [H1 Hd0]. apply andb_prop in H1 as [H1 Hc0].
    apply andb_prop in H1 as [Hodd Hb0].
    apply Z.eqb_eq in Hb0, Hc0, Hd0. subst b c d.
    unfold intersect_ule. rewrite Hodd. simpl. split; [done|].
    destruct (mult_inverse_odd (m_num_bits s) a Hodd) as (a_inv & _ & _ & Hinv).
    fold (p2 s) in Hinv.
    pose proof (unique_solution (p2 s) a a_inv 0 x HP Hinv Hx) as Hu.
    replace ((a_inv * - 0) mod p2 s) with 0 in Hu by (by rewrite Z.mul_0_r, Z.mod_0_l by lia).
    assert (Hev : eval_ule s a 0 0 0 pol x = (if pol then x =? 0 else negb (x =? 0))).
    { unfold eval_ule. rewrite Z.mul_0_l, Z.add_0_l, Z.mod_0_l by lia.
      pose proof (Z.mod_pos_bound (a * x + 0) (p2 s) HP).
      destruct (Z.eqb_spec x 0) as [->|Hne].
      - rewrite Z.mul_0_r, Z.add_0_l, Z.mod_0_l by lia. by destruct pol.
      - assert ((a * x + 0) mod p2 s <> 0) by (intros Hz; apply Hne; by apply Hu).
        destruct (Z.leb_spec ((a * x + 0) mod p2 s) 0); [lia|]. by destruct pol. }
    rewrite Hev. destruct pol.
    + by apply (point_positive s 0 Hb x Hx).
    + pose proof (point_negative s 0 Hwf Hb) as Hp. rewrite zero_not_interior in Hp by done.
      by apply Hp.
  - assert (Hmod : forall y, value_of s y -> y mod p2 s = y) by (intros; by apply mod_value).
    unfold intersect_ule. rewrite H1.
    destruct Hshape as [(Hodd & -> & -> & ->)|[(-> & -> & -> & ->)|(-> & -> & -> & ->)]].
    + rewrite Hodd in H1. done.
    + simpl. unfold eval_ule. rewrite Z.mul_1_l, Z.add_0_r, Z.mul_0_l, Z.add_0_l.
      rewrite !Hmod by done. simpl.
      destruct (is_max s d) eqn:Hm; simpl; (split; [done|]).
      * rewrite contains_set_empty. unfold is_max in Hm. apply Z.eqb_eq in Hm.
        unfold value_of in Hx. destruct (Z.leb_spec x d); [|lia].
        by rewrite andb_false_r.
      * unfold is_max in Hm. apply Z.eqb_neq in Hm.
        rewrite set_lo_meets by (try done; unfold value_of in *; lia).
        f_equal. destruct (Z.leb_spec (d + 1) x), (Z.leb_spec x d); simpl; try done; lia.
    + simpl. unfold eval_ule. rewrite Z.mul_1_l, Z.add_0_r, Z.mul_0_l, Z.add_0_l.
      rewrite !Hmod by done. simpl. split; [done|].
      rewrite set_lo_meets by done. f_equal. by destruct (b <=? x).
Qed.

Lemma intersect_ule_exact_witness :
  fst (intersect_ule (free 4) 1 0 0 9 false) = true /\
  contains (snd (intersect_ule (free 4) 1 0 0 9 false)) 12
  = contains (free 4) 12 && eval_ule (free 4) 1 0 0 9 false 12.
Proof.
  apply (intersect_ule_exact (free 4) 1 0 0 9 false 12);
    try (vm_compute; split; [discriminate | reflexivity]).
  - right. vm_compute. repeat split; try discriminate; auto.
  - right. left. done.
Defined.

End DomainExact.

(** ** Solving an equation with an odd coefficient *)

Module DomainSolve.
Import ViableSet Domain DomainFacts.

(** X8: after [intersect_eq(a, b, true)] with an odd [a], [find_hint] never
    answers multiple: it answers singleton with a value of the previous set
    that solves [a*x + b = 0] modulo [2^w], or empty when the previous set
    holds no solution. *)
Theorem odd_equation_solved s a b d val :
  wf s -> Z.odd a = true -> value_of s d ->
  match find_hint (snd (intersect_eq s a b true)) d val with
  | (find_empty, x) =>
      x = val /\
      forall y, value_of s y -> contains s y = true -> (a * y + b) mod p2 s <> 0
  | (find_singleton, x) =>
      value_of s x /\ contains s x = true /\ (a * x + b) mod p2 s = 0
  | (find_multiple, _) => False
  end.
Proof.
  intros Hwf Ha Hd.
  destruct (intersect_eq_odd s a b true Ha) as (a_inv & _ & Hinv & ->). simpl.
  pose proof (p2_pos s) as HP.
  assert (Hu : forall x, value_of s x ->
             ((a * x + b) mod p2 s = 0 <-> x = (a_inv * - b) mod p2 s)).
  { intros x Hx. by apply unique_solution. }
  assert (Hp : value_of s ((a_inv * - b) mod p2 s)) by (apply Z.mod_pos_bound; lia).
  revert Hu Hp. generalize ((a_inv * - b) mod p2 s) as p. intros p Hu Hp.
  assert (Hsol : (a * p + b) mod p2 s = 0) by (by apply Hu).
  assert (Hno : forall y, value_of s y -> y <> p -> (a * y + b) mod p2 s <> 0).
  { intros y Hy Hne Hz. apply Hne. by apply Hu. }
  clear Hu Hinv Ha HP.
  unfold find_hint.
  dom_open s as l h e P.
  destruct e; simpl.
  - split; [done|]. intros; congruence.
  - destruct Hwf as [?|Hwf]; [congruence|].
    destruct (negb (if l =? h then true
                    else if l <? h then (l <=? p) && (p <? h) else (l <=? p) || (p <? h)))
      eqn:Hc; simpl.
    + split; [done|]. intros y Hy Hin. apply Hno; [done|]. intros ->.
      apply negb_true_iff in Hc. congruence.
    + apply negb_false_iff in Hc.
      assert (Hpin : contains (mk_viable_set w l h false) p = true) by exact Hc.
      clear Hc.
      destruct (p + 1 =? P) eqn:Hm; simpl;
        (match goal with
         | |- context [if ?c then (find_singleton, _) else _] =>
             replace c with true by bool_cases
         end);
        (match goal with
         | |- context [if ?c then d else p] =>
             replace (if c then d else p) with p by bool_cases
         end);
        dom_unfold; done.
Qed.

Lemma odd_equation_solved_witness :
  match find_hint (snd (intersect_eq (free 4) 3 1 true)) 0 0 with
  | (find_empty, x) =>
      x = 0 /\
      forall y, value_of (free 4) y -> contains (free 4) y = true ->
                (3 * y + 1) mod p2 (free 4) <> 0
  | (find_singleton, x) =>
      value_of (free 4) x /\ contains (free 4) x = true /\ (3 * x + 1) mod p2 (free 4) = 0
  | (find_multiple, _) => False
  end.
Proof.
  apply (odd_equation_solved (free 4) 3 1 0 0).
  - right. vm_compute. repeat split; try discriminate; auto.
  - reflexivity.
  - vm_compute. split; [discriminate | reflexivity].
Defined.

End DomainSolve.

(** ** What the mutators of the tracker report *)

Module TrackerReports.
Import ViableSet Domain DomainFacts Tracking ViableQueries.

Lemma finish_mutation v d dnew s cache :
  Viable.m_viable s !! v = Some d ->
  exists s',
    Viable.conflict_if_empty v
      (Viable.mk_viable (<[v := dnew]> (Viable.m_viable s)) ((v, d) :: Viable.m_viable_trail s)
         (Viable.viable_i :: Viable.s_trail s) cache (Viable.s_conflict s)) = Ok s' /\
    Viable.m_viable s' !! v = Some dnew /\
    mutated v s s'.
Proof.
  intros Hd. apply lookup_lt_Some in Hd as Hlt.
  unfold Viable.conflict_if_empty. simpl.
  rewrite list_lookup_insert_eq by done.
  eexists. split; [reflexivity|].
  assert (Hl : forall c, Viable.m_viable
             (if is_empty dnew
              then Viable.set_conflict v (Viable.mk_viable (<[v := dnew]> (Viable.m_viable s))
                     ((v, d) :: Viable.m_viable_trail s) (Viable.viable_i :: Viable.s_trail s)
                     cache c)
              else Viable.mk_viable (<[v := dnew]> (Viable.m_viable s))
                     ((v, d) :: Viable.m_viable_trail s) (Viable.viable_i :: Viable.s_trail s)
                     cache c) = <[v := dnew]> (Viable.m_viable s)).
  { intros c. by destruct (is_empty dnew). }
  split.
  - rewrite Hl. by apply list_lookup_insert_eq.
  - exists d, dnew. unfold Viable.has_viable. rewrite !Hl.
    rewrite list_lookup_insert_eq by done.
    repeat split; try done.
    + intros w Hw. by rewrite list_lookup_insert_ne.
    + by rewrite length_insert.
    + by destruct (is_empty dnew).
    + by destruct (is_empty dnew).
    + by destruct (is_empty dnew).
Qed.

Lemma push_viable_Some v d s :
  Viable.m_viable s !! v = Some d ->
  Viable.push_viable v s =
    Ok (Viable.mk_viable (Viable.m_viable s) ((v, d) :: Viable.m_viable_trail s)
          (Viable.viable_i :: Viable.s_trail s) (Viable.m_ineq_cache s) (Viable.s_conflict s)).
Proof. intros H. unfold Viable.push_viable. by rewrite H. Qed.

Lemma intersect_eq_mutated a v b pol s d :
  Viable.m_viable s !! v = Some d ->
  exists s', Viable.intersect_eq a v b pol s = Ok s' /\
    Viable.m_viable s' !! v =
      Some (if fst (intersect_eq d a b pol) then snd (intersect_eq d a b pol)
            else snd (intersect_eq_budget (snd (intersect_eq d a b pol)) a b pol 10)) /\
    mutated v s s'.
Proof.
  intros Hd. unfold Viable.intersect_eq. rewrite (push_viable_Some v d s Hd). simpl.
  rewrite Hd. destruct (intersect_eq d a b pol) as [ok d1]. destruct ok; simpl.
  - apply (finish_mutation v d d1 s (Viable.m_ineq_cache s) Hd).
  - destruct (intersect_eq_budget d1 a b pol 10) as [budget d2]. simpl.
    unfold Viable.set_viable. simpl. rewrite list_insert_insert_eq.
    apply (finish_mutation v d d2 s (Viable.m_ineq_cache s) Hd).
Qed.

Lemma add_non_viable_mutated set_ne v val s d :
  Viable.m_viable s !! v = Some d ->
  exists s', Viable.add_non_viable set_ne v val s = Ok s' /\
    Viable.m_viable s' !! v = Some (set_ne d val) /\
    mutated v s s'.
Proof.
  intros Hd. unfold Viable.add_non_viable. rewrite (push_viable_Some v d s Hd). simpl.
  rewrite Hd. apply (finish_mutation v d (set_ne d val) s (Viable.m_ineq_cache s) Hd).
Qed.

Lemma intersect_ule_mutated size fdd_sup set_ne v a b c e pol s d :
  Viable.m_viable s !! v = Some d ->
  exists s', Viable.intersect_ule size fdd_sup set_ne v a b c e pol s = Ok s' /\ mutated v s s'.
Proof.
  intros Hd. unfold Viable.intersect_ule. rewrite (push_viable_Some v d s Hd). simpl.
  rewrite Hd. destruct (intersect_ule d a b c e pol) as [ok d1]. destruct ok; simpl.
  { destruct (finish_mutation v d d1 s (Viable.m_ineq_cache s) Hd) as (s' & H1 & _ & H2).
    by exists s'. }
  destruct (intersect_ule_budget d1 a b c e pol 10) as [budget d2]. simpl.
  destruct budget as [|budget'].
  2:{ unfold Viable.set_viable. simpl. rewrite list_insert_insert_eq.
      destruct (finish_mutation v d d2 s (Viable.m_ineq_cache s) Hd) as (s' & H1 & _ & H2).
      by exists s'. }
  unfold Viable.cache_lookup. simpl.
  destruct (default _ _) as [repr act]. simpl.
  destruct (fdd_sup _ _ _) as [bound|]; unfold Viable.set_viable; simpl;
    rewrite ?list_insert_insert_eq.
  - destruct (finish_mutation v d (set_ne (set_lo d2 bound) bound) s
                (<[(size v, a, b, c, e) := (repr, S act)]> (Viable.m_ineq_cache s)) Hd)
      as (s' & H1 & _ & H2).
    by exists s'.
  - destruct (finish_mutation v d d2 s
                (<[(size v, a, b, c, e) := (repr, S act)]> (Viable.m_ineq_cache s)) Hd)
      as (s' & H1 & _ & H2).
    by exists s'.
Qed.

(** X9: each mutator of the tracker returns on a variable that has a domain,
    and leaves what [mutated] says: one trail entry with the previous domain,
    the other domains alone, a conflict exactly when the domain ends empty. *)
Theorem mutators_report
    (size : pvar -> nat) (fdd_sup : nat -> Viable.bdd -> Z -> option Z)
    (set_ne : viable_set -> Z -> viable_set)
    (s : Viable.viable) (v : pvar) (d : viable_set) :
  Viable.m_viable s !! v = Some d ->
  (forall a b pol, exists s', Viable.intersect_eq a v b pol s = Ok s' /\ mutated v s s') /\
  (forall a b c e pol,
     exists s', Viable.intersect_ule size fdd_sup set_ne v a b c e pol s = Ok s' /\ mutated v s s') /\
  (forall val, exists s', Viable.add_non_viable set_ne v val s = Ok s' /\ mutated v s s').
Proof.
  intros Hd. split; [|split].
  - intros a b pol. destruct (intersect_eq_mutated a v b pol s d Hd) as (s' & H1 & _ & H2).
    by exists s'.
  - intros a b c e pol. by apply (intersect_ule_mutated size fdd_sup set_ne v a b c e pol s d).
  - intros val. destruct (add_non_viable_mutated set_ne v val s d Hd) as (s' & H1 & _ & H2).
    by exists s'.
Qed.

Lemma mutators_report_witness :
  (forall a b pol, exists s',
     Viable.intersect_eq a 0%nat b pol (one_free 4) = Ok s' /\ mutated 0%nat (one_free 4) s') /\
  (forall a b c e pol, exists s',
     Viable.intersect_ule (fun _ => 4%nat) scan_sup point_ne 0%nat a b c e pol (one_free 4) = Ok s' /\
     mutated 0%nat (one_free 4) s') /\
  (forall val, exists s',
     Viable.add_non_viable point_ne 0%nat val (one_free 4) = Ok s' /\
     mutated 0%nat (one_free 4) s').
Proof.
  apply (mutators_report (fun _ => 4%nat) scan_sup point_ne (one_free 4) 0%nat (free 4)).
  reflexivity.
Defined.

(** X11: [find_viable] agrees with the two queries: it answers empty exactly
    when [has_viable] is false, and otherwise returns a value that
    [is_viable] accepts, the current value of the variable whenever that one
    is viable. *)
Theorem find_viable_viable (m_value : list Z) (s : Viable.viable) (v : pvar) (val : Z)
    (r : find_t) (x : Z) :
  find_viable m_value v val s = Ok (r, x) ->
  exists cur, m_value !! v = Some cur /\
  match r with
  | find_empty => Viable.has_viable v s = Ok false /\ x = val
  | _ =>
      Viable.has_viable v s = Ok true /\
      Viable.is_viable v x s = Ok true /\
      (Viable.is_viable v cur s = Ok true -> x = cur)
  end.
Proof.
  unfold find_viable, Viable.has_viable, Viable.is_viable.
  destruct (Viable.m_viable s !! v) as [d|]; [|done].
  destruct (m_value !! v) as [cur|]; [|done].
  intros [= H]. exists cur. split; [done|]. revert H. unfold find_hint.
  destruct (is_empty d) eqn:He; [by intros [= <- <-]|].
  assert (Hlo : contains d (lo d) = true).
  { unfold contains. rewrite He. destruct (is_free d); [done|].
    destruct (lo d <? hi d) eqn:Hlt.
    - by rewrite Z.leb_refl.
    - by rewrite Z.leb_refl. }
  destruct (contains d cur) eqn:Hc;
    destruct ((lo d + 1 =? hi d) || (hi d =? 0) && is_max d (lo d));
    intros [= <- <-]; simpl; repeat split; try done; by rewrite ?Hc, ?Hlo.
Qed.

Lemma find_viable_viable_witness :
  exists cur, [7] !! 0%nat = Some cur /\
  Viable.has_viable 0%nat (one_free 4) = Ok true /\
  Viable.is_viable 0%nat 7 (one_free 4) = Ok true /\
  (Viable.is_viable 0%nat cur (one_free 4) = Ok true -> 7 = cur).
Proof.
  apply (find_viable_viable [7] (one_free 4) 0%nat 0 find_multiple 7).
  reflexivity.
Defined.

End TrackerReports.

(** ** Conflicts of equations, and the diagram domains *)

Module TrackerSolve.
Import ViableSet Domain DomainFacts Tracking ViableQueries TrackerReports TrailFacts.

(** X12: [viable::intersect_eq(a, v, b, true)] with an odd [a]: the equation
    has one solution [p] among the values of the width; afterwards exactly
    the previous values equal to [p] are viable, and a conflict on [v] is
    reported exactly when the previous domain did not hold [p]. *)
Theorem odd_equation_conflict (s : Viable.viable) (v : pvar) (d : viable_set) (a b : Z) :
  Viable.m_viable s !! v = Some d -> Z.odd a = true ->
  exists s' p,
    value_of d p /\
    (forall y, value_of d y -> ((a * y + b) mod p2 d = 0 <-> y = p)) /\
    Viable.intersect_eq a v b true s = Ok s' /\
    Viable.has_viable v s' = Ok (contains d p) /\
    Viable.s_conflict s' =
      (if contains d p then Viable.s_conflict s else v :: Viable.s_conflict s) /\
    forall x, value_of d x -> Viable.is_viable v x s' = Ok (contains d x && (x =? p)).
Proof.
  intros Hd Ha.
  destruct (intersect_eq_mutated a v b true s d Hd) as (s' & Hs' & Hd' & Hm).
  destruct (intersect_eq_odd d a b true Ha) as (a_inv & _ & Hinv & Heq).
  rewrite Heq in Hd'. simpl in Hd'.
  pose proof (p2_pos d) as HP.
  set (p := (a_inv * - b) mod p2 d) in *.
  assert (Hp : value_of d p) by (apply Z.mod_pos_bound; lia).
  exists s', p. split; [done|]. split.
  { intros y Hy. by apply unique_solution. }
  split; [done|].
  assert (He : is_empty (intersect_eq_point d p true) = negb (contains d p)).
  { clear. generalize p. clear p. intros p. destruct d as [w l h e]. dom_unfold.
    destruct e; simpl; [done|]. bool_cases. }
  destruct Hm as (d0 & d1 & Hd0 & Hd1 & _ & _ & _ & _ & Hc & Hh).
  rewrite Hd' in Hd1. injection Hd1 as <-.
  rewrite He in Hc, Hh. rewrite negb_involutive in Hh.
  split; [done|]. split; [by destruct (contains d p)|].
  intros x Hx. unfold Viable.is_viable. rewrite Hd'. f_equal.
  by apply (point_positive d p Hp x Hx).
Qed.

Lemma odd_equation_conflict_witness :
  exists s' p,
    value_of (free 4) p /\
    (forall y, value_of (free 4) y -> ((3 * y + 1) mod p2 (free 4) = 0 <-> y = p)) /\
    Viable.intersect_eq 3 0%nat 1 true (one_free 4) = Ok s' /\
    Viable.has_viable 0%nat s' = Ok (contains (free 4) p) /\
    Viable.s_conflict s' =
      (if contains (free 4) p then Viable.s_conflict (one_free 4)
       else 0%nat :: Viable.s_conflict (one_free 4)) /\
    forall x, value_of (free 4) x ->
      Viable.is_viable 0%nat x s' = Ok (contains (free 4) x && (x =? p)).
Proof.
  apply (odd_equation_conflict (one_free 4) 0%nat (free 4) 3 1); reflexivity.
Defined.

Section Bits.
Context {Mgr Fdd : Type}.
Variable fdd_new : Mgr -> nat -> Fdd * Mgr.

(** X13: [sz2bits] at any width: the first call builds the diagram domain of
    that width and stores it, a later call returns the stored one and changes
    nothing; the domains of the other widths are not touched, and the manager
    is only used when a domain is built. Two variables of one width share
    their domain. *)
Theorem sz2bits_cached (sz : nat) (s : bits_state) :
  let '(b, s') := sz2bits fdd_new sz s in
  sz2bits fdd_new sz s' = (b, s') /\
  mjoin (m_bits s' !! sz) = Some b /\
  (forall w, w <> sz -> mjoin (m_bits s' !! w) = mjoin (m_bits s !! w)) /\
  match mjoin (m_bits s !! sz) with
  | Some b0 => b = b0 /\ m_bdd s' = m_bdd s
  | None => (b, m_bdd s') = fdd_new (m_bdd s) sz
  end /\
  forall (size : pvar -> nat) v v', size v = sz -> size v' = sz ->
    var2bits fdd_new size v s = (b, s') /\ var2bits fdd_new size v' s' = (b, s').
Proof.
  assert (Hmain : forall b s', sz2bits fdd_new sz s = (b, s') ->
            sz2bits fdd_new sz s' = (b, s') /\
            mjoin (m_bits s' !! sz) = Some b /\
            (forall w, w <> sz -> mjoin (m_bits s' !! w) = mjoin (m_bits s !! w)) /\
            match mjoin (m_bits s !! sz) with
            | Some b0 => b = b0 /\ m_bdd s' = m_bdd s
            | None => (b, m_bdd s') = fdd_new (m_bdd s) sz
            end).
  { unfold sz2bits.
    set (bits := LinearSolver.reserve (S sz) None (m_bits s)).
    assert (Hlen : (sz < length bits)%nat).
    { pose proof (length_reserve (S sz) (@None Fdd) (m_bits s)). subst bits. lia. }
    assert (Hl : forall w, mjoin (bits !! w) = mjoin (m_bits s !! w)).
    { intros w. subst bits. rewrite lookup_reserve.
      destruct (decide (w < length (m_bits s))%nat) as [?|Hge]; [done|].
      rewrite (lookup_ge_None_2 (m_bits s) w) by lia. by case_decide. }
    assert (Hres : forall l : list (option Fdd),
               (sz < length l)%nat -> LinearSolver.reserve (S sz) None l = l).
    { intros l Hlt. unfold LinearSolver.reserve.
      replace (S sz - length l)%nat with O by lia. simpl. by rewrite app_nil_r. }
    rewrite <- (Hl sz).
    destruct (mjoin (bits !! sz)) as [b0|] eqn:Hb; intros b s'.
    - intros [= <- <-]. simpl. rewrite (Hres bits Hlen), Hb. by repeat split.
    - destruct (fdd_new (m_bdd s) sz) as [b1 m] eqn:Hn. intros [= <- <-]. simpl.
      rewrite Hres by (by rewrite length_insert).
      rewrite list_lookup_insert_eq by done. simpl.
      repeat split; try done.
      intros w Hw. by rewrite list_lookup_insert_ne. }
  destruct (sz2bits fdd_new sz s) as [b s'] eqn:Hs.
  destruct (Hmain b s' eq_refl) as (H1 & H2 & H3 & H4).
  repeat split; try done; unfold var2bits; congruence.
Qed.

End Bits.

Lemma sz2bits_cached_witness :
  let fdd_new := fun m sz : nat => ((m, sz), (m + sz)%nat) in
  let s := mk_bits_state 0%nat [] in
  let s' := mk_bits_state 4%nat [None; None; None; None; Some (0%nat, 4%nat)] in
  sz2bits fdd_new 4 s = ((0%nat, 4%nat), s') /\
  sz2bits fdd_new 4 s' = ((0%nat, 4%nat), s') /\
  var2bits fdd_new (fun _ => 4%nat) 0%nat s = ((0%nat, 4%nat), s') /\
  var2bits fdd_new (fun _ => 4%nat) 1%nat s' = ((0%nat, 4%nat), s').
Proof.
  pose proof (sz2bits_cached (fun m sz : nat => ((m, sz), (m + sz)%nat)) 4
                (mk_bits_state 0%nat [])) as H.
  vm_compute in H. destruct H as (H1 & _ & _ & _ & H5).
  split; [reflexivity|]. split; [exact H1|].
  exact (H5 (fun _ => 4%nat) 0%nat 1%nat eq_refl eq_refl).
Defined.

End TrackerSolve.

(** ** Counters of the linear solver *)

Module SolverCalls.
Import LinearSolver Trail System Examples TrailFacts.

Section Calls.
Context {F St : Type} {E : fixplex_base F St}.

Lemma num_vars_reserve (l : linear_solver F) sz c :
  reserve (S sz) 0 (m_sz2num_vars l) !! sz = Some c <-> c = num_vars l sz.
Proof.
  unfold num_vars. rewrite lookup_reserve.
  destruct (decide (sz < length (m_sz2num_vars l))%nat) as [Hlt|Hge].
  - destruct (lookup_lt_is_Some_2 _ _ Hlt) as [c0 Hc0]. rewrite Hc0. simpl.
    split; [by intros [= ->] | by intros ->].
  - rewrite (lookup_ge_None_2 (m_sz2num_vars l) sz) by lia. simpl.
    rewrite decide_True by lia. split; [by intros [= <-] | by intros ->].
Qed.

Lemma fresh_var_run sz (s : linear_solver F) :
  fresh_var sz s =
    Ok (num_vars s sz,
        mk_linear_solver (add_var_i :: m_trail s) ((0, sz) :: m_rows s)
          (<[sz := uint_incr (num_vars s sz)]> (reserve (S sz) 0 (m_sz2num_vars s)))
          (m_mono2var s) (m_monomials s) (m_fix s) (m_bool_var2row s) (m_vars s) (m_coeffs s)).
Proof.
  unfold fresh_var, bind, modify, push_trail, push_row. simpl.
  destruct (reserve (S sz) 0 (m_sz2num_vars s) !! sz) as [c|] eqn:Hc.
  - apply num_vars_reserve in Hc as ->. done.
  - apply lookup_ge_None in Hc. pose proof (length_reserve (S sz) 0 (m_sz2num_vars s)). lia.
Qed.

Lemma num_vars_insert (s : linear_solver F) cs sz c w :
  (sz < length cs)%nat ->
  num_vars (set_sz2num_vars (<[sz := c]> cs) s) w =
    if decide (w = sz) then c else default 0 (cs !! w).
Proof.
  intros Hlt. unfold num_vars. simpl. case_decide as Hw.
  - subst. by rewrite list_lookup_insert_eq.
  - by rewrite list_lookup_insert_ne.
Qed.

Lemma default_reserve (l : list Z) n w : default 0 (reserve n 0 l !! w) = default 0 (l !! w).
Proof.
  rewrite lookup_reserve. case_decide as H1; [done|].
  rewrite (lookup_ge_None_2 l w) by lia. by case_decide.
Qed.

(** X14: [fresh_var(sz)] always returns: it gives the number of variables of
    width [sz] created so far and not undone, moves that counter up by one
    (modulo [2^32]) and leaves the counters of the other widths, the tables
    and the engines alone; the trail and the rows get one entry each. *)
Theorem fresh_var_counts (sz : nat) (s : linear_solver F) :
  exists s',
    fresh_var sz s = Ok (num_vars s sz, s') /\
    num_vars s' sz = uint_incr (num_vars s sz) /\
    (forall w, w <> sz -> num_vars s' w = num_vars s w) /\
    m_trail s' = add_var_i :: m_trail s /\
    m_rows s' = (0, sz) :: m_rows s /\
    m_mono2var s' = m_mono2var s /\
    m_monomials s' = m_monomials s /\
    m_fix s' = m_fix s.
Proof.
  eexists. split; [apply fresh_var_run|].
  pose proof (length_reserve (S sz) 0 (m_sz2num_vars s)) as Hlen.
  split; [|split; [|done]].
  - unfold num_vars at 1. simpl. by rewrite list_lookup_insert_eq by lia.
  - intros w Hw. unfold num_vars. simpl.
    rewrite list_lookup_insert_ne by done. apply default_reserve.
Qed.

Lemma mono2var_run sz var (s : linear_solver F) :
  mono2var sz var s =
    match m_mono2var s !! (sz, var) with
    | Some v => Ok (v, s)
    | None =>
        Ok (num_vars s sz,
            mk_linear_solver (add_mono_i :: add_var_i :: m_trail s) ((0, sz) :: m_rows s)
              (<[sz := uint_incr (num_vars s sz)]> (reserve (S sz) 0 (m_sz2num_vars s)))
              (<[(sz, var) := num_vars s sz]> (m_mono2var s))
              (((sz, var), num_vars s sz) :: m_monomials s)
              (m_fix s) (m_bool_var2row s) (m_vars s) (m_coeffs s))
    end.
Proof.
  unfold mono2var. destruct (m_mono2var s !! (sz, var)); [done|].
  unfold bind at 1. rewrite fresh_var_run. done.
Qed.

End Calls.

Lemma fresh_var_counts_witness :
  let s : linear_solver RecordingEngine.engine := init in
  exists s',
    fresh_var 32 s = Ok (num_vars s 32, s') /\
    num_vars s' 32 = uint_incr (num_vars s 32) /\
    num_vars s' 64 = num_vars s 64 /\
    m_trail s' = add_var_i :: m_trail s /\
    m_rows s' = (0, 32%nat) :: m_rows s.
Proof.
  destruct (fresh_var_counts 32 (init (F := RecordingEngine.engine)))
    as (s' & H1 & H2 & H3 & H4 & H5 & _).
  exists s'. split; [exact H1|]. split; [exact H2|]. split; [|by split].
  apply H3. discriminate.
Defined.

End SolverCalls.

(** ** Rows of polynomials *)

Module SolverRows.
Import LinearSolver Trail System Examples TrailFacts SolverCalls Effects.

Section Rows.
Context {F St : Type} {E : fixplex_base F St}.

Lemma mono2var_table sz var (s : linear_solver F) :
  exists v s',
    mono2var sz var s = Ok (v, s') /\
    m_mono2var s' !! (sz, var) = Some v /\
    (forall k x, m_mono2var s !! k = Some x -> m_mono2var s' !! k = Some x) /\
    m_fix s' = m_fix s /\ m_bool_var2row s' = m_bool_var2row s /\
    m_vars s' = m_vars s /\ m_coeffs s' = m_coeffs s.
Proof.
  rewrite mono2var_run. destruct (m_mono2var s !! (sz, var)) as [v|] eqn:Hk.
  - by exists v, s.
  - eexists _, _. split; [reflexivity|]. cbn [m_mono2var m_fix m_bool_var2row m_vars m_coeffs].
    split; [by rewrite lookup_insert_eq|]. split; [|done].
    intros k x Hx. destruct (decide (k = (sz, var))) as [->|Hne];
      [unfold mono_key in *; congruence|].
    by rewrite lookup_insert_ne.
Qed.

Lemma linearize_loop_scratch sz ms (s : linear_solver F) :
  exists s' vs,
    linearize_loop sz ms s = Ok (tt, s') /\
    m_vars s' = m_vars s ++ vs /\
    m_coeffs s' = m_coeffs s ++ ms.*1 /\
    Forall2 (fun m v => m_mono2var s' !! (sz, m.2) = Some v) ms vs /\
    (forall k x, m_mono2var s !! k = Some x -> m_mono2var s' !! k = Some x) /\
    m_fix s' = m_fix s /\ m_bool_var2row s' = m_bool_var2row s.
Proof.
  revert s. induction ms as [|m ms IH]; intros s; simpl.
  - exists s, []. rewrite !app_nil_r. by repeat split.
  - destruct (mono2var_table sz m.2 s) as (v & s1 & Hm & Hv & Hmono & Hf & Hb & Hvs & Hcs).
    unfold bind at 1. rewrite Hm. unfold bind at 1, modify at 1.
    destruct (IH (set_scratch (m_vars s1 ++ [v]) (m_coeffs s1 ++ [m.1]) s1))
      as (s' & vs & Hl & Hvs' & Hcs' & Hall & Hmono' & Hf' & Hb').
    exists s', (v :: vs). split; [exact Hl|]. simpl in *.
    split; [by rewrite Hvs', Hvs, <- app_assoc|].
    split; [by rewrite Hcs', Hcs, <- app_assoc|].
    split; [constructor; [by apply Hmono'|done]|].
    split; [by intros k x Hx; apply Hmono', Hmono|].
    split; congruence.
Qed.

Lemma linearize_run (p : pdd) (s : linear_solver F) :
  exists s',
    linearize p s = Ok (tt, s') /\
    m_coeffs s' = (monomials_of p).*1 /\
    length (m_vars s') = length (monomials_of p) /\
    m_fix s' = m_fix s /\
    m_bool_var2row s' = m_bool_var2row s.
Proof.
  unfold linearize. unfold bind at 1, modify at 1.
  destruct (linearize_loop_scratch (power_of_2 p) (monomials_of p) (set_scratch [] [] s))
    as (s' & vs & Hl & Hvs & Hcs & Hall & Hmono & Hf & Hb).
  exists s'. split; [exact Hl|]. simpl in Hvs, Hcs, Hf, Hb.
  rewrite Hvs. apply Forall2_length in Hall. by repeat split.
Qed.

(** X15: [linearize(p)] always returns; it leaves in [m_coeffs] the coefficients
    of [p] in order and in [m_vars], position by position, the variable the
    table holds for each monomial; the table only grows, and no engine is
    touched. *)
Theorem linearize_scratch (p : pdd) (s : linear_solver F) :
  exists s',
    linearize p s = Ok (tt, s') /\
    m_coeffs s' = (monomials_of p).*1 /\
    Forall2 (fun m v => m_mono2var s' !! (power_of_2 p, m.2) = Some v)
      (monomials_of p) (m_vars s') /\
    (forall k x, m_mono2var s !! k = Some x -> m_mono2var s' !! k = Some x) /\
    m_fix s' = m_fix s.
Proof.
  unfold linearize. unfold bind at 1, modify at 1.
  destruct (linearize_loop_scratch (power_of_2 p) (monomials_of p) (set_scratch [] [] s))
    as (s' & vs & Hl & Hvs & Hcs & Hall & Hmono & Hf & _).
  exists s'. split; [exact Hl|]. simpl in Hvs, Hcs, Hmono, Hf. by rewrite Hvs.
Qed.

(** X16: [internalize_pdd] of a polynomial that is one monomial with coefficient
    1 is [mono2var] of that monomial: the interned variable is returned, no
    row variable is created and no engine is asked for, whatever the width. *)
Theorem internalize_pdd_single (sz : nat) (var : list pvar) (s : linear_solver F) :
  exists v s1,
    mono2var sz var (set_scratch [] [] s) = Ok (v, s1) /\
    internalize_pdd (mk_pdd sz [(1, var)]) s = Ok (v, set_scratch [v] [1] s1) /\
    m_fix s1 = m_fix s.
Proof.
  destruct (mono2var_table sz var (set_scratch [] [] s))
    as (v & s1 & Hm & _ & _ & Hf & _ & Hvs & Hcs).
  exists v, s1. split; [done|]. split; [|done].
  unfold internalize_pdd, linearize. simpl.
  unfold bind at 1. unfold bind at 1, modify at 1. unfold bind at 1. rewrite Hm.
  unfold bind at 1, modify at 1. unfold ret. simpl. rewrite Hvs, Hcs. simpl. done.
Qed.

Lemma available_run sz (s : linear_solver F) e :
  available s sz e ->
  exists s1, sz2fixplex sz s = Ok (e, s1) /\ fix_get s1 sz = Some e /\
    (forall w, w <> sz -> fix_get s1 w = fix_get s w) /\
    m_trail s1 = m_trail s /\ m_rows s1 = m_rows s /\ m_sz2num_vars s1 = m_sz2num_vars s /\
    m_mono2var s1 = m_mono2var s /\ m_monomials s1 = m_monomials s /\
    m_bool_var2row s1 = m_bool_var2row s /\ m_vars s1 = m_vars s /\ m_coeffs s1 = m_coeffs s.
Proof.
  unfold sz2fixplex. intros [He|(He & k & Hk & ->)]; rewrite He.
  - by exists s.
  - rewrite Hk. eexists. split; [reflexivity|].
    split; [by rewrite fix_get_fix_set, decide_True|].
    split; [|done]. intros w Hw. by rewrite fix_get_fix_set, decide_False.
Qed.

Lemma unavailable_run sz (s : linear_solver F) :
  fix_get s sz = None -> ext_of sz = None -> sz2fixplex sz s = Err not_implemented_yet.
Proof. unfold sz2fixplex. by intros -> ->. Qed.

Lemma internalize_pdd_prefix (p : pdd) (s : linear_solver F) :
  (forall var, monomials_of p <> [(1, var)]) ->
  exists s1,
    linearize p s = Ok (tt, s1) /\
    m_coeffs s1 = (monomials_of p).*1 /\
    m_fix s1 = m_fix s /\
    forall A (k1 : var_t -> A) (k2 : A),
      match m_vars s1, last (m_coeffs s1), last (m_vars s1) with
      | [_], Some 1, Some v => k1 v
      | _, _, _ => k2
      end = k2.
Proof.
  intros Hns.
  destruct (linearize_run p s) as (s1 & Hl & Hcs & Hall & Hf & _).
  exists s1. split; [done|]. split; [done|]. split; [done|].
  intros A k1 k2. rewrite Hcs.
  destruct (monomials_of p) as [|[c var] [|m2 ms]] eqn:Hms;
    destruct (m_vars s1) as [|v1 [|v2 vs]]; simpl in Hall; try done.
  simpl. destruct (decide (c = 1)) as [->|Hc]; [by destruct (Hns var)|].
  by destruct c as [|[]|].
Qed.

(** X17: [internalize_pdd] of any other polynomial, at a width that has an
    engine: a row variable [v] is created after the monomials are interned,
    and the engine is given the row of the coefficients of [p] followed by
    [2^sz - 1] for [v], that is [p - v = 0]; [add_row_i] is logged on top of
    the [add_var_i] of [v]. *)
Theorem internalize_pdd_row (p : pdd) (s : linear_solver F) (e : F) :
  (forall var, monomials_of p <> [(1, var)]) ->
  let sz := power_of_2 p in
  available s sz e ->
  exists s1 s',
    linearize p s = Ok (tt, s1) /\
    internalize_pdd p s = Ok (num_vars s1 sz, s') /\
    fix_get s' sz =
      Some (fp_add_row (num_vars s1 sz) (m_vars s1 ++ [num_vars s1 sz])
              ((monomials_of p).*1 ++ [2 ^ Z.of_nat sz - 1]) e) /\
    m_trail s' = add_row_i :: add_var_i :: m_trail s1 /\
    m_rows s' = (num_vars s1 sz, sz) :: (0, sz) :: m_rows s1 /\
    m_mono2var s' = m_mono2var s1.
Proof.
  intros Hns sz He.
  destruct (internalize_pdd_prefix p s Hns) as (s1 & Hl & Hcs & Hf & Hsel).
  assert (Hg : forall w, fix_get s1 w = fix_get s w) by (intros w; unfold fix_get; by rewrite Hf).
  unfold internalize_pdd. fold sz.
  assert (He1 : available s1 sz e) by (unfold available; by rewrite !Hg).
  exists s1. unfold bind at 1. rewrite Hl. rewrite Hsel.
  unfold bind at 1. rewrite fresh_var_run. unfold bind at 1, modify at 1.
  unfold bind at 1.
  match goal with |- context [sz2fixplex sz ?s2] =>
    destruct (available_run sz s2 e)
      as (s3 & Hs3 & Hg3 & _ & Ht3 & Hr3 & Hn3 & Hm3 & Hmm3 & Hb3 & Hv3 & Hc3)
  end.
  { exact He1. }
  rewrite Hs3. unfold bind at 1, fp_call. rewrite Hg3.
  unfold bind, push_row, push_trail, modify, ret. simpl.
  eexists. split; [reflexivity|]. split; [reflexivity|]. simpl.
  split.
  + simpl in Hv3, Hc3. unfold fix_get. simpl.
    rewrite list_lookup_insert_eq by (by eapply fix_get_lt). simpl.
    by rewrite Hv3, Hc3, Hcs.
  + simpl in Ht3, Hr3, Hm3. by rewrite Ht3, Hr3, Hm3.
Qed.

End Rows.

Lemma linearize_scratch_witness :
  let p := mk_pdd 32 [(3, [0%nat]); (1, [1%nat])] in
  exists s',
    linearize p intern_start = Ok (tt, s') /\
    m_coeffs s' = [3; 1] /\
    m_mono2var s' !! (32%nat, [0%nat]) = Some 0.
Proof.
  destruct (linearize_scratch (mk_pdd 32 [(3, [0%nat]); (1, [1%nat])]) intern_start)
    as (s' & H1 & H2 & _ & H4 & _).
  exists s'. split; [exact H1|]. split; [exact H2|].
  apply H4. vm_compute. reflexivity.
Defined.

Lemma internalize_pdd_row_witness :
  let p := mk_pdd 32 [(3, [0%nat]); (2 ^ 32 - 1, [1%nat])] in
  let s0 : linear_solver RecordingEngine.engine := init in
  let e := fp_alloc (fixplex_base := demo_engine) generic_uint_ext_unsigned in
  exists s1 s',
    linearize p s0 = Ok (tt, s1) /\
    internalize_pdd (E := demo_engine) p s0 = Ok (num_vars s1 32, s') /\
    fix_get s' 32 =
      Some (fp_add_row (fixplex_base := demo_engine) (num_vars s1 32)
              (m_vars s1 ++ [num_vars s1 32])
              ((monomials_of p).*1 ++ [2 ^ Z.of_nat 32 - 1]) e) /\
    m_trail s' = add_row_i :: add_var_i :: m_trail s1 /\
    m_rows s' = (num_vars s1 32, 32%nat) :: (0, 32%nat) :: m_rows s1 /\
    m_mono2var s' = m_mono2var s1.
Proof.
  apply (internalize_pdd_row (E := demo_engine)
           (mk_pdd 32 [(3, [0%nat]); (2 ^ 32 - 1, [1%nat])]) init).
  - intros var. simpl. discriminate.
  - right. split; [reflexivity|]. by exists generic_uint_ext_unsigned.
Defined.

End SolverRows.

(** ** Registering and activating constraints *)

Module SolverConstraints.
Import LinearSolver Trail System Examples TrailFacts SolverCalls SolverRows Effects.

Section Constraints.
Context {F St : Type} {E : fixplex_base F St}.

Lemma fix_put_get sz (b b0 : F) (s : linear_solver F) w :
  fix_get s sz = Some b0 ->
  mjoin (<[sz := Some b]> (m_fix s) !! w) = if decide (sz = w) then Some b else fix_get s w.
Proof.
  intros Hb. apply fix_get_lt in Hb. case_decide as Hw.
  - subst. by rewrite list_lookup_insert_eq.
  - by rewrite list_lookup_insert_ne.
Qed.

(** An engine call followed by its two log entries, and the same with the
    log entries first. *)
Lemma call_then_log sz t x (f : F -> F) e (s1 s : linear_solver F) :
  fix_get s1 sz = Some e ->
  (forall w, w <> sz -> fix_get s1 w = fix_get s w) ->
  m_trail s1 = m_trail s -> m_rows s1 = m_rows s -> m_sz2num_vars s1 = m_sz2num_vars s ->
  m_mono2var s1 = m_mono2var s -> m_monomials s1 = m_monomials s ->
  m_bool_var2row s1 = m_bool_var2row s ->
  exists s', (fp_call sz f ;;; push_trail t ;;; push_row x sz) s1 = Ok (tt, s') /\
             engine_logged t x sz (f e) s s'.
Proof.
  intros He Hw Ht Hr Hn Hm Hmm Hb.
  unfold bind, fp_call, push_trail, push_row, modify. rewrite He. simpl.
  eexists. split; [reflexivity|]. unfold engine_logged, fix_get. simpl.
  split; [by rewrite (fix_put_get sz (f e) e s1 sz He), decide_True|].
  split; [|by rewrite Ht, Hr, Hn, Hm, Hmm, Hb].
  intros w Hne. rewrite (fix_put_get sz (f e) e s1 w He), decide_False by done. by apply Hw.
Qed.

Lemma log_then_call sz t x (f : F -> F) e (s1 s : linear_solver F) :
  fix_get s1 sz = Some e ->
  (forall w, w <> sz -> fix_get s1 w = fix_get s w) ->
  m_trail s1 = m_trail s -> m_rows s1 = m_rows s -> m_sz2num_vars s1 = m_sz2num_vars s ->
  m_mono2var s1 = m_mono2var s -> m_monomials s1 = m_monomials s ->
  m_bool_var2row s1 = m_bool_var2row s ->
  exists s', (push_trail t ;;; push_row x sz ;;; fp_call sz f) s1 = Ok (tt, s') /\
             engine_logged t x sz (f e) s s'.
Proof.
  intros He Hw Ht Hr Hn Hm Hmm Hb.
  unfold bind, fp_call, push_trail, push_row, modify.
  change (fix_get (set_rows ((x, sz) :: m_rows (set_trail (t :: m_trail s1) s1))
                     (set_trail (t :: m_trail s1) s1)) sz) with (fix_get s1 sz).
  rewrite He. eexists. split; [reflexivity|]. unfold engine_logged, fix_get. simpl.
  split; [by rewrite (fix_put_get sz (f e) e s1 sz He), decide_True|].
  split; [|by rewrite Ht, Hr, Hn, Hm, Hmm, Hb].
  intros w Hne. rewrite (fix_put_get sz (f e) e s1 w He), decide_False by done. by apply Hw.
Qed.

Lemma internalize_pdd_bool p (s : linear_solver F) v s' :
  internalize_pdd p s = Ok (v, s') -> m_bool_var2row s' = m_bool_var2row s.
Proof.
  unfold internalize_pdd. intros H. inv_bind H.
  assert (Hb0 : m_bool_var2row s0 = m_bool_var2row s).
  { destruct (linearize_run p s) as (s1 & Hl & _ & _ & _ & Hb1).
    rewrite Hl in Hc. by injection Hc as _ <-. }
  rewrite <- Hb0. clear Hb0 Hc.
  assert (Hrow : (v0 <- fresh_var (power_of_2 p) ;;
     modify (fun s => set_scratch (m_vars s ++ [v0])
                        (m_coeffs s ++ [2 ^ Z.of_nat (power_of_2 p) - 1]) s) ;;;
     sz2fixplex (power_of_2 p) ;;;
     (fun s => fp_call (power_of_2 p) (fp_add_row v0 (m_vars s) (m_coeffs s)) s) ;;;
     push_row v0 (power_of_2 p) ;;;
     push_trail add_row_i ;;;
     ret v0) s0 = Ok (v, s') -> m_bool_var2row s' = m_bool_var2row s0).
  { clear H. intros H. inv_bind H. rewrite fresh_var_run in Hc. injection Hc as <- <-.
    inv_bind H. unfold modify in Hc. injection Hc as <- <-.
    inv_bind H. unfold sz2fixplex in Hc.
    inv_bind H. apply fp_call_Ok in Hc0 as (b & Hb & ->).
    unfold bind, push_row, push_trail, modify, ret in H. simpl in H. injection H as <- <-.
    simpl. destruct (fix_get _ _); [by injection Hc as _ <-|].
    destruct (ext_of _); [by injection Hc as _ <-|done]. }
  destruct (m_vars s0) as [|v1 [|v2 vs]]; try (by apply Hrow).
  destruct (last (m_coeffs s0)) as [c|]; try (by apply Hrow).
  destruct (decide (c = 1)) as [->|Hne].
  - simpl in H. by injection H as <- <-.
  - destruct c as [|[]|]; by apply Hrow.
Qed.

Lemma lookup_setx {A : Type} (i : nat) (x d : A) (l : list A) (j : nat) :
  setx i x d l !! j =
    if decide (j = i) then Some x
    else if decide (j < length l)%nat then l !! j
    else if decide (j < i)%nat then Some d else None.
Proof.
  unfold setx. pose proof (length_reserve (S i) d l) as Hlen.
  case_decide as Hj.
  - subst. by rewrite list_lookup_insert_eq by lia.
  - rewrite list_lookup_insert_ne by done. rewrite lookup_reserve.
    repeat case_decide; try done; lia.
Qed.

(** X18: [new_constraint] registers the constraint under its boolean variable:
    the pair of the variables [internalize_pdd] returned is what
    [m_bool_var2row] holds there afterwards; entries that existed are kept,
    and a gap below the boolean variable is filled with the same pair. *)
Theorem new_constraint_registers (c : constraint) (s s' : linear_solver F) :
  new_constraint c s = Ok (tt, s') ->
  let b := match c with eq_t c => eq_bvar c | ule_t c => ule_bvar c end in
  exists pr,
    bool_var2row b s' = Ok (pr, s') /\
    match c with
    | eq_t c => exists s1, internalize_pdd (eq_p c) s = Ok (pr.1, s1) /\ pr.2 = pr.1
    | ule_t c =>
        exists s1 s2, internalize_pdd (ule_lhs c) s = Ok (pr.1, s1) /\
                      internalize_pdd (ule_rhs c) s1 = Ok (pr.2, s2)
    end /\
    (forall j, j <> b -> (j < length (m_bool_var2row s))%nat ->
       m_bool_var2row s' !! j = m_bool_var2row s !! j) /\
    (forall j, (length (m_bool_var2row s) <= j < b)%nat ->
       m_bool_var2row s' !! j = Some pr).
Proof.
  destruct c as [c|c]; simpl.
  - unfold new_eq. intros H. inv_bind H. apply internalize_pdd_bool in Hc as Hb.
    unfold modify in H. injection H as <-.
    exists (x, x). unfold bool_var2row. simpl. rewrite lookup_setx, decide_True by done.
    split; [done|]. split; [by exists s0|]. rewrite Hb. split.
    + intros j Hj Hlt. rewrite lookup_setx. by rewrite decide_False, decide_True.
    + intros j Hj. rewrite lookup_setx.
      rewrite decide_False by lia. rewrite decide_False by lia. by rewrite decide_True by lia.
  - unfold new_le. intros H. inv_bind H. apply internalize_pdd_bool in Hc as Hb.
    inv_bind H. apply internalize_pdd_bool in Hc0 as Hb0.
    unfold modify in H. injection H as <-.
    exists (x, x0). unfold bool_var2row. simpl. rewrite lookup_setx, decide_True by done.
    split; [done|]. split; [by exists s0, s1|]. rewrite Hb0, Hb. split.
    + intros j Hj Hlt. rewrite lookup_setx. by rewrite decide_False, decide_True.
    + intros j Hj. rewrite lookup_setx.
      rewrite decide_False by lia. rewrite decide_False by lia. by rewrite decide_True by lia.
Qed.

(** X19: [activate_constraint] on an equality registered with the variable [v]:
    the engine of the width gets the bounds [[0, 0]] for [p = 0] and
    [[1, 0]], every value but zero, for [p <> 0], logged as [set_bound_i]
    with the row [(v, sz)]. *)
Theorem assert_eq_bounds (c : eq_constraint) (s : linear_solver F) (v w : var_t) (e : F) :
  let sz := power_of_2 (eq_p c) in
  m_bool_var2row s !! eq_bvar c = Some (v, w) ->
  available s sz e ->
  eq_sign c <> l_undef ->
  exists s',
    activate_constraint (eq_t c) s = Ok (tt, s') /\
    engine_logged set_bound_i v sz
      (fp_set_bounds v (if sign_positive (eq_sign c) then 0 else 1) 0 e) s s'.
Proof.
  intros sz Hb He Hs.
  assert (Hu : sign_undef (eq_sign c) = false) by (by destruct (eq_sign c)).
  unfold activate_constraint. simpl. rewrite Hu. unfold bind at 1, ret at 1.
  unfold assert_eq. unfold bind at 1, bool_var2row. rewrite Hb. simpl. fold sz.
  destruct (available_run sz s e He) as (s1 & Hs1 & Hg & Hw & Ht & Hr & Hn & Hm & Hmm & Hbb & _).
  unfold bind at 1. rewrite Hs1. rewrite Hu.
  destruct (sign_positive (eq_sign c)).
  - destruct (log_then_call sz set_bound_i v (fp_set_bounds v 0 0) e s1 s) as (s' & H1 & H2);
      try done.
    exists s'. split; [|done]. revert H1. unfold bind, push_trail, push_row, modify, ret.
    simpl. done.
  - destruct (log_then_call sz set_bound_i v (fp_set_bounds v 1 0) e s1 s) as (s' & H1 & H2);
      try done.
    exists s'. split; [|done]. revert H1. unfold bind, push_trail, push_row, modify, ret.
    simpl. done.
Qed.

(** X20: [activate_constraint] on an inequality registered with the pair
    [(v, w)]: the engine gets the one call [le_call] names, with its log
    entry, and nothing else changes; "conflict not implemented" is thrown
    exactly for [0 > w], a left-hand side that is the value zero under
    negative polarity with a right-hand side that is not a value. *)
Theorem assert_le_calls (c : ule_constraint) (s : linear_solver F) (v w : var_t) (e : F) :
  let sz := power_of_2 (ule_lhs c) in
  m_bool_var2row s !! ule_bvar c = Some (v, w) ->
  available s sz e ->
  ule_sign c <> l_undef ->
  match le_call c v w with
  | Some (t, x, f) =>
      exists s', activate_constraint (ule_t c) s = Ok (tt, s') /\
                 engine_logged t x sz (f e) s s'
  | None =>
      activate_constraint (ule_t c) s = Err conflict_not_implemented /\
      is_val (ule_rhs c) = false /\ is_val (ule_lhs c) = true /\
      val (ule_lhs c) = 0 /\ ule_sign c = l_false
  end.
Proof.
  intros sz Hb He Hs.
  assert (Hu : sign_undef (ule_sign c) = false) by (by destruct (ule_sign c)).
  remember (activate_constraint (ule_t c) s) as r eqn:Hact.
  unfold activate_constraint in Hact. simpl in Hact. rewrite Hu in Hact.
  unfold bind at 1, ret at 1 in Hact.
  unfold assert_le in Hact. unfold bind at 1, bool_var2row in Hact. rewrite Hb in Hact.
  simpl in Hact. fold sz in Hact.
  destruct (available_run sz s e He) as (s1 & Hs1 & Hg & Hw & Ht & Hr & Hn & Hm & Hmm & Hbb & _).
  unfold bind at 1 in Hact. rewrite Hs1 in Hact. unfold le_call.
  revert Hact.
  destruct (is_val (ule_rhs c)); [|destruct (is_val (ule_lhs c))];
    destruct (sign_positive (ule_sign c)) eqn:Hp; intros ->;
    try (by eapply call_then_log).
  destruct (Z.eqb_spec (val (ule_lhs c)) 0) as [Hz|Hz].
  - split; [|repeat split; try done].
    + unfold bind, fail. done.
    + revert Hp Hs. clear. by destruct (ule_sign c).
  - by eapply call_then_log.
Qed.

End Constraints.

Lemma new_constraint_registers_witness :
  let s : linear_solver RecordingEngine.engine := init in
  let c := mk_ule 2 (mk_pdd 32 [(1, [0%nat])]) (mk_pdd 32 [(1, [1%nat])]) l_undef in
  exists s',
    new_constraint (E := demo_engine) (ule_t c) s = Ok (tt, s') /\
    exists pr,
      bool_var2row 2 s' = Ok (pr, s') /\
      (exists s1 s2,
         internalize_pdd (E := demo_engine) (ule_lhs c) s = Ok (pr.1, s1) /\
         internalize_pdd (E := demo_engine) (ule_rhs c) s1 = Ok (pr.2, s2)) /\
      (forall j, j <> 2%nat -> (j < length (m_bool_var2row s))%nat ->
         m_bool_var2row s' !! j = m_bool_var2row s !! j) /\
      (forall j, (length (m_bool_var2row s) <= j < 2)%nat ->
         m_bool_var2row s' !! j = Some pr).
Proof.
  eexists. split; [vm_compute; reflexivity|].
  apply (new_constraint_registers (E := demo_engine)
           (ule_t (mk_ule 2 (mk_pdd 32 [(1, [0%nat])]) (mk_pdd 32 [(1, [1%nat])]) l_undef))
           init).
  vm_compute. reflexivity.
Defined.

Lemma assert_eq_bounds_witness :
  let c := mk_eq 0 (mk_pdd 32 [(1, [0%nat])]) l_false in
  let s : linear_solver RecordingEngine.engine :=
    mk_linear_solver [] [] [] ∅ [] [] [(0, 0)] [] [] in
  exists s',
    activate_constraint (E := demo_engine) (eq_t c) s = Ok (tt, s') /\
    engine_logged set_bound_i 0 32
      (fp_set_bounds (fixplex_base := demo_engine) 0
         (if sign_positive (eq_sign c) then 0 else 1) 0
         (fp_alloc (fixplex_base := demo_engine) generic_uint_ext_unsigned)) s s'.
Proof.
  apply (assert_eq_bounds (E := demo_engine)
           (mk_eq 0 (mk_pdd 32 [(1, [0%nat])]) l_false)
           (mk_linear_solver [] [] [] ∅ [] [] [(0, 0)] [] []) 0 0).
  - reflexivity.
  - right. split; [reflexivity|]. by exists generic_uint_ext_unsigned.
  - discriminate.
Defined.

Lemma assert_le_calls_witness :
  let c := mk_ule 0 (mk_pdd 32 [(0, [])]) (mk_pdd 32 [(1, [0%nat])]) l_false in
  let s : linear_solver RecordingEngine.engine :=
    mk_linear_solver [] [] [] ∅ [] [] [(1, 0)] [] [] in
  activate_constraint (E := demo_engine) (ule_t c) s = Err conflict_not_implemented /\
  is_val (ule_rhs c) = false /\ is_val (ule_lhs c) = true /\
  val (ule_lhs c) = 0 /\ ule_sign c = l_false.
Proof.
  apply (assert_le_calls (E := demo_engine)
           (mk_ule 0 (mk_pdd 32 [(0, [])]) (mk_pdd 32 [(1, [0%nat])]) l_false)
           (mk_linear_solver [] [] [] ∅ [] [] [(1, 0)] [] []) 1 0
           (fp_alloc (fixplex_base := demo_engine) generic_uint_ext_unsigned)).
  - reflexivity.
  - right. split; [reflexivity|]. by exists generic_uint_ext_unsigned.
  - discriminate.
Defined.

End SolverConstraints.

(** ** Bounds of variables, and what [check] touches *)

Module SolverBounds.
Import LinearSolver Trail System Examples TrailFacts SolverCalls SolverRows Effects
  SolverConstraints.

Section Bounds.
Context {F St : Type} {E : fixplex_base F St}.
Variable size : pvar -> nat.

Lemma bound_call_interns (f : var_t -> F -> F) (v : pvar) (s : linear_solver F) (e : F) :
  available s (size v) e ->
  exists w s',
    (sz2fixplex (size v) ;;;
     w <- pvar2var (size v) v ;;
     push_trail set_bound_i ;;;
     push_row w (size v) ;;;
     fp_call (size v) (f w)) s = Ok (tt, s') /\
    pvar2var (size v) v s' = Ok (w, s') /\
    fix_get s' (size v) = Some (f w e) /\
    (forall sz, sz <> size v -> fix_get s' sz = fix_get s sz) /\
    m_rows s' = (w, size v) ::
      match m_mono2var s !! (size v, [v]) with
      | Some _ => m_rows s
      | None => (0, size v) :: m_rows s
      end /\
    m_trail s' = set_bound_i ::
      match m_mono2var s !! (size v, [v]) with
      | Some _ => m_trail s
      | None => add_mono_i :: add_var_i :: m_trail s
      end /\
    w = default (num_vars s (size v)) (m_mono2var s !! (size v, [v])).
Proof.
  intros He.
  destruct (available_run (size v) s e He)
    as (s1 & Hs1 & Hg & Hw & Ht & Hr & Hn & Hm & Hmm & Hbb & _).
  unfold bind at 1. rewrite Hs1. unfold pvar2var.
  unfold bind at 1. rewrite mono2var_run. rewrite Hm.
  assert (Hnv : num_vars s1 (size v) = num_vars s (size v)) by (unfold num_vars; by rewrite Hn).
  destruct (m_mono2var s !! (size v, [v])) as [w|] eqn:Hk.
  - destruct (log_then_call (size v) set_bound_i w (f w) e s1 s) as (s' & H1 & H2); try done.
    destruct H2 as (G1 & G2 & G3 & G4 & G5 & G6 & G7 & G8).
    exists w, s'. split; [exact H1|]. rewrite mono2var_run, G6, Hk. by repeat split.
  - rewrite Hnv.
    match goal with |- context [bind (push_trail set_bound_i) _ ?s2] =>
      destruct (log_then_call (size v) set_bound_i (num_vars s (size v))
                  (f (num_vars s (size v))) e s2 s2) as (s' & H1 & H2); try done
    end.
    destruct H2 as (G1 & G2 & G3 & G4 & G5 & G6 & G7 & G8).
    eexists _, s'. split; [exact H1|]. rewrite mono2var_run, G6. simpl.
    rewrite lookup_insert_eq. simpl in G3, G4. rewrite G3, G4, Ht, Hr.
    split; [done|]. split; [done|]. split; [|done].
    intros sz Hsz. rewrite G2 by done. unfold fix_get. simpl. by apply Hw.
Qed.

(** X21: [set_bound] and [set_value] on a variable whose width has an engine:
    the variable is interned first, the engine gets the bounds, or the value,
    for the interned variable [w], and [set_bound_i] is logged with the row
    [(w, size v)]; a later [pvar2var] returns [w]. *)
Theorem set_bound_interns (v : pvar) (s : linear_solver F) (e : F) :
  available s (size v) e ->
  (forall lo hi,
     exists w s',
       set_bound size v lo hi s = Ok (tt, s') /\
       pvar2var (size v) v s' = Ok (w, s') /\
       fix_get s' (size v) = Some (fp_set_bounds w lo hi e) /\
       (forall sz, sz <> size v -> fix_get s' sz = fix_get s sz) /\
       head (m_rows s') = Some (w, size v) /\
       head (m_trail s') = Some set_bound_i /\
       w = default (num_vars s (size v)) (m_mono2var s !! (size v, [v]))) /\
  (forall value,
     exists w s',
       set_value size v value s = Ok (tt, s') /\
       pvar2var (size v) v s' = Ok (w, s') /\
       fix_get s' (size v) = Some (fp_set_value w value e) /\
       (forall sz, sz <> size v -> fix_get s' sz = fix_get s sz) /\
       head (m_rows s') = Some (w, size v) /\
       head (m_trail s') = Some set_bound_i /\
       w = default (num_vars s (size v)) (m_mono2var s !! (size v, [v]))).
Proof.
  intros He. split.
  - intros lo hi.
    destruct (bound_call_interns (fun w => fp_set_bounds w lo hi) v s e He)
      as (w & s' & H1 & H2 & H3 & H4 & H5 & H6 & H7).
    exists w, s'. rewrite H5, H6. by repeat split.
  - intros value.
    destruct (bound_call_interns (fun w => fp_set_value w value) v s e He)
      as (w & s' & H1 & H2 & H3 & H4 & H5 & H6 & H7).
    exists w, s'. rewrite H5, H6. by repeat split.
Qed.

(** X22: the calls that need the engine of a width end in NOT_IMPLEMENTED_YET
    when the width has none: [set_bound], [set_value], [internalize_pdd] of
    a polynomial that needs a row, and [activate_constraint] of a registered
    constraint. *)
Theorem engine_needed (s : linear_solver F) (sz : nat) :
  fix_get s sz = None -> ext_of sz = None ->
  (forall v a b, size v = sz ->
     set_bound size v a b s = Err not_implemented_yet /\
     set_value size v a s = Err not_implemented_yet) /\
  (forall p, power_of_2 p = sz -> (forall var, monomials_of p <> [(1, var)]) ->
     internalize_pdd p s = Err not_implemented_yet) /\
  (forall c pr, power_of_2 (eq_p c) = sz -> eq_sign c <> l_undef ->
     m_bool_var2row s !! eq_bvar c = Some pr ->
     activate_constraint (eq_t c) s = Err not_implemented_yet) /\
  (forall c pr, power_of_2 (ule_lhs c) = sz -> ule_sign c <> l_undef ->
     m_bool_var2row s !! ule_bvar c = Some pr ->
     activate_constraint (ule_t c) s = Err not_implemented_yet).
Proof.
  intros Hn Hk. split; [|split; [|split]].
  - intros v a b <-. unfold set_bound, set_value, bind.
    by rewrite (unavailable_run (size v) s Hn Hk).
  - intros p <- Hns.
    destruct (internalize_pdd_prefix p s Hns) as (s1 & Hl & Hcs & Hf & Hsel).
    unfold internalize_pdd. unfold bind at 1. rewrite Hl, Hsel.
    unfold bind at 1. rewrite fresh_var_run. unfold bind at 1, modify at 1.
    unfold bind at 1, sz2fixplex. unfold fix_get in *. simpl. rewrite Hf, Hn, Hk. done.
  - intros c pr <- Hs Hb.
    assert (Hu : sign_undef (eq_sign c) = false) by (by destruct (eq_sign c)).
    unfold activate_constraint. simpl. rewrite Hu. unfold bind at 1, ret at 1.
    unfold assert_eq. unfold bind at 1, bool_var2row. rewrite Hb.
    unfold bind at 1. by rewrite (unavailable_run _ s Hn Hk).
  - intros c pr <- Hs Hb.
    assert (Hu : sign_undef (ule_sign c) = false) by (by destruct (ule_sign c)).
    unfold activate_constraint. simpl. rewrite Hu. unfold bind at 1, ret at 1.
    unfold assert_le. unfold bind at 1, bool_var2row. rewrite Hb.
    unfold bind at 1. by rewrite (unavailable_run _ s Hn Hk).
Qed.

End Bounds.

Section Check.
Context {F St : Type} {E : fixplex_base F St}.

(** An entry of [m_fix] after [check()]: as it was, or as [make_feasible]
    left it. *)
Lemma check_loop_entries (todo seen : list (option F)) res :
  exists out,
    snd (check_loop seen todo res) = seen ++ out /\
    Forall2 (fun o o' : option F =>
               match o, o' with
               | None, None => True
               | Some e, Some e' => e' = e \/ e' = snd (fp_make_feasible e)
               | _, _ => False
               end) todo out.
Proof.
  revert seen res. induction todo as [|[f|] todo IH]; intros seen res; simpl.
  - exists []. by rewrite app_nil_r.
  - destruct (fp_make_feasible f) as [r f'] eqn:Hf.
    assert (Hf' : f' = snd (fp_make_feasible f)) by (by rewrite Hf).
    destruct r.
    + exists (Some f' :: todo). split; [done|]. constructor; [by right|].
      clear. induction todo as [|[?|] ? IH]; constructor; auto.
    + destruct (IH (seen ++ [Some f']) l_undef) as (out & Ho & Hall).
      exists (Some f' :: out). rewrite Ho, <- app_assoc. split; [done|].
      constructor; [by right|done].
    + destruct (IH (seen ++ [Some f']) res) as (out & Ho & Hall).
      exists (Some f' :: out). rewrite Ho, <- app_assoc. split; [done|].
      constructor; [by right|done].
  - destruct (IH (seen ++ [None]) res) as (out & Ho & Hall).
    exists (None :: out). rewrite Ho, <- app_assoc. split; [done|]. by constructor.
Qed.

(** X23: [check()] always returns, and only asks: the trail, the rows, the
    counters and the tables are as before, no engine is constructed or
    dropped, and every engine is as it was or as its own [make_feasible]
    left it. *)
Theorem check_only_asks (s : linear_solver F) :
  exists r s',
    check s = Ok (r, s') /\
    m_trail s' = m_trail s /\ m_rows s' = m_rows s /\
    m_sz2num_vars s' = m_sz2num_vars s /\
    m_mono2var s' = m_mono2var s /\ m_monomials s' = m_monomials s /\
    m_bool_var2row s' = m_bool_var2row s /\
    length (m_fix s') = length (m_fix s) /\
    forall sz,
      match fix_get s sz, fix_get s' sz with
      | None, None => True
      | Some e, Some e' => e' = e \/ e' = snd (fp_make_feasible e)
      | _, _ => False
      end.
Proof.
  unfold check. destruct (check_loop [] (m_fix s) l_true) as [r fx] eqn:Hc.
  exists r, (set_fix fx s). split; [done|]. simpl.
  destruct (check_loop_entries (m_fix s) [] l_true) as (out & Ho & Hall).
  rewrite Hc in Ho. simpl in Ho. subst fx.
  repeat split; try done.
  - symmetry. by eapply Forall2_length.
  - intros sz. unfold fix_get. simpl.
    destruct (m_fix s !! sz) as [o|] eqn:H1.
    + destruct (Forall2_lookup_l _ _ _ _ _ Hall H1) as (o' & H2 & HR).
      rewrite H2. simpl. by destruct o, o'.
    + apply lookup_ge_None in H1. apply Forall2_length in Hall.
      rewrite (lookup_ge_None_2 out sz) by lia. done.
Qed.

End Check.

Lemma set_bound_interns_witness :
  let s : linear_solver RecordingEngine.engine := init in
  let e := fp_alloc (fixplex_base := demo_engine) generic_uint_ext_unsigned in
  (forall lo hi,
     exists w s',
       set_bound (E := demo_engine) demo_size 0%nat lo hi s = Ok (tt, s') /\
       pvar2var (demo_size 0%nat) 0%nat s' = Ok (w, s') /\
       fix_get s' (demo_size 0%nat) = Some (fp_set_bounds (fixplex_base := demo_engine) w lo hi e) /\
       (forall sz, sz <> demo_size 0%nat -> fix_get s' sz = fix_get s sz) /\
       head (m_rows s') = Some (w, demo_size 0%nat) /\
       head (m_trail s') = Some set_bound_i /\
       w = default (num_vars s (demo_size 0%nat)) (m_mono2var s !! (demo_size 0%nat, [0%nat]))) /\
  (forall value,
     exists w s',
       set_value (E := demo_engine) demo_size 0%nat value s = Ok (tt, s') /\
       pvar2var (demo_size 0%nat) 0%nat s' = Ok (w, s') /\
       fix_get s' (demo_size 0%nat) = Some (fp_set_value (fixplex_base := demo_engine) w value e) /\
       (forall sz, sz <> demo_size 0%nat -> fix_get s' sz = fix_get s sz) /\
       head (m_rows s') = Some (w, demo_size 0%nat) /\
       head (m_trail s') = Some set_bound_i /\
       w = default (num_vars s (demo_size 0%nat)) (m_mono2var s !! (demo_size 0%nat, [0%nat]))).
Proof.
  apply (set_bound_interns (E := demo_engine) demo_size 0%nat init).
  right. split; [reflexivity|]. by exists generic_uint_ext_unsigned.
Defined.

Lemma engine_needed_witness :
  let s : linear_solver RecordingEngine.engine :=
    mk_linear_solver [] [] [] ∅ [] [] [(0, 0)] [] [] in
  set_bound (E := demo_engine) (fun _ => 128%nat) 0%nat 1 5 s = Err not_implemented_yet /\
  set_value (E := demo_engine) (fun _ => 128%nat) 0%nat 1 s = Err not_implemented_yet.
Proof.
  apply (engine_needed (E := demo_engine) (fun _ => 128%nat)
           (mk_linear_solver [] [] [] ∅ [] [] [(0, 0)] [] []) 128); reflexivity.
Defined.

End SolverBounds.

(** ** Popping levels *)

Module SolverPop.
Import LinearSolver Trail System Examples TrailFacts SolverCalls Logging.

Section Pop.
Context {F St : Type} {E : fixplex_base F St}.

Lemma undoable_mono slots slots' (has has' : nat -> Prop) tr rows monos :
  (slots <= slots')%nat -> (forall sz, has sz -> has' sz) ->
  undoable slots has tr rows monos -> undoable slots' has' tr rows monos.
Proof.
  intros Hs Hh. revert rows monos.
  induction tr as [|e tr IH]; intros rows monos; simpl; [done|].
  destruct e; try done; auto.
  - destruct rows as [|r rows]; [done|]. intros [H1 H2]. split; [lia | auto].
  - destruct monos; [done | auto].
  - destruct rows as [|r rows]; [done|]. intros [H1 H2]. split; auto.
  - destruct rows as [|r rows]; [done|]. intros [H1 H2]. split; auto.
  - destruct rows as [|r rows]; [done|]. intros [H1 H2]. split; auto.
Qed.

Lemma has_engine_fix_put sz b b0 (s : linear_solver F) w :
  fix_get s sz = Some b0 -> has_engine s w -> has_engine (fix_put sz b s) w.
Proof.
  intros Hb [Hw|Hw]; [left|by right]. rewrite (fix_get_fix_put sz b b0 s w Hb).
  by case_decide.
Qed.

Lemma has_engine_fix_set sz b (s : linear_solver F) w :
  has_engine s w -> has_engine (fix_set sz b s) w.
Proof.
  intros [Hw|Hw]; [left|by right]. rewrite fix_get_fix_set. by case_decide.
Qed.

Lemma engine_undo_ok (f : var_t -> F -> F) tr r rows (s : linear_solver F) :
  m_rows s = r :: rows -> has_engine s r.2 ->
  undoable (length (m_sz2num_vars s)) (has_engine s) tr rows (length (m_monomials s)) ->
  exists s', (r0 <- back_row ;; sz2fixplex r0.2 ;;; fp_call r0.2 (f r0.1) ;;; pop_row) s
             = Ok (tt, s') /\
    undoable (length (m_sz2num_vars s')) (has_engine s') tr (m_rows s')
      (length (m_monomials s')).
Proof.
  intros Hr Hh Hu. rewrite bind_back_row, Hr. rewrite engine_call_run.
  destruct (fix_get s r.2) as [b|] eqn:Hb.
  - eexists. split; [reflexivity|]. simpl. rewrite Hr. simpl.
    eapply undoable_mono; [| |exact Hu]; [done|].
    intros w. apply (has_engine_fix_put r.2 (f r.1 b) b s w Hb).
  - destruct Hh as [[? ?]|[k Hk]]; [congruence|]. rewrite Hk.
    eexists. split; [reflexivity|]. simpl. rewrite Hr. simpl.
    eapply undoable_mono; [| |exact Hu]; [done|].
    intros w Hw.
    apply (has_engine_fix_put r.2 (f r.1 (fp_alloc k)) (fp_alloc k)
             (fix_set r.2 (fp_alloc k) s) w).
    + by rewrite fix_get_fix_set, decide_True.
    + by apply has_engine_fix_set.
Qed.

Lemma undo_ok e tr (s : linear_solver F) :
  undoable (length (m_sz2num_vars s)) (has_engine s) (e :: tr) (m_rows s)
    (length (m_monomials s)) ->
  exists s', undo e s = Ok (tt, s') /\
    undoable (length (m_sz2num_vars s')) (has_engine s') tr (m_rows s')
      (length (m_monomials s')).
Proof.
  destruct e; simpl.
  - intros H. by exists s.
  - destruct (m_rows s) as [|r rows] eqn:Hr; [done|]. intros [Hlt Hu].
    rewrite bind_back_row, Hr.
    destruct (lookup_lt_is_Some_2 _ _ Hlt) as [c Hc].
    unfold bind, pop_row, modify. rewrite Hc. simpl.
    eexists. split; [reflexivity|]. simpl. rewrite Hr, length_insert. exact Hu.
  - destruct (m_monomials s) as [|m ms] eqn:Hm; [done|]. simpl. intros Hu.
    eexists. split; [reflexivity|]. exact Hu.
  - destruct (m_rows s) as [|r rows] eqn:Hr; [done|]. intros [Hh Hu].
    exact (engine_undo_ok (fun _ => fp_restore_bound) tr r rows s Hr Hh Hu).
  - destruct (m_rows s) as [|r rows] eqn:Hr; [done|]. intros [Hh Hu].
    exact (engine_undo_ok fp_del_row tr r rows s Hr Hh Hu).
  - destruct (m_rows s) as [|r rows] eqn:Hr; [done|]. intros [Hh Hu].
    exact (engine_undo_ok (fun _ => fp_restore_ineq) tr r rows s Hr Hh Hu).
Qed.

Lemma pop_loop_ok tr n (s : linear_solver F) :
  undoable (length (m_sz2num_vars s)) (has_engine s) tr (m_rows s)
    (length (m_monomials s)) ->
  (n <= levels tr)%nat ->
  exists r, pop_loop tr n s = Ok r /\ well_logged r /\
            levels (m_trail r) = (levels tr - n)%nat.
Proof.
  revert n s. induction tr as [|e tr IH]; intros n s Hu Hn.
  - simpl in Hn. assert (n = O) as -> by lia. rewrite pop_loop_0.
    eexists. split; [reflexivity|]. split; [exact Hu | done].
  - destruct n as [|n].
    + rewrite pop_loop_0. eexists. split; [reflexivity|]. split; [exact Hu|].
      simpl. lia.
    + simpl. destruct (undo_ok e tr s Hu) as (s' & Hs' & Hu'). rewrite Hs'.
      destruct e; simpl in Hn |- *.
      * destruct (IH n s' Hu') as (r & H1 & H2 & H3); [lia|]. exists r. by repeat split.
      * destruct (IH (S n) s' Hu') as (r & H1 & H2 & H3); [lia|]. exists r. by repeat split.
      * destruct (IH (S n) s' Hu') as (r & H1 & H2 & H3); [lia|]. exists r. by repeat split.
      * destruct (IH (S n) s' Hu') as (r & H1 & H2 & H3); [lia|]. exists r. by repeat split.
      * destruct (IH (S n) s' Hu') as (r & H1 & H2 & H3); [lia|]. exists r. by repeat split.
      * destruct (IH (S n) s' Hu') as (r & H1 & H2 & H3); [lia|]. exists r. by repeat split.
Qed.

Lemma step_well_logged (s s' : linear_solver F) :
  step s s' -> well_logged s -> well_logged s'.
Proof.
  unfold well_logged. intros Hs Hw. destruct Hs; simpl.
  - exact Hw.
  - eapply undoable_mono; [| |exact Hw]; [done|]. intros w. apply has_engine_fix_set.
  - eapply undoable_mono; [| |exact Hw]; [done|]. intros w.
    by eapply has_engine_fix_put.
  - rewrite length_insert. pose proof (length_reserve (S sz) 0 (m_sz2num_vars s)) as Hl.
    split; [simpl; lia|].
    eapply undoable_mono; [| |exact Hw]; [|done].
    unfold reserve. rewrite length_app. lia.
  - exact Hw.
  - split; [left; simpl; rewrite fix_get_logged; erewrite fix_get_fix_put by done;
            by rewrite decide_True|].
    eapply undoable_mono; [| |exact Hw]; [done|]. intros w Hh.
    destruct (has_engine_fix_put sz (f b) b s w H Hh) as [G|G]; [left|by right]. exact G.
  - split; [left; simpl; rewrite fix_get_logged; erewrite fix_get_fix_put by done;
            by rewrite decide_True|].
    eapply undoable_mono; [| |exact Hw]; [done|]. intros w Hh.
    destruct (has_engine_fix_put sz (fp_add_row v vs cs b) b s w H Hh) as [G|G];
      [left|by right]. exact G.
  - split; [left; simpl; rewrite fix_get_logged; erewrite fix_get_fix_put by done;
            by rewrite decide_True|].
    eapply undoable_mono; [| |exact Hw]; [done|]. intros w Hh.
    destruct (has_engine_fix_put sz (f b) b s w H Hh) as [G|G]; [left|by right]. exact G.
Qed.

Lemma steps_well_logged (s s' : linear_solver F) :
  rtc step s s' -> well_logged s -> well_logged s'.
Proof. induction 1; [done|]. intros Hw. apply IHrtc. by eapply step_well_logged. Qed.

Lemma pop_loop_kept tr n (s : linear_solver F) r :
  undoable (length (m_sz2num_vars s)) (has_engine s) tr (m_rows s)
    (length (m_monomials s)) ->
  pop_loop tr n s = Ok r -> well_logged r.
Proof.
  revert n s. induction tr as [|e tr IH]; intros n s Hu Hp.
  - destruct n; simpl in Hp; [|done]. injection Hp as <-. exact Hu.
  - destruct n as [|n].
    + rewrite pop_loop_0 in Hp. injection Hp as <-. exact Hu.
    + simpl in Hp. destruct (undo_ok e tr s Hu) as (s' & Hs' & Hu'). rewrite Hs' in Hp.
      by eapply IH.
Qed.

Variable size : pvar -> nat.
Variable fdd_sup : nat -> Viable.bdd -> Z -> option Z.
Variable set_ne : ViableSet.viable_set -> Z -> ViableSet.viable_set.

Lemma run_well_logged cs (s0 s : system (F := F)) :
  run size fdd_sup set_ne cs s0 = Ok s -> well_logged s0.1 -> well_logged s.1.
Proof.
  revert s0. induction cs as [|c cs IH]; intros s0; simpl.
  - by intros [= <-].
  - destruct (run_cmd size fdd_sup set_ne c s0) as [s1|] eqn:Hc; [|done]. simpl.
    intros Hr Hw. apply (IH s1 Hr). clear IH Hr.
    destruct c as [|n|o]; simpl in Hc.
    + injection Hc as <-. exact Hw.
    + apply pop_Ok in Hc as [Hc _]. by eapply pop_loop_kept.
    + apply run_op_effect in Hc as [[Hs _]|[-> _]]; [|done].
      by eapply steps_well_logged.
Qed.

(** X24: on every state the solver reaches from a well-logged one, the new
    solver included, [pop(n)] returns for every [n] up to the number of open
    levels, closes exactly [n] of them, and leaves a well-logged state. *)
Theorem pop_returns (cs : list cmd) (s0 s : system (F := F)) (n : nat) :
  well_logged s0.1 ->
  run size fdd_sup set_ne cs s0 = Ok s ->
  (n <= levels (m_trail s.1))%nat ->
  exists t,
    LinearSolver.pop n s.1 = Ok t /\
    levels (m_trail t) = (levels (m_trail s.1) - n)%nat /\
    well_logged t.
Proof.
  intros Hw Hr Hn. apply (run_well_logged cs s0 s Hr) in Hw.
  destruct (pop_loop_ok (m_trail s.1) n s.1 Hw Hn) as (r & H1 & H2 & H3).
  exists r. by repeat split.
Qed.

(** X25: [pop(n)] with more levels than are open does not return: the loop runs
    off the trail. *)
Theorem pop_beyond_levels (s : linear_solver F) (n : nat) :
  (levels (m_trail s) < n)%nat -> exists e, LinearSolver.pop n s = Err e.
Proof.
  unfold LinearSolver.pop. generalize (m_trail s) as tr. intros tr. revert n s.
  induction tr as [|e tr IH]; intros n s Hn.
  - destruct n; [simpl in Hn; lia|]. by exists out_of_range.
  - destruct n as [|n]; [simpl in Hn; lia|]. simpl.
    destruct (undo e s) as [[u s']|err]; [|by exists err].
    destruct e; simpl in Hn; apply IH; lia.
Qed.

End Pop.

Lemma pop_returns_witness :
  exists t,
    LinearSolver.pop (E := demo_engine) 1 demo_end.1 = Ok t /\
    levels (m_trail t) = (levels (m_trail demo_end.1) - 1)%nat /\
    well_logged t.
Proof.
  apply (pop_returns (E := demo_engine) demo_size Domain.scan_sup Domain.point_ne
           demo_cmds (System.push demo_start) demo_end 1).
  - exact I.
  - vm_compute. reflexivity.
  - vm_compute. lia.
Defined.

Lemma pop_beyond_levels_witness :
  exists e, LinearSolver.pop (E := demo_engine) 3 demo_end.1 = Err e.
Proof.
  apply (pop_beyond_levels (E := demo_engine) demo_end.1 3). vm_compute. lia.
Defined.

End SolverPop.

(** ** The interning table stays injective *)

Module SolverInterning.
Import LinearSolver Trail System Examples TrailFacts SolverCalls Interning.

Section Interned.
Context {F St : Type} {E : fixplex_base F St}.

Lemma table_ok_ext tbl cnt cnt' n n' :
  (forall w, cnt w = cnt' w) -> (n <= n')%nat -> table_ok tbl cnt n -> table_ok tbl cnt' n'.
Proof.
  intros He Hn (H1 & H2 & H3). split; [|split].
  - intros k x Hk. rewrite <- He. by apply H1.
  - done.
  - intros w. rewrite <- He. specialize (H3 w). lia.
Qed.

Lemma interned_below_ext tr rows monos tbl cnt cnt' :
  (forall w, cnt w = cnt' w) ->
  interned_below tr rows monos tbl cnt -> interned_below tr rows monos tbl cnt'.
Proof.
  revert rows monos tbl cnt cnt'.
  induction tr as [|e tr IH]; intros rows monos tbl cnt cnt' He; simpl.
  - intros [H _]. split; [by eapply table_ok_ext|done].
  - intros [H1 H2]. split; [by eapply table_ok_ext|].
    destruct e.
    + by eapply IH.
    + destruct rows as [|r rows]; [done|]. destruct H2 as [H2 H3].
      split; [by rewrite <- He|].
      eapply IH; [|exact H3]. intros w. simpl. by rewrite He.
    + destruct monos; [done|]. by eapply IH.
    + destruct rows; [done|]. by eapply IH.
    + destruct rows; [done|]. by eapply IH.
    + destruct rows; [done|]. by eapply IH.
Qed.

Lemma interned_below_top tr rows monos tbl cnt :
  interned_below tr rows monos tbl cnt -> table_ok tbl cnt (length tr).
Proof. destruct tr; by intros [H _]. Qed.

Lemma uint_decr_small c : 1 <= c < UINT_MOD -> uint_decr c = c - 1.
Proof. intros Hc. unfold uint_decr. apply Z.mod_small. lia. Qed.

Lemma uint_incr_small c : 0 <= c < UINT_MOD - 1 -> uint_incr c = c + 1.
Proof. intros Hc. unfold uint_incr. apply Z.mod_small. lia. Qed.

Lemma undo_interned e tr (s : linear_solver F) u s' :
  interned_below (e :: tr) (m_rows s) (m_monomials s) (m_mono2var s) (num_vars s) ->
  undo e s = Ok (u, s') ->
  interned_below tr (m_rows s') (m_monomials s') (m_mono2var s') (num_vars s').
Proof.
  assert (Heng : forall (f : var_t -> F -> F),
             interned_below tr (tail (m_rows s)) (m_monomials s) (m_mono2var s) (num_vars s) ->
             (r0 <- back_row ;; sz2fixplex r0.2 ;;; fp_call r0.2 (f r0.1) ;;; pop_row) s
               = Ok (u, s') ->
             interned_below tr (m_rows s') (m_monomials s') (m_mono2var s') (num_vars s')).
  { intros f H Hu. rewrite bind_back_row in Hu.
    destruct (m_rows s) as [|r rows] eqn:Hr; [done|].
    rewrite engine_call_run in Hu. rewrite Hr in Hu.
    destruct (fix_get s r.2); [injection Hu as _ <-; exact H|].
    destruct (ext_of r.2); [injection Hu as _ <-; exact H|done]. }
  destruct e; simpl; intros [Ht H] Hu.
  - injection Hu as _ <-. exact H.
  - rewrite bind_back_row in Hu.
    destruct (m_rows s) as [|r rows] eqn:Hr; [done|]. destruct H as [Hc H].
    unfold bind, pop_row, modify in Hu.
    destruct (m_sz2num_vars s !! r.2) as [c|] eqn:Hl; [|done].
    injection Hu as _ <-. simpl. rewrite Hr. simpl.
    assert (Hn : num_vars s r.2 = c) by (unfold num_vars; by rewrite Hl).
    eapply interned_below_ext; [|exact H].
    intros w. unfold num_vars at 3. simpl. case_decide as Hw.
    + subst w. rewrite list_lookup_insert_eq by (by eapply lookup_lt_Some).
      simpl. rewrite Hn in *. by rewrite uint_decr_small.
    + by rewrite list_lookup_insert_ne.
  - destruct (m_monomials s) as [|m ms] eqn:Hm; [done|].
    injection Hu as _ <-. exact H.
  - destruct (m_rows s) as [|r rows] eqn:Hr; [by rewrite bind_back_row, Hr in Hu|].
    apply (Heng (fun _ => fp_restore_bound)); [exact H | exact Hu].
  - destruct (m_rows s) as [|r rows] eqn:Hr; [by rewrite bind_back_row, Hr in Hu|].
    apply (Heng fp_del_row); [exact H | exact Hu].
  - destruct (m_rows s) as [|r rows] eqn:Hr; [by rewrite bind_back_row, Hr in Hu|].
    apply (Heng (fun _ => fp_restore_ineq)); [exact H | exact Hu].
Qed.

Lemma pop_loop_interned tr n (s : linear_solver F) r :
  interned_below tr (m_rows s) (m_monomials s) (m_mono2var s) (num_vars s) ->
  pop_loop tr n s = Ok r -> interning_ok r.
Proof.
  revert n s. induction tr as [|e tr IH]; intros n s H Hp.
  - destruct n; simpl in Hp; [|done]. injection Hp as <-. exact H.
  - destruct n as [|n].
    + rewrite pop_loop_0 in Hp. injection Hp as <-. exact H.
    + simpl in Hp. destruct (undo e s) as [[u s']|] eqn:Hu; [|done].
      eapply IH; [|exact Hp]. by eapply undo_interned.
Qed.

Lemma count_range tbl (cnt : nat -> Z) n w :
  table_ok tbl cnt n -> Z.of_nat n < UINT_MOD - 1 -> 0 <= cnt w < UINT_MOD - 1.
Proof. intros (_ & _ & H3) Hn. specialize (H3 w). lia. Qed.

Lemma below_fresh tr rows monos tbl (cnt : nat -> Z) sz :
  interned_below tr rows monos tbl cnt ->
  Z.of_nat (length tr) < UINT_MOD - 1 ->
  interned_below (add_var_i :: tr) ((0, sz) :: rows) monos tbl
    (fun w => if decide (w = sz) then cnt w + 1 else cnt w).
Proof.
  intros H Hlen. pose proof (interned_below_top _ _ _ _ _ H) as (T1 & T2 & T3).
  simpl. split; [|split].
  - split; [|split].
    + intros k x Hk. specialize (T1 k x Hk). case_decide; lia.
    + exact T2.
    + intros w. specialize (T3 w). case_decide; lia.
  - rewrite decide_True by done. specialize (T3 sz). lia.
  - eapply interned_below_ext; [|exact H]. intros w. simpl. case_decide; lia.
Qed.

Lemma below_intern (tr : list trail_i) (rows : list (var_t * nat))
    (monos : list (mono_key * var_t)) (tbl : gmap mono_key var_t) (cnt : nat -> Z)
    (sz : nat) (var : list pvar) :
  tbl !! (sz, var) = None ->
  interned_below tr rows monos tbl cnt ->
  Z.of_nat (length tr) < UINT_MOD - 1 ->
  interned_below (add_mono_i :: add_var_i :: tr) ((0, sz) :: rows)
    (((sz, var), cnt sz) :: monos) (<[(sz, var) := cnt sz]> tbl)
    (fun w => if decide (w = sz) then cnt w + 1 else cnt w).
Proof.
  intros Hk H Hlen. pose proof (below_fresh tr rows monos tbl cnt sz H Hlen) as Hf.
  pose proof (interned_below_top _ _ _ _ _ H) as (T1 & T2 & T3).
  unfold mono_key in *.
  cbn [interned_below fst]. split.
  - split; [|split].
    + intros k x. destruct (decide (k = (sz, var))) as [->|Hne].
      * rewrite lookup_insert_eq. intros [= <-]. simpl. rewrite decide_True by done.
        specialize (T3 sz). lia.
      * rewrite lookup_insert_ne by done. intros Hx. specialize (T1 k x Hx).
        case_decide; lia.
    + intros k1 k2 x.
      destruct (decide (k1 = (sz, var))) as [->|Hn1];
        destruct (decide (k2 = (sz, var))) as [->|Hn2]; [done| | |].
      * rewrite lookup_insert_eq, lookup_insert_ne by done. intros [= <-] H2 Hw.
        specialize (T1 k2 _ H2). simpl in Hw. rewrite <- Hw in T1. lia.
      * rewrite lookup_insert_eq, lookup_insert_ne by done. intros H1 [= <-] Hw.
        specialize (T1 k1 _ H1). simpl in Hw. rewrite Hw in T1. lia.
      * rewrite !lookup_insert_ne by done. apply T2.
    + intros w. pose proof (T3 w) as Tw. pose proof (T3 sz) as Ts. simpl length.
      case_decide; lia.
  - rewrite delete_insert_id by done. exact Hf.
Qed.

Lemma num_vars_fresh sz (s : linear_solver F) tr rows tbl monos (fx : list (option F))
    bv vs cs w :
  0 <= num_vars s sz < UINT_MOD - 1 ->
  num_vars (mk_linear_solver tr rows
              (<[sz := uint_incr (num_vars s sz)]> (reserve (S sz) 0 (m_sz2num_vars s)))
              tbl monos fx bv vs cs) w
  = if decide (w = sz) then num_vars s w + 1 else num_vars s w.
Proof.
  intros Hc. pose proof (length_reserve (S sz) 0 (m_sz2num_vars s)) as Hres.
  unfold num_vars at 1. simpl. case_decide as Hw.
  - subst w. rewrite list_lookup_insert_eq by lia. simpl. by apply uint_incr_small.
  - rewrite list_lookup_insert_ne by done. apply default_reserve.
Qed.

Lemma fresh_var_interned sz (s : linear_solver F) c s' :
  interning_ok s -> Z.of_nat (length (m_trail s)) < UINT_MOD - 1 ->
  fresh_var sz s = Ok (c, s') -> interning_ok s'.
Proof.
  intros H Hlen. rewrite fresh_var_run. intros [= <- <-].
  pose proof (count_range _ _ _ sz (interned_below_top _ _ _ _ _ H) Hlen) as Hc.
  unfold interning_ok. cbn [m_trail m_rows m_monomials m_mono2var].
  eapply interned_below_ext; [|by apply (below_fresh _ _ _ _ _ sz H)].
  intros w. symmetry. by apply num_vars_fresh.
Qed.

Lemma mono2var_interned sz var (s : linear_solver F) v s' :
  interning_ok s -> Z.of_nat (length (m_trail s)) < UINT_MOD - 1 ->
  mono2var sz var s = Ok (v, s') ->
  interning_ok s' /\ m_mono2var s' !! (sz, var) = Some v.
Proof.
  intros H Hlen. rewrite mono2var_run.
  destruct (m_mono2var s !! (sz, var)) as [v0|] eqn:Hk; intros [= <- <-]; [done|].
  pose proof (count_range _ _ _ sz (interned_below_top _ _ _ _ _ H) Hlen) as Hc.
  split; [|cbn [m_mono2var]; by rewrite lookup_insert_eq].
  unfold interning_ok. cbn [m_trail m_rows m_monomials m_mono2var].
  eapply interned_below_ext; [|by apply (below_intern _ _ _ _ _ sz var Hk H)].
  intros w. symmetry. by apply num_vars_fresh.
Qed.

Lemma neutral_interned (s s' : linear_solver F) :
  interning_ok s -> neutral s s' -> interning_ok s'.
Proof.
  intros H (Ht & Hm & Hn & Hl). unfold interning_ok.
  assert (Hnv : forall w, num_vars s w = num_vars s' w) by (intros w; unfold num_vars; by rewrite Hn).
  rewrite Ht, Hm. eapply interned_below_ext; [exact Hnv|].
  destruct Hl as [[-> ->]|(t & r & Hk & -> & ->)]; [exact H|].
  assert (Htop : table_ok (m_mono2var s) (num_vars s) (S (length (m_trail s)))).
  { eapply table_ok_ext; [done| |by eapply interned_below_top]. lia. }
  destruct Hk as [->|[->| ->]]; simpl; split; done.
Qed.

Lemma istep_trail (s s' : linear_solver F) :
  istep s s' -> (length (m_trail s) <= length (m_trail s'))%nat.
Proof.
  intros [s1 s2 (_ & _ & _ & Hl)|s1 sz c s2 H|s1 sz var v s2 H].
  - destruct Hl as [[-> _]|(t & r & _ & -> & _)]; simpl; lia.
  - rewrite fresh_var_run in H. injection H as _ <-. simpl. lia.
  - rewrite mono2var_run in H. destruct (m_mono2var s1 !! (sz, var)).
    + injection H as _ <-. lia.
    + injection H as _ <-. simpl. lia.
Qed.

Lemma isteps_trail (s s' : linear_solver F) :
  rtc istep s s' -> (length (m_trail s) <= length (m_trail s'))%nat.
Proof. induction 1 as [|x y z Hxy _ IH]; [done|]. apply istep_trail in Hxy. lia. Qed.

Lemma isteps_interned (s s' : linear_solver F) :
  rtc istep s s' -> interning_ok s -> Z.of_nat (length (m_trail s')) < UINT_MOD - 1 ->
  interning_ok s'.
Proof.
  induction 1 as [|x y z Hxy Hyz IH]; [done|]. intros H Hlen. apply IH; [|done].
  pose proof (istep_trail _ _ Hxy). pose proof (isteps_trail _ _ Hyz).
  destruct Hxy as [s1 s2 Hn|s1 sz c s2 Hf|s1 sz var v s2 Hm].
  - by eapply neutral_interned.
  - eapply fresh_var_interned; [exact H| |exact Hf]. lia.
  - eapply mono2var_interned; [exact H| |exact Hm]. lia.
Qed.

(** *** Every call is made of such steps *)

Ltac same_log := split; [done|]; split; [done|]; split; [done|]; left; done.

Lemma sz2fixplex_isteps sz (s : linear_solver F) b s' :
  sz2fixplex sz s = Ok (b, s') -> rtc istep s s'.
Proof.
  unfold sz2fixplex. destruct (fix_get s sz); [by intros [= <- <-]|].
  destruct (ext_of sz); [|done]. intros [= <- <-].
  apply rtc_once, istep_neutral. same_log.
Qed.

Lemma scratch_istep vs cs (s : linear_solver F) : istep s (set_scratch vs cs s).
Proof. apply istep_neutral. same_log. Qed.

Lemma bool_istep bv (s : linear_solver F) : istep s (set_bool_var2row bv s).
Proof. apply istep_neutral. same_log. Qed.

Lemma call_then_log_istep sz t v (f : F -> F) (s : linear_solver F) u s' :
  t = set_bound_i \/ t = add_row_i \/ t = add_ineq_i ->
  (fp_call sz f ;;; push_trail t ;;; push_row v sz) s = Ok (u, s') -> istep s s'.
Proof.
  intros Ht H. inv_bind H. apply fp_call_Ok in Hc as (b & Hb & ->).
  unfold bind, push_trail, push_row, modify in H. simpl in H. injection H as <- <-.
  apply istep_neutral. split; [done|]. split; [done|]. split; [done|].
  right. by exists t, (v, sz).
Qed.

Lemma log_then_call_istep sz t v (f : F -> F) (s : linear_solver F) u s' :
  t = set_bound_i \/ t = add_row_i \/ t = add_ineq_i ->
  (push_trail t ;;; push_row v sz ;;; fp_call sz f) s = Ok (u, s') -> istep s s'.
Proof.
  intros Ht H. unfold bind, push_trail, push_row, modify in H. simpl in H.
  apply fp_call_Ok in H as (b & Hb & ->).
  apply istep_neutral. split; [done|]. split; [done|]. split; [done|].
  right. by exists t, (v, sz).
Qed.

Lemma linearize_loop_isteps sz ms (s : linear_solver F) u s' :
  linearize_loop sz ms s = Ok (u, s') -> rtc istep s s'.
Proof.
  destruct u. revert s. induction ms as [|m ms IH]; intros s; simpl.
  - by intros [= <-].
  - intros H. inv_bind H. inv_bind H. unfold modify in Hc0. injection Hc0 as <- <-.
    eapply rtc_l; [by eapply istep_intern|].
    eapply rtc_l; [apply scratch_istep|]. by apply IH.
Qed.

Lemma linearize_isteps p (s : linear_solver F) u s' :
  linearize p s = Ok (u, s') -> rtc istep s s'.
Proof.
  unfold linearize. intros H. inv_bind H. unfold modify in Hc. injection Hc as <- <-.
  eapply rtc_l; [apply scratch_istep|]. by eapply linearize_loop_isteps.
Qed.

Lemma internalize_pdd_isteps p (s : linear_solver F) v s' :
  internalize_pdd p s = Ok (v, s') -> rtc istep s s'.
Proof.
  unfold internalize_pdd. intros H. inv_bind H. apply linearize_isteps in Hc.
  etrans; [exact Hc|]. clear Hc.
  assert (Hrow : (v0 <- fresh_var (power_of_2 p) ;;
     modify (fun s => set_scratch (m_vars s ++ [v0])
                        (m_coeffs s ++ [2 ^ Z.of_nat (power_of_2 p) - 1]) s) ;;;
     sz2fixplex (power_of_2 p) ;;;
     (fun s => fp_call (power_of_2 p) (fp_add_row v0 (m_vars s) (m_coeffs s)) s) ;;;
     push_row v0 (power_of_2 p) ;;;
     push_trail add_row_i ;;;
     ret v0) s0 = Ok (v, s') -> rtc istep s0 s').
  { clear H. intros H. inv_bind H. pose proof (istep_fresh _ _ _ _ Hc) as Hf.
    inv_bind H. unfold modify in Hc0. injection Hc0 as <- <-.
    inv_bind H. apply sz2fixplex_isteps in Hc0.
    inv_bind H. apply fp_call_Ok in Hc1 as (b & Hb & ->).
    unfold bind, push_row, push_trail, modify, ret in H. simpl in H. injection H as <- <-.
    eapply rtc_l; [exact Hf|]. eapply rtc_l; [apply scratch_istep|].
    etrans; [exact Hc0|]. apply rtc_once, istep_neutral.
    split; [done|]. split; [done|]. split; [done|].
    right. eexists add_row_i, _. split; [by right; left|done]. }
  destruct (m_vars s0) as [|v1 [|v2 vs]]; try (by apply Hrow).
  destruct (last (m_coeffs s0)) as [c|]; try (by apply Hrow).
  destruct (decide (c = 1)) as [->|Hne].
  - simpl in H. by injection H as <- <-.
  - destruct c as [|[]|]; by apply Hrow.
Qed.

Lemma new_constraint_isteps c (s : linear_solver F) u s' :
  new_constraint c s = Ok (u, s') -> rtc istep s s'.
Proof.
  destruct c as [c|c]; simpl.
  - unfold new_eq. intros H. inv_bind H. apply internalize_pdd_isteps in Hc.
    unfold modify in H. injection H as <- <-.
    eapply rtc_r; [exact Hc | apply bool_istep].
  - unfold new_le. intros H. inv_bind H. apply internalize_pdd_isteps in Hc.
    inv_bind H. apply internalize_pdd_isteps in Hc0.
    unfold modify in H. injection H as <- <-.
    etrans; [exact Hc|]. eapply rtc_r; [exact Hc0 | apply bool_istep].
Qed.

Lemma activate_constraint_isteps c (s : linear_solver F) u s' :
  activate_constraint c s = Ok (u, s') -> rtc istep s s'.
Proof.
  unfold activate_constraint. intros H. inv_bind H.
  assert (s0 = s) as ->.
  { destruct (sign_undef _); [done|]. unfold ret in Hc. by injection Hc as _ <-. }
  clear Hc. destruct c as [c|c].
  - unfold assert_eq in H. inv_bind H. apply bool_var2row_Ok in Hc as ->.
    inv_bind H. apply sz2fixplex_isteps in Hc.
    etrans; [exact Hc|]. apply rtc_once.
    destruct (sign_undef (eq_sign c)).
    { unfold bind, push_trail, push_row, modify, fail in H. done. }
    destruct (sign_positive (eq_sign c)).
    + apply (log_then_call_istep (power_of_2 (eq_p c)) set_bound_i x0.1
               (fp_set_bounds x0.1 0 0) _ u); [by left|].
      revert H. unfold bind, push_trail, push_row, modify, ret. simpl. done.
    + apply (log_then_call_istep (power_of_2 (eq_p c)) set_bound_i x0.1
               (fp_set_bounds x0.1 1 0) _ u); [by left|].
      revert H. unfold bind, push_trail, push_row, modify, ret. simpl. done.
  - unfold assert_le in H. inv_bind H. apply bool_var2row_Ok in Hc as ->.
    inv_bind H. apply sz2fixplex_isteps in Hc.
    etrans; [exact Hc|]. apply rtc_once. clear Hc.
    destruct (is_val (ule_rhs c)); [|destruct (is_val (ule_lhs c))].
    + destruct (sign_positive (ule_sign c));
        (eapply call_then_log_istep; [|exact H]); by left.
    + destruct (sign_positive (ule_sign c)).
      * eapply call_then_log_istep; [|exact H]. by left.
      * destruct (val (ule_lhs c) =? 0).
        -- revert H. unfold bind, fail. done.
        -- eapply call_then_log_istep; [|exact H]. by left.
    + destruct (sign_positive (ule_sign c));
        (eapply call_then_log_istep; [|exact H]); by right; right.
Qed.

Lemma bound_call_isteps (size : pvar -> nat) v (f : var_t -> F -> F)
    (s : linear_solver F) u s' :
  (sz2fixplex (size v) ;;;
   w <- pvar2var (size v) v ;;
   push_trail set_bound_i ;;;
   push_row w (size v) ;;;
   fp_call (size v) (f w)) s = Ok (u, s') ->
  rtc istep s s'.
Proof.
  intros H. inv_bind H. apply sz2fixplex_isteps in Hc.
  inv_bind H. etrans; [exact Hc|].
  eapply rtc_l; [by eapply istep_intern|]. apply rtc_once.
  eapply log_then_call_istep; [|exact H]. by left.
Qed.

Lemma check_isteps (s : linear_solver F) r s' : check s = Ok (r, s') -> rtc istep s s'.
Proof.
  unfold check. destruct (check_loop [] (m_fix s) l_true) as [r0 fx].
  intros [= <- <-]. apply rtc_once, istep_neutral. same_log.
Qed.

Variable size : pvar -> nat.
Variable fdd_sup : nat -> Viable.bdd -> Z -> option Z.
Variable set_ne : ViableSet.viable_set -> Z -> ViableSet.viable_set.

Lemma run_op_isteps o (s s' : system (F := F)) :
  run_op size fdd_sup set_ne o s = Ok s' -> rtc istep s.1 s'.1.
Proof.
  destruct o; simpl; unfold lift_ls, lift_vi; intros H.
  all: try (match type of H with context [match ?c with _ => _ end] =>
              destruct c as [[x l]|] eqn:Hc end; [|done]; injection H as <-; simpl).
  all: try (match type of H with context [match ?c with _ => _ end] =>
              destruct c as [w|] eqn:Hc end; [|done]; injection H as <-; simpl;
            apply rtc_refl).
  - eapply rtc_once, istep_fresh, Hc.
  - eapply rtc_once, istep_intern, Hc.
  - eapply rtc_once, istep_intern, Hc.
  - eapply new_constraint_isteps, Hc.
  - eapply activate_constraint_isteps, Hc.
  - eapply (bound_call_isteps size v (fun w => fp_set_value w _)), Hc.
  - eapply (bound_call_isteps size v (fun w => fp_set_bounds w _ _)), Hc.
  - eapply check_isteps, Hc.
  - apply rtc_refl.
  - apply rtc_refl.
  - apply rtc_refl.
Qed.

(** X26: [mono2var] keeps the interning table well formed, and the variable it
    returns stands for this monomial only: no other monomial of the width has
    it. The trail is assumed to hold fewer than [2^32 - 1] entries, so that
    no counter wraps. *)
Theorem mono2var_injective (sz : nat) (var : list pvar) (s : linear_solver F)
    (v : var_t) (s' : linear_solver F) :
  interning_ok s ->
  Z.of_nat (length (m_trail s)) < UINT_MOD - 1 ->
  mono2var sz var s = Ok (v, s') ->
  interning_ok s' /\
  m_mono2var s' !! (sz, var) = Some v /\
  forall var', m_mono2var s' !! (sz, var') = Some v -> var' = var.
Proof.
  intros H Hlen Hm.
  destruct (mono2var_interned sz var s v s' H Hlen Hm) as [H' Hv].
  split; [done|]. split; [done|]. intros var' Hv'.
  pose proof (interned_below_top _ _ _ _ _ H') as (_ & T2 & _).
  specialize (T2 (sz, var') (sz, var) v Hv' Hv eq_refl). by injection T2.
Qed.

(** X27: every command keeps the interning table well formed, so that two
    monomials of one width never share a variable: [push], [pop(n)] and each
    call of the two components, as long as the trail it leaves holds fewer
    than [2^32 - 1] entries. *)
Theorem interning_kept (c : cmd) (s s' : system (F := F)) :
  interning_ok s.1 ->
  run_cmd size fdd_sup set_ne c s = Ok s' ->
  Z.of_nat (length (m_trail s'.1)) < UINT_MOD - 1 ->
  interning_ok s'.1 /\
  forall sz var var' x,
    m_mono2var s'.1 !! (sz, var) = Some x -> m_mono2var s'.1 !! (sz, var') = Some x ->
    var = var'.
Proof.
  intros H Hc Hlen.
  assert (H' : interning_ok s'.1).
  { destruct c as [|n|o]; simpl in Hc.
    - injection Hc as <-. simpl in *. unfold interning_ok. simpl. split; [|exact H].
      eapply table_ok_ext; [done| |by eapply interned_below_top]. lia.
    - apply pop_Ok in Hc as [Hc _]. by eapply pop_loop_interned.
    - apply run_op_isteps in Hc. by eapply isteps_interned. }
  split; [exact H'|]. intros sz var var' x H1 H2.
  pose proof (interned_below_top _ _ _ _ _ H') as (_ & T2 & _).
  specialize (T2 (sz, var) (sz, var') x H1 H2 eq_refl). by injection T2.
Qed.

End Interned.

Lemma init_interned {F : Type} : interning_ok (init (F := F)).
Proof.
  unfold interning_ok. simpl. split; [|done]. split; [|split].
  - intros k x Hk. by rewrite lookup_empty in Hk.
  - intros k1 k2 x Hk. by rewrite lookup_empty in Hk.
  - intros w. unfold num_vars. simpl. lia.
Qed.

Lemma mono2var_injective_witness :
  let s : linear_solver RecordingEngine.engine := init in
  exists v s',
    mono2var 32 [1%nat] s = Ok (v, s') /\
    interning_ok s' /\
    m_mono2var s' !! (32%nat, [1%nat]) = Some v /\
    forall var', m_mono2var s' !! (32%nat, var') = Some v -> var' = [1%nat].
Proof.
  eexists _, _. split; [vm_compute; reflexivity|].
  apply (mono2var_injective 32 [1%nat] init).
  - apply init_interned.
  - vm_compute. reflexivity.
  - vm_compute. reflexivity.
Defined.

Lemma interning_kept_witness :
  exists s',
    run_cmd (E := demo_engine) demo_size Domain.scan_sup Domain.point_ne
      (c_op (do_mono2var 32 [0%nat; 1%nat])) (init, Domain.one_free 32) = Ok s' /\
    interning_ok s'.1 /\
    forall sz var var' x,
      m_mono2var s'.1 !! (sz, var) = Some x -> m_mono2var s'.1 !! (sz, var') = Some x ->
      var = var'.
Proof.
  eexists. split; [vm_compute; reflexivity|].
  apply (interning_kept (E := demo_engine) demo_size Domain.scan_sup Domain.point_ne
           (c_op (do_mono2var 32 [0%nat; 1%nat])) (init, Domain.one_free 32)).
  - apply init_interned.
  - vm_compute. reflexivity.
  - vm_compute. reflexivity.
Defined.

End SolverInterning.
